(** * Heuristic source-metric extraction: cc.py, halstead.py, dfc.py,
      dfc_pycparser_backup.py, dfc_lizard.py

    A shallow embedding of the regular-expression passes, the brace scanner,
    the Halstead tokenizer and formulas, and the two data-flow strategies,
    with the properties the specification states about them.

    Source text is a sequence of 8-bit characters read as Latin-1 code points
    (the fallback decoding of [_read_file_with_fallback]); the character
    classes [\w], [\s], [\d] follow Python's tables on that range. *)

From Stdlib Require Import ZArith List Ascii String Lia Bool Floats Sorted Permutation.
From stdpp Require Import base decidable list gmap strings.

#[local] Set Warnings "-clear-no-such-hyp".

Local Open Scope nat_scope.

(* ===================================================================== *)
(** * Characters and texts *)
(* ===================================================================== *)

Abbreviation text := (list ascii).

(** A Python string literal, as a list of characters. *)
Definition txt (s : string) : text := list_ascii_of_string s.

Definition code_of (c : ascii) : nat := nat_of_ascii c.

Definition ch_nl : ascii := "010"%char.
Definition ch_dquote : ascii := "034"%char.
Definition ch_squote : ascii := "039"%char.
Definition ch_bslash : ascii := "092"%char.

Definition ch_eqb (a b : ascii) : bool := Ascii.eqb a b.

Definition in_range (lo hi : nat) (c : ascii) : bool :=
  (lo <=? code_of c) && (code_of c <=? hi).

(** [\d] *)
Definition is_digit (c : ascii) : bool := in_range 48 57 c.

(** [A-Za-z_] *)
Definition is_ident_start (c : ascii) : bool :=
  in_range 65 90 c || in_range 97 122 c || ch_eqb c "_"%char.

(** [\w] of a str pattern: alphanumeric or underscore; above 127 the
    Latin-1 letters, superscript digits and vulgar fractions. *)
Definition is_word (c : ascii) : bool :=
  is_digit c || is_ident_start c
  || (code_of c =? 170) || in_range 178 179 c || (code_of c =? 181)
  || in_range 185 186 c || in_range 188 190 c
  || in_range 192 214 c || in_range 216 246 c || in_range 248 255 c.

(** [\s] of a str pattern. *)
Definition is_space (c : ascii) : bool :=
  in_range 9 13 c || in_range 28 32 c || (code_of c =? 133) || (code_of c =? 160).

(** [.] without re.S, and with it. *)
Definition dot (c : ascii) : bool := negb (ch_eqb c ch_nl).
Definition dot_all (c : ascii) : bool := true.

(** [str.count] of a single character, used for the line numbers. *)
Definition count_nl (s : text) : nat :=
  List.length (List.filter (fun c => ch_eqb c ch_nl) s).

Fixpoint starts_with (p s : text) : bool :=
  match p, s with
  | [], _ => true
  | a :: p', b :: s' => ch_eqb a b && starts_with p' s'
  | _ :: _, [] => false
  end.

(* ===================================================================== *)
(** * The [re] module: a backtracking matcher *)
(* ===================================================================== *)

Module Re.

(** The constructs the program's patterns use. [Star true] is the greedy
    [*], [Star false] the lazy [*?]; [Bnd] is [\b]. *)
Inductive regex : Type :=
| Eps : regex
| Cls : (ascii -> bool) -> regex
| Cat : regex -> regex -> regex
| Alt : regex -> regex -> regex
| Star : bool -> regex -> regex
| Bnd : regex.

Definition chr (c : ascii) : regex := Cls (ch_eqb c).
Definition plus (r : regex) : regex := Cat r (Star true r).
Definition opt (r : regex) : regex := Alt r Eps.

Fixpoint lit (w : text) : regex :=
  match w with
  | [] => Eps
  | c :: w' => Cat (chr c) (lit w')
  end.

Fixpoint cats (rs : list regex) : regex :=
  match rs with
  | [] => Eps
  | [r] => r
  | r :: rs' => Cat r (cats rs')
  end.

Definition word_here (s : text) : bool :=
  match s with
  | c :: _ => is_word c
  | [] => false
  end.

(** [\b]: exactly one side of the position is a word character; the ends of
    the string count as non-word.  [pre] is the text before the position,
    nearest character first. *)
Definition at_boundary (pre s : text) : bool := xorb (word_here pre) (word_here s).

(** The loop of a starred group: [body] matches one iteration.  An
    iteration must consume a character to be repeated; [fuel] is the number
    of characters left, so it never runs out before the text does. *)
Fixpoint star_loop {A : Type}
    (body : text -> text -> (text -> text -> option A) -> option A)
    (g : bool) (k : text -> text -> option A)
    (fuel : nat) (pre s : text) {struct fuel} : option A :=
  let again (_ : unit) :=
    match fuel with
    | 0 => None
    | S f =>
        body pre s (fun pre' s' =>
          if List.length s' <? List.length s then star_loop body g k f pre' s' else None)
    end in
  if g then
    match again tt with
    | Some x => Some x
    | None => k pre s
    end
  else
    match k pre s with
    | Some x => Some x
    | None => again tt
    end.

(** The matcher, in continuation-passing style: alternatives are tried in
    the order re tries them and the first success wins.  A state is the text
    before the position (reversed) and the text from the position on. *)
Fixpoint mt {A : Type} (r : regex) (pre s : text)
    (k : text -> text -> option A) {struct r} : option A :=
  match r with
  | Eps => k pre s
  | Cls p =>
      match s with
      | c :: s' => if p c then k (c :: pre) s' else None
      | [] => None
      end
  | Cat r1 r2 => mt r1 pre s (fun pre' s' => mt r2 pre' s' k)
  | Alt r1 r2 =>
      match mt r1 pre s k with
      | Some x => Some x
      | None => mt r2 pre s k
      end
  | Star g r1 => star_loop (fun pre' s' k' => mt r1 pre' s' k') g k (List.length s) pre s
  | Bnd => if at_boundary pre s then k pre s else None
  end.

Definition match_at (r : regex) (pre s : text) : option (text * text) :=
  mt r pre s (fun pre' s' => Some (pre', s')).

(** One step of a left-to-right scan: a character no match starts at, or a
    match with its start offset and its text. *)
Inductive piece : Type :=
| Skip : ascii -> piece
| Hit : nat -> text -> piece.

(** The scan shared by [finditer], [findall] and [sub]: at each position the
    pattern is tried; after a match the scan resumes at the match's end, else
    one character further.  Every pattern of the program consumes at least
    one character, so a match without progress is treated as a miss. *)
Fixpoint scan (r : regex) (fuel : nat) (pre s : text) : list piece :=
  match fuel with
  | 0 => []
  | S f =>
      let miss (_ : unit) :=
        match s with
        | [] => []
        | c :: s' => Skip c :: scan r f (c :: pre) s'
        end in
      match match_at r pre s with
      | Some (pre', s') =>
          if List.length s' <? List.length s
          then Hit (List.length pre) (firstn (List.length s - List.length s') s)
                 :: scan r f pre' s'
          else miss tt
      | None => miss tt
      end
  end.

Definition pieces (r : regex) (s : text) : list piece := scan r (List.length s) [] s.

(** [(m.start(), m.end())] of each match. *)
Definition finditer (r : regex) (s : text) : list (nat * nat) :=
  flat_map (fun p => match p with
                     | Skip _ => []
                     | Hit i w => [(i, i + List.length w)]
                     end) (pieces r s).

(** [re.findall] of a pattern without capture groups. *)
Definition findall (r : regex) (s : text) : list text :=
  flat_map (fun p => match p with
                     | Skip _ => []
                     | Hit _ w => [w]
                     end) (pieces r s).

Definition sub_pieces (repl : text) (ps : list piece) : text :=
  flat_map (fun p => match p with
                     | Skip c => [c]
                     | Hit _ _ => repl
                     end) ps.

(** [re.sub(pattern, repl, s)] for a replacement without group references. *)
Definition sub (r : regex) (repl s : text) : text := sub_pieces repl (pieces r s).

End Re.

Import Re.

(* ===================================================================== *)
(** * cc.py and halstead.py: the lexical strippers *)
(* ===================================================================== *)

(** The literal pattern [Q(\\.|[^Q\\])*Q] for a quote character Q, with a
    given meaning of the dot. *)
Definition quoted_re (any : ascii -> bool) (q : ascii) : regex :=
  cats [chr q;
        Star true (Alt (Cat (chr ch_bslash) (Cls any))
                       (Cls (fun c => negb (ch_eqb c q) && negb (ch_eqb c ch_bslash))));
        chr q].

(** [//.*] *)
Definition line_comment_re : regex :=
  cats [chr "/"; chr "/"; Star true (Cls dot)]%char.

(** [/\*.*?\*/] under re.S, and [/\*[\s\S]*?\*/]. *)
Definition block_comment_re : regex :=
  cats [chr "/"; chr "*"; Star false (Cls dot_all); chr "*"; chr "/"]%char.

(** cc.py, [_strip_comments_and_strings]. *)
Definition _strip_comments_and_strings (code : text) : text :=
  let code := sub (quoted_re dot_all ch_dquote) [ch_dquote; ch_dquote] code in
  let code := sub (quoted_re dot_all ch_squote) [ch_squote; ch_squote] code in
  let code := sub line_comment_re [] code in
  let code := sub block_comment_re [] code in
  code.

(** halstead.py, [strip_comments_and_strings]. *)
Definition strip_comments_and_strings (code : text) : text :=
  let code := sub line_comment_re [] code in
  let code := sub block_comment_re [] code in
  let code := sub (quoted_re dot ch_dquote) [] code in
  let code := sub (quoted_re dot ch_squote) [] code in
  code.


(* ===================================================================== *)
(** * cc.py: function boundaries and decision points *)
(* ===================================================================== *)

Module CC.

Record FunctionRecord : Type := {
  filename : text;
  function_start : nat;
  function_end : nat;
  cc : nat
}.

(** The character classes of [func_pattern]. *)
Definition is_name_start (c : ascii) : bool := is_ident_start c || ch_eqb c "~"%char.
Definition is_name_char (c : ascii) : bool := is_word c || ch_eqb c ":"%char.
Definition is_type_char (c : ascii) : bool :=
  is_word c || is_space c
  || existsb (ch_eqb c) [":"; "*"; "<"; ">"; ","; "&"; "("; ")"; "["; "]"]%char.
Definition is_param_char (c : ascii) : bool :=
  negb (ch_eqb c ";"%char) && negb (ch_eqb c "{"%char).

(** [func_pattern]: a lazily matched type prefix, white space, a name, a
    parameter list without semicolon or brace, an optional const, an optional
    trailing return type, and the opening brace. *)
Definition func_pattern : regex :=
  cats [ Cls is_name_start; Star false (Cls is_type_char);
         plus (Cls is_space);
         Cls is_name_start; Star true (Cls is_name_char);
         Star true (Cls is_space);
         chr "("%char; Star true (Cls is_param_char); chr ")"%char;
         Star true (Cls is_space);
         opt (Cat (lit (txt "const")) (Star true (Cls is_space)));
         opt (cats [lit (txt "->"); Star true (Cls is_space);
                    Cls is_ident_start; Star true (Cls is_name_char)]);
         Star true (Cls is_space);
         chr "{"%char ].

(** The while loop that looks for the closing brace: [s] is [code[idx:]]. *)
Fixpoint find_close (s : text) (idx : nat) (balance : Z) : option nat :=
  match s with
  | [] => None
  | ch :: s' =>
      if ch_eqb ch "{"%char then find_close s' (S idx) (balance + 1)%Z
      else if ch_eqb ch "}"%char then
        let balance := (balance - 1)%Z in
        if (balance =? 0)%Z then Some idx else find_close s' (S idx) balance
      else find_close s' (S idx) balance
  end.

(** [s[a:b]] *)
Definition slice (a b : nat) (s : text) : text := firstn (b - a) (skipn a s).

(** [str.count(pat)] for a non-empty [pat]: occurrences from left to right,
    each starting after the end of the one before. *)
Fixpoint count_from (pat : text) (fuel : nat) (s : text) : nat :=
  match fuel with
  | 0 => 0
  | S f =>
      match s with
      | [] => 0
      | _ :: s' =>
          if starts_with pat s
          then S (count_from pat f (skipn (List.length pat) s))
          else count_from pat f s'
      end
  end.

Definition str_count (pat s : text) : nat := count_from pat (List.length s) s.

(** [\bkw\b] *)
Definition keyword_re (kw : text) : regex := cats [Bnd; lit kw; Bnd].

(** Lines 150-163 of [find_functions_in_file]. *)
Definition decisions (body : text) : nat :=
  List.length (findall (keyword_re (txt "if")) body)
  + List.length (findall (keyword_re (txt "for")) body)
  + List.length (findall (keyword_re (txt "while")) body)
  + List.length (findall (keyword_re (txt "case")) body)
  + List.length (findall (keyword_re (txt "catch")) body)
  + str_count (txt "?") body
  + str_count (txt "&&") body
  + str_count (txt "||") body.

Definition cyclomatic (body : text) : nat := decisions body + 1.

(** The body of the loop over the header matches: nothing is appended when
    the brace scan reaches the end of the text. *)
Definition record_of_match (file_path code : text) (m : nat * nat) : list FunctionRecord :=
  let open_brace_idx := snd m - 1 in
  match find_close (skipn open_brace_idx code) open_brace_idx 0 with
  | None => []
  | Some close_brace_idx =>
      let start_line := count_nl (firstn (fst m) code) + 1 in
      let end_line := count_nl (firstn close_brace_idx code) + 1 in
      let body := slice (snd m) close_brace_idx code in
      [ {| filename := file_path; function_start := start_line;
           function_end := end_line; cc := cyclomatic body |} ]
  end.

(** [find_functions_in_file]; [content] is what [_read_file_with_fallback]
    returned, [None] for a file neither decoding could read. *)
Definition find_functions_in_file (file_path : text) (content : option text)
    : list FunctionRecord :=
  match content with
  | None => []
  | Some content =>
      let code := _strip_comments_and_strings content in
      flat_map (record_of_match file_path code) (finditer func_pattern code)
  end.

(** What reading a file can do inside [find_functions_in_file]: return its
    text, return None (both decodings failed), or raise (any other error of
    the first open, which [_read_file_with_fallback] does not catch). *)
Inductive read_outcome : Type :=
| ReadText : text -> read_outcome
| ReadNone : read_outcome
| ReadRaises : read_outcome.

(** [handle_file] of [get_cc_metrics]: an exception becomes None. *)
Definition handle_file (path : text) (r : read_outcome) : option (list FunctionRecord) :=
  match r with
  | ReadText content => Some (find_functions_in_file path (Some content))
  | ReadNone => Some (find_functions_in_file path None)
  | ReadRaises => None
  end.

(** [str.endswith] *)
Definition endswith (s suffix : text) : bool := starts_with (rev suffix) (rev s).

(** [re.match(pattern, name)]: a match starting at the first character. *)
Definition re_match (r : regex) (s : text) : bool :=
  match match_at r [] s with
  | Some _ => true
  | None => false
  end.

Record project : Type := {
  name : text;
  description : text;
  src : text;
  src_file_extensions : list text;
  ignore : option (list regex)
}.

(** A file met by [os.walk]: its name, its joined path, and what reading it
    does. *)
Record walked_file : Type := {
  wf_name : text;
  wf_path : text;
  wf_read : read_outcome
}.

(** What [self.src] is on disk. *)
Inductive src_kind : Type :=
| SrcMissing : src_kind
| SrcFile : read_outcome -> src_kind
| SrcDir : list walked_file -> src_kind.

Record cc_metrics : Type := {
  total_cc : nat;
  files_count : nat;
  details : list FunctionRecord
}.

Inductive outcome (A : Type) : Type :=
| Returned : A -> outcome A
| FileNotFoundError : text -> outcome A.
Arguments Returned {A} _.
Arguments FileNotFoundError {A} _.

(** The three accumulators and the [if recs:] block that updates them. *)
Definition add_recs (acc : cc_metrics) (recs : option (list FunctionRecord)) : cc_metrics :=
  match recs with
  | Some (r0 :: rs) =>
      let acc := fold_left (fun acc r =>
                   {| total_cc := total_cc acc + cc r;
                      files_count := files_count acc;
                      details := details acc ++ [r] |}) (r0 :: rs) acc in
      {| total_cc := total_cc acc; files_count := files_count acc + 1;
         details := details acc |}
  | Some [] | None => acc
  end.

Definition selected (p : project) (f : walked_file) : bool :=
  existsb (endswith (wf_name f)) (src_file_extensions p)
  && negb (match ignore p with
           | Some (pat :: pats) => existsb (fun pattern => re_match pattern (wf_name f)) (pat :: pats)
           | Some [] | None => false
           end).

Definition get_cc_metrics (p : project) (disk : src_kind) : outcome cc_metrics :=
  let zero := {| total_cc := 0; files_count := 0; details := [] |} in
  match disk with
  | SrcMissing => FileNotFoundError (src p)
  | SrcFile r =>
      if existsb (endswith (src p)) (src_file_extensions p)
      then Returned (add_recs zero (handle_file (src p) r))
      else Returned zero
  | SrcDir files =>
      Returned (fold_left (fun acc f =>
                  if selected p f then add_recs acc (handle_file (wf_path f) (wf_read f))
                  else acc) files zero)
  end.

End CC.

(* ===================================================================== *)
(** * halstead.py: tokenizer and metrics *)
(* ===================================================================== *)

Module Halstead.

(** [OPERATORS], as the pattern strings of the source. *)
Definition OPERATORS : list text :=
  List.map txt
    [ "\+\+"; "--"; "->"; "\."; "::";
      "\+\="; "-="; "\*="; "/="; "%=";
      "\+"; "-"; "\*"; "/"; "%"; "="; "=="; "!="; "<="; ">="; "<"; ">";
      "&&"; "\|\|"; "!"; "&"; "\|"; "\^"; "~"; "<<"; ">>";
      "\?"; ":"; ";"; ",";
      "\("; "\)"; "\{"; "\}"; "\["; "\]" ]%string.

(** [re.compile] on such a pattern: a backslash makes the next character a
    literal, every other character of these patterns is one already. *)
Fixpoint compile_op (p : text) : regex :=
  match p with
  | [] => Eps
  | c :: p' =>
      if ch_eqb c ch_bslash then
        match p' with
        | c' :: p'' => Cat (chr c') (compile_op p'')
        | [] => Eps
        end
      else Cat (chr c) (compile_op p')
  end.

(** [sorted(OPERATORS, key=len, reverse=True)]: by decreasing length of the
    pattern string, patterns of equal length keeping their order. *)
Fixpoint insert_by_len (x : text) (l : list text) : list text :=
  match l with
  | [] => [x]
  | y :: l' =>
      if List.length y <=? List.length x then x :: y :: l' else y :: insert_by_len x l'
  end.

Definition sorted_by_len_desc (l : list text) : list text :=
  fold_right insert_by_len [] l.

(** [IDENTIFIER] and [NUMBER]. *)
Definition is_ident_char (c : ascii) : bool := is_ident_start c || is_digit c.

Definition IDENTIFIER : regex :=
  cats [Bnd; Cls is_ident_start; Star true (Cls is_ident_char); Bnd].

Definition NUMBER : regex :=
  cats [Bnd; plus (Cls is_digit); opt (Cat (chr "."%char) (plus (Cls is_digit))); Bnd].

(** The loop over the sorted operators: each operator found is recorded and
    blanked from the working text. *)
Definition operator_pass (st : list text * text) (op : text) : list text * text :=
  let '(operators_found, code) := st in
  let matches := findall (compile_op op) code in
  match matches with
  | [] => (operators_found, code)
  | _ :: _ => (operators_found ++ matches, sub (compile_op op) (txt " ") code)
  end.

Definition tokenize_source (code : text) : list text * list text :=
  let code := strip_comments_and_strings code in
  let '(operators_found, code) :=
    fold_left operator_pass (sorted_by_len_desc OPERATORS) ([], code) in
  let operands_found := findall IDENTIFIER code in
  let operands_found := operands_found ++ findall NUMBER code in
  (operators_found, operands_found).

Record halstead : Type := {
  n1 : nat; n2 : nat; N1 : nat; N2 : nat;
  vocabulary : nat; length : nat;
  volume : float; difficulty : float; effort : float; time : float; bugs : float
}.

(** The float of a count: exact below 2^53, as Python's conversion is. *)
Definition float_of_nat (n : nat) : float :=
  PrimFloat.of_uint63 (Uint63.of_Z (Z.of_nat n)).

Section Metrics.

(** [math.log2], from the C library. *)
Variable log2 : float -> float.

(** [compute_halstead]: IEEE binary64 arithmetic, as Python floats. *)
Definition compute_halstead (operators operands : list text) : halstead :=
  let n1 := List.length (remove_dups operators) in
  let n2 := List.length (remove_dups operands) in
  let N1 := List.length operators in
  let N2 := List.length operands in
  let vocabulary := n1 + n2 in
  let length := N1 + N2 in
  let volume :=
    if (0 <? vocabulary) && (0 <? length)
    then (float_of_nat length * log2 (float_of_nat vocabulary))%float
    else 0%float in
  let difficulty :=
    if 0 <? n2
    then ((float_of_nat n1 / 2) * (float_of_nat N2 / float_of_nat n2))%float
    else 0%float in
  let effort := (difficulty * volume)%float in
  let time := if (0 <? effort)%float then (effort / 18)%float else 0%float in
  let bugs := if (0 <? volume)%float then (volume / 3000)%float else 0%float in
  {| n1 := n1; n2 := n2; N1 := N1; N2 := N2;
     vocabulary := vocabulary; length := length;
     volume := volume; difficulty := difficulty; effort := effort;
     time := time; bugs := bugs |}.

End Metrics.

End Halstead.

(* ===================================================================== *)
(** * The pycparser syntax tree, as the visitors see it *)
(* ===================================================================== *)

(** The node classes the analyzers have a method for, and [Other] for every
    class they leave to [generic_visit], which visits the children in order.
    An absent child is None. *)
#[local] Set Warnings "-register-all".
Inductive node : Type :=
| ID : string -> node
| Assignment : node -> option node -> node
| If : option node -> option node -> option node -> node
| While : option node -> option node -> node
| For : option node -> option node -> option node -> option node -> node
| Other : list node -> node.

(* ===================================================================== *)
(** * dfc.py: Strategy A, reaching definitions over a chain of blocks *)
(* ===================================================================== *)

Module Dfc.

Record block : Type := { defs : gset string; uses : gset string }.

Record DataFlowAnalyzer : Type := { blocks : list block; current_block : block }.

Definition empty_block : block := {| defs := ∅; uses := ∅ |}.

(** [__init__] *)
Definition init : DataFlowAnalyzer := {| blocks := []; current_block := empty_block |}.

Definition add_block (a : DataFlowAnalyzer) : DataFlowAnalyzer :=
  let b := current_block a in
  if decide (defs b = ∅ /\ uses b = ∅)
  then {| blocks := blocks a; current_block := empty_block |}
  else {| blocks := blocks a ++ [b]; current_block := empty_block |}.

(** [self.current_block["defs"].add(name)] and the same for uses. *)
Definition add_def (x : string) (a : DataFlowAnalyzer) : DataFlowAnalyzer :=
  {| blocks := blocks a;
     current_block := {| defs := defs (current_block a) ∪ {[x]};
                         uses := uses (current_block a) |} |}.

Definition add_use (x : string) (a : DataFlowAnalyzer) : DataFlowAnalyzer :=
  {| blocks := blocks a;
     current_block := {| defs := defs (current_block a);
                         uses := uses (current_block a) ∪ {[x]} |} |}.

Definition visit_ID (name : string) (a : DataFlowAnalyzer) : DataFlowAnalyzer :=
  add_use name a.

(** [NodeVisitor.visit] with the methods of the class inlined at their
    node; [Other] is [generic_visit]. *)
Fixpoint visit (n : node) (a : DataFlowAnalyzer) {struct n} : DataFlowAnalyzer :=
  let visit_opt (o : option node) (a : DataFlowAnalyzer) :=
    match o with
    | Some c => visit c a
    | None => a
    end in
  match n with
  | ID name => visit_ID name a
  | Assignment lvalue rvalue =>
      let a := match lvalue with
               | ID name => add_def name a
               | _ => a
               end in
      visit_opt rvalue a
  | If cond iftrue iffalse =>
      let a := visit_opt cond a in
      let a := add_block a in
      let a := match iftrue with
               | Some c => add_block (visit c a)
               | None => a
               end in
      match iffalse with
      | Some c => add_block (visit c a)
      | None => a
      end
  | While cond stmt =>
      let a := visit_opt cond a in
      let a := add_block a in
      let a := visit_opt stmt a in
      add_block a
  | For init cond next stmt =>
      let a := visit_opt init a in
      let a := visit_opt cond a in
      let a := visit_opt next a in
      let a := add_block a in
      let a := visit_opt stmt a in
      add_block a
  | Other children =>
      (fix visit_all (cs : list node) (a : DataFlowAnalyzer) : DataFlowAnalyzer :=
         match cs with
         | [] => a
         | c :: cs' => visit_all cs' (visit c a)
         end) children a
  end.

Definition visit_Assignment (lvalue : node) (rvalue : option node)
    (a : DataFlowAnalyzer) : DataFlowAnalyzer :=
  visit (Assignment lvalue rvalue) a.

(** One run of the for loop inside [while changed]: block [i] reads the set
    of its predecessor [i - 1] in the list being updated. *)
Definition pass_step (bs : list block) (st : list (gset string) * bool) (i : nat)
    : list (gset string) * bool :=
  let '(reaching_defs, changed) := st in
  let in_defs : gset string :=
    match i with
    | 0 => ∅
    | S pred => default ∅ (reaching_defs !! pred)
    end in
  let generated := default ∅ (defs <$> bs !! i) in
  let killed := generated in
  let new_out := (in_defs ∖ killed) ∪ generated in
  if decide (new_out = default ∅ (reaching_defs !! i))
  then (reaching_defs, changed)
  else (<[i := new_out]> reaching_defs, true).

Definition one_pass (bs : list block) (reaching_defs : list (gset string))
    : list (gset string) * bool :=
  fold_left (pass_step bs) (seq 0 (List.length bs)) (reaching_defs, false).

(** [while changed]: at most [fuel] passes; two are always enough (see
    [while_changed_exits]). *)
Fixpoint while_changed (fuel : nat) (bs : list block) (reaching_defs : list (gset string))
    : list (gset string) :=
  match fuel with
  | 0 => reaching_defs
  | S f =>
      let '(reaching_defs, changed) := one_pass bs reaching_defs in
      if changed then while_changed f bs reaching_defs else reaching_defs
  end.

Definition compute_data_flow_complexity (ast_root : node) : nat * list block :=
  let analyzer := add_block (visit ast_root init) in
  let bs := blocks analyzer in
  match bs with
  | [] => (0, bs)
  | _ :: _ =>
      let reaching_defs := while_changed 2 bs (List.map (fun _ => ∅) bs) in
      (list_sum (List.map size reaching_defs), bs)
  end.

(** What the outside world does for one file: reading it, [parser.parse] on
    a text, [pycparser.parse_file] through cpp, and [subprocess.run] of cpp
    with its return code and output.  None stands for a raised exception. *)
Record file_env : Type := {
  read_text : option text;
  parse : text -> option node;
  parse_file : option node;
  run_cpp : option (Z * text)
}.

(** [analyze_file]: each tier is a try block whose handler falls through to
    the next; building the parser object, before the first tier, is taken
    to succeed. *)
Definition analyze_file (env : file_env) : nat * list block :=
  let tier3 :=
    match run_cpp env with
    | Some (returncode, stdout) =>
        if (returncode =? 0)%Z && negb (List.length stdout =? 0) then
          match parse env stdout with
          | Some ast => compute_data_flow_complexity ast
          | None => (0, [])
          end
        else (0, [])
    | None => (0, [])
    end in
  let tier2 :=
    match parse_file env with
    | Some ast =>
        let '(dfc, blocks) := compute_data_flow_complexity ast in
        match blocks with
        | _ :: _ => (dfc, blocks)
        | [] => tier3
        end
    | None => tier3
    end in
  match read_text env with
  | Some code =>
      match parse env code with
      | Some ast =>
          let '(dfc, blocks) := compute_data_flow_complexity ast in
          match blocks with
          | _ :: _ => (dfc, blocks)
          | [] => tier2
          end
      | None => tier2
      end
  | None => tier2
  end.

Record dir_file : Type := { df_name : text; df_env : file_env }.

Record dfc_metrics : Type := { dfc : nat; files : nat; blocks_total : nat }.

Definition selected (extensions : list text) (ignore : option (list regex)) (f : dir_file) : bool :=
  existsb (CC.endswith (df_name f)) extensions
  && negb (match ignore with
           | Some (pat :: pats) => existsb (fun pat => CC.re_match pat (df_name f)) (pat :: pats)
           | Some [] | None => false
           end).

(** [analyze_directory]: [listing] is None when the directory does not
    exist, else the files of the walk in order. *)
Definition analyze_directory (directory : text) (listing : option (list dir_file))
    (extensions : list text) (ignore : option (list regex)) : CC.outcome dfc_metrics :=
  match listing with
  | None => CC.FileNotFoundError directory
  | Some fs =>
      CC.Returned
        (fold_left (fun acc f =>
           if selected extensions ignore f then
             let '(d, bs) := analyze_file (df_env f) in
             {| dfc := dfc acc + d; files := files acc + 1;
                blocks_total := blocks_total acc + List.length bs |}
           else acc) fs {| dfc := 0; files := 0; blocks_total := 0 |})
  end.

End Dfc.

(* ===================================================================== *)
(** * dfc_pycparser_backup.py: the analyzer with locally exposed variables *)
(* ===================================================================== *)

Module DfcBackup.

Record block : Type := { defs : gset string; uses : gset string; exposed : gset string }.

Record DataFlowAnalyzer : Type := { blocks : list block; current_block : block }.

Definition empty_block : block := {| defs := ∅; uses := ∅; exposed := ∅ |}.

Definition init : DataFlowAnalyzer := {| blocks := []; current_block := empty_block |}.

Definition add_block (a : DataFlowAnalyzer) : DataFlowAnalyzer :=
  let b := current_block a in
  if decide (defs b = ∅ /\ uses b = ∅)
  then {| blocks := blocks a; current_block := empty_block |}
  else {| blocks := blocks a ++ [ {| defs := defs b; uses := uses b;
                                     exposed := uses b ∖ defs b |} ];
          current_block := empty_block |}.

Definition add_def (x : string) (a : DataFlowAnalyzer) : DataFlowAnalyzer :=
  {| blocks := blocks a;
     current_block := {| defs := defs (current_block a) ∪ {[x]};
                         uses := uses (current_block a);
                         exposed := exposed (current_block a) |} |}.

(** A name is recorded as a use only if the block has not defined it yet. *)
Definition visit_ID (name : string) (a : DataFlowAnalyzer) : DataFlowAnalyzer :=
  if decide (name ∈ defs (current_block a)) then a
  else {| blocks := blocks a;
          current_block := {| defs := defs (current_block a);
                              uses := uses (current_block a) ∪ {[name]};
                              exposed := exposed (current_block a) |} |}.

Fixpoint visit (n : node) (a : DataFlowAnalyzer) {struct n} : DataFlowAnalyzer :=
  let visit_opt (o : option node) (a : DataFlowAnalyzer) :=
    match o with
    | Some c => visit c a
    | None => a
    end in
  match n with
  | ID name => visit_ID name a
  | Assignment lvalue rvalue =>
      let a := visit_opt rvalue a in
      match lvalue with
      | ID name => add_def name a
      | _ => a
      end
  | If cond iftrue iffalse =>
      let a := visit_opt cond a in
      let a := add_block a in
      let a := match iftrue with
               | Some c => add_block (visit c a)
               | None => a
               end in
      match iffalse with
      | Some c => add_block (visit c a)
      | None => a
      end
  | While cond stmt =>
      let a := visit_opt cond a in
      let a := add_block a in
      let a := visit_opt stmt a in
      add_block a
  | For init cond next stmt =>
      let a := visit_opt init a in
      let a := visit_opt cond a in
      let a := visit_opt next a in
      let a := add_block a in
      let a := visit_opt stmt a in
      add_block a
  | Other children =>
      (fix visit_all (cs : list node) (a : DataFlowAnalyzer) : DataFlowAnalyzer :=
         match cs with
         | [] => a
         | c :: cs' => visit_all cs' (visit c a)
         end) children a
  end.

Definition visit_Assignment (lvalue : node) (rvalue : option node)
    (a : DataFlowAnalyzer) : DataFlowAnalyzer :=
  visit (Assignment lvalue rvalue) a.

End DfcBackup.

(* ===================================================================== *)
(** * dfc_lizard.py: Strategy B *)
(* ===================================================================== *)

Module DfcLizard.

(** The two fields of lizard's function record that the estimate reads. *)
Record FunctionInfo : Type := {
  parameter_count : Z;
  cyclomatic_complexity : Z
}.

Definition estimate_dfc_from_function (func_info : FunctionInfo) : Z :=
  let param_flow := parameter_count func_info in
  let control_flow := Z.max 0 (cyclomatic_complexity func_info - 1) in
  let dfc := (param_flow * control_flow + control_flow)%Z in
  dfc.

End DfcLizard.

(* ===================================================================== *)
(** * halstead.py: files and directories *)
(* ===================================================================== *)

Module HalsteadFiles.

Import Halstead.

(** A file of the walk: its name, and what opening and reading it give,
    None when that raises.  The file is read with errors="ignore", so
    decoding itself never raises. *)
Record dir_file : Type := { hf_name : text; hf_read : option text }.

Definition selected (extensions : list text) (ignore : option (list regex)) (f : dir_file)
    : bool :=
  existsb (CC.endswith (hf_name f)) extensions
  && negb (match ignore with
           | Some (pat :: pats) => existsb (fun pat => CC.re_match pat (hf_name f)) (pat :: pats)
           | Some [] | None => false
           end).

Section Files.

Variable log2 : float -> float.

(** [analyze_file]: nothing catches what opening the file raises. *)
Definition analyze_file (content : option text) : option halstead :=
  match content with
  | Some code =>
      let '(ops, oprs) := tokenize_source code in
      Some (compute_halstead log2 ops oprs)
  | None => None
  end.

(** The body of the loop of [analyze_directory]: a file that is not
    selected, or whose reading raises, is passed over. *)
Definition collect (extensions : list text) (ignore : option (list regex))
    (acc : list text * list text) (f : dir_file) : list text * list text :=
  let '(all_ops, all_oprs) := acc in
  if selected extensions ignore f then
    match hf_read f with
    | Some code =>
        let '(ops, oprs) := tokenize_source code in
        (all_ops ++ ops, all_oprs ++ oprs)
    | None => (all_ops, all_oprs)
    end
  else (all_ops, all_oprs).

(** [analyze_directory]: [listing] is None when the directory does not
    exist. *)
Definition analyze_directory (directory : text) (listing : option (list dir_file))
    (extensions : list text) (ignore : option (list regex)) : CC.outcome halstead :=
  match listing with
  | None => CC.FileNotFoundError directory
  | Some fs =>
      let '(all_ops, all_oprs) := fold_left (collect extensions ignore) fs ([], []) in
      CC.Returned (compute_halstead log2 all_ops all_oprs)
  end.

End Files.

End HalsteadFiles.

(* ===================================================================== *)
(** * dfc.py: the project *)
(* ===================================================================== *)

Module DfcProject.

Import Dfc.

(** What [self.src] names: a file, with what analysing it meets, or
    anything else, with the listing of the walk if it exists. *)
Inductive src : Type :=
| SrcFile : file_env -> src
| SrcOther : option (list dir_file) -> src.

(** [Project.get_dfc_metrics] *)
Definition get_dfc_metrics (path : text) (s : src) (src_file_extensions : list text)
    (ignore : option (list regex)) : CC.outcome dfc_metrics :=
  match s with
  | SrcFile env =>
      let '(d, bs) := analyze_file env in
      CC.Returned {| dfc := d; files := 1; blocks_total := List.length bs |}
  | SrcOther listing => analyze_directory path listing src_file_extensions ignore
  end.

End DfcProject.

(* ===================================================================== *)
(** * dfc_lizard.py: files, directories and the project *)
(* ===================================================================== *)

Module DfcLizardFiles.

Import DfcLizard.

(** [analyze_file]: [analysis] is the function list [lizard.analyze_file]
    gives, None when it raises. *)
Definition analyze_file (analysis : option (list FunctionInfo)) : Z * nat :=
  match analysis with
  | Some function_list =>
      fold_left (fun '(total_dfc, func_count) func =>
                   ((total_dfc + estimate_dfc_from_function func)%Z, func_count + 1))
                function_list (0%Z, 0)
  | None => (0%Z, 0)
  end.

Record dir_file : Type := { lf_name : text; lf_analysis : option (list FunctionInfo) }.

Record lizard_metrics : Type := { dfc : Z; files : nat; functions : nat }.

Definition selected (extensions : list text) (ignore : option (list regex)) (f : dir_file)
    : bool :=
  existsb (CC.endswith (lf_name f)) extensions
  && negb (match ignore with
           | Some (pat :: pats) => existsb (fun pat => CC.re_match pat (lf_name f)) (pat :: pats)
           | Some [] | None => false
           end).

(** [analyze_directory]: [listing] is None when the directory does not
    exist. *)
Definition analyze_directory (directory : text) (listing : option (list dir_file))
    (extensions : list text) (ignore : option (list regex)) : CC.outcome lizard_metrics :=
  match listing with
  | None => CC.FileNotFoundError directory
  | Some fs =>
      CC.Returned
        (fold_left (fun acc f =>
           if selected extensions ignore f then
             let '(d, funcs) := analyze_file (lf_analysis f) in
             {| dfc := dfc acc + d; files := files acc + 1;
                functions := functions acc + funcs |}
           else acc) fs {| dfc := 0; files := 0; functions := 0 |})
  end.

(** What [self.src] names: a file, with lizard's analysis of it, or
    anything else, with the listing of the walk if it exists. *)
Inductive src : Type :=
| SrcFile : option (list FunctionInfo) -> src
| SrcOther : option (list dir_file) -> src.

(** [Project.get_dfc_metrics] *)
Definition get_dfc_metrics (path : text) (s : src) (src_file_extensions : list text)
    (ignore : option (list regex)) : CC.outcome lizard_metrics :=
  match s with
  | SrcFile analysis =>
      let '(d, funcs) := analyze_file analysis in
      CC.Returned {| dfc := d; files := 1; functions := funcs |}
  | SrcOther listing => analyze_directory path listing src_file_extensions ignore
  end.

End DfcLizardFiles.

(* ===================================================================== *)
(** * dfc_pycparser_backup.py: reaching definitions of exposed names *)
(* ===================================================================== *)

Module DfcBackupFlow.

Import DfcBackup.

(** The lists [reaching_in] and [reaching_out] of pairs (var, blk), and the
    flag of the while loop. *)
Record flow : Type := {
  reaching_in : list (gset (string * nat));
  reaching_out : list (gset (string * nat));
  changed : bool
}.

(** One run of the for loop inside [while changed]: the only predecessor of
    block [i] in the graph 0 -> 1 -> ... is block [i - 1]. *)
Definition pass_step (bs : list block) (st : flow) (i : nat) : flow :=
  let new_in : gset (string * nat) :=
    match i with
    | 0 => ∅
    | S pred => default ∅ (reaching_out st !! pred)
    end in
  let block_defs : gset string := default ∅ (defs <$> bs !! i) in
  let generated : gset (string * nat) := set_map (fun var => (var, i)) block_defs in
  let killed_vars := block_defs in
  let surviving : gset (string * nat) := filter (fun d => d.1 ∉ killed_vars) new_in in
  let new_out := surviving ∪ generated in
  if decide (new_in <> default ∅ (reaching_in st !! i)
             \/ new_out <> default ∅ (reaching_out st !! i))
  then {| reaching_in := <[i := new_in]> (reaching_in st);
          reaching_out := <[i := new_out]> (reaching_out st);
          changed := true |}
  else st.

Definition one_pass (bs : list block) (r_in r_out : list (gset (string * nat))) : flow :=
  fold_left (pass_step bs) (seq 0 (List.length bs))
    {| reaching_in := r_in; reaching_out := r_out; changed := false |}.

(** [while changed]: at most [fuel] passes; two are always enough (see
    [backup_loop_exits]).  The counter [iteration] is never read. *)
Fixpoint while_changed (fuel : nat) (bs : list block)
    (r_in r_out : list (gset (string * nat)))
    : list (gset (string * nat)) * list (gset (string * nat)) :=
  match fuel with
  | 0 => (r_in, r_out)
  | S f =>
      let st := one_pass bs r_in r_out in
      if changed st then while_changed f bs (reaching_in st) (reaching_out st)
      else (reaching_in st, reaching_out st)
  end.

(** The definitions from other blocks that reach block [i] for a name the
    block exposes. *)
Definition reaching_for_exposed (bs : list block) (r_in : list (gset (string * nat)))
    (i : nat) : gset (string * nat) :=
  let exposed_vars := default ∅ (exposed <$> bs !! i) in
  filter (fun d => d.1 ∈ exposed_vars /\ d.2 <> i) (default ∅ (r_in !! i)).

Definition compute_data_flow_complexity (ast_root : node) : nat * list block :=
  let analyzer := add_block (visit ast_root init) in
  let bs := blocks analyzer in
  match bs with
  | [] => (0, bs)
  | _ :: _ =>
      let '(r_in, _) :=
        while_changed 2 bs (List.map (fun _ => ∅) bs) (List.map (fun _ => ∅) bs) in
      let dfc :=
        fold_left (fun dfc i => dfc + size (reaching_for_exposed bs r_in i))
                  (seq 0 (List.length bs)) 0 in
      (dfc, bs)
  end.

End DfcBackupFlow.

(* ===================================================================== *)
(** * The notions the properties are stated with *)
(* ===================================================================== *)

Import CC.

(** The words a pattern can consume, position-independent: [\b] consumes
    nothing.  Every match of the matcher consumes such a word. *)
Inductive lang : regex -> text -> Prop :=
| L_eps : lang Eps []
| L_cls p c : p c = true -> lang (Cls p) [c]
| L_cat r1 r2 w1 w2 : lang r1 w1 -> lang r2 w2 -> lang (Cat r1 r2) (w1 ++ w2)
| L_alt_l r1 r2 w : lang r1 w -> lang (Alt r1 r2) w
| L_alt_r r1 r2 w : lang r2 w -> lang (Alt r1 r2) w
| L_star_nil g r : lang (Star g r) []
| L_star_cons g r w1 w2 : lang r w1 -> lang (Star g r) w2 -> lang (Star g r) (w1 ++ w2)
| L_bnd : lang Bnd [].

(** Whether a pattern can match without consuming anything. *)
Fixpoint nullable (r : regex) : bool :=
  match r with
  | Cls _ => false
  | Cat r1 r2 => nullable r1 && nullable r2
  | Alt r1 r2 => nullable r1 || nullable r2
  | Eps | Star _ _ | Bnd => true
  end.

(** The text a piece stands for, and the newlines a scan's matches hold. *)
Definition piece_text (p : piece) : text :=
  match p with
  | Skip c => [c]
  | Hit _ w => w
  end.

Definition removed_nl (ps : list piece) : nat :=
  list_sum (List.map (fun p => match p with
                               | Skip _ => 0
                               | Hit _ w => count_nl w
                               end) ps).

(** Every character class of the pattern lies within [q]. *)
Fixpoint cls_within (q : ascii -> bool) (r : regex) : Prop :=
  match r with
  | Cls p => forall c, p c = true -> q c = true
  | Cat r1 r2 | Alt r1 r2 => cls_within q r1 /\ cls_within q r2
  | Star _ r1 => cls_within q r1
  | Eps | Bnd => True
  end.

(** The specification's words for what is counted.  A whole-word occurrence
    of [kw] starts at a position where [kw] is a prefix of the rest and
    neither the character before nor the character after is a word
    character; [pre] is the text before the position, reversed. *)
Definition whole_word_at (kw pre s : text) : bool :=
  starts_with kw s && negb (word_here pre) && negb (word_here (skipn (List.length kw) s)).

Fixpoint whole_word_occurrences (kw pre s : text) : nat :=
  match s with
  | [] => 0
  | c :: s' => (if whole_word_at kw pre s then 1 else 0) + whole_word_occurrences kw (c :: pre) s'
  end.

(** The number of characters equal to [c]. *)
Definition char_occurrences (c : ascii) (s : text) : nat :=
  List.length (List.filter (ch_eqb c) s).

(** The occurrences of a substring, counted from left to right, one that
    starts inside the occurrence counted before it being passed over;
    [skip] is the number of characters still covered by that occurrence. *)
Fixpoint substring_occurrences (pat : text) (skip : nat) (s : text) : nat :=
  match s with
  | [] => 0
  | _ :: s' =>
      match skip with
      | S k => substring_occurrences pat k s'
      | 0 => if starts_with pat s
             then S (substring_occurrences pat (List.length pat - 1) s')
             else substring_occurrences pat 0 s'
      end
  end.

(** The positions at which [pat] occurs, overlapping or not. *)
Fixpoint occurrence_positions (pat s : text) : nat :=
  match s with
  | [] => 0
  | _ :: s' => (if starts_with pat s then 1 else 0) + occurrence_positions pat s'
  end.

Definition hit_count (ps : list piece) : nat :=
  List.length (flat_map (fun p => match p with Skip _ => [] | Hit _ w => [w] end) ps).

(** The specification's words for the brace scan: the balance of a text is
    its opening braces minus its closing braces, and the balance returns to
    zero in [s] (the text from the opening brace on) when some non-empty
    prefix of [s] has balance zero. *)
Definition brace_balance (w : text) : Z :=
  fold_right (fun ch b =>
    if ch_eqb ch "{"%char then (b + 1)%Z
    else if ch_eqb ch "}"%char then (b - 1)%Z else b) 0%Z w.

Definition returns_to_zero (s : text) : bool :=
  existsb (fun j => (brace_balance (firstn j s) =? 0)%Z) (seq 1 (List.length s)).

Definition open_brace_text (code : text) (m : nat * nat) : text := skipn (snd m - 1) code.

(** The records a walked file yields: those of [handle_file] when the file
    is selected by extension and not ignored, none when it is not selected,
    when reading it raised, or when it could not be decoded. *)
Definition file_records (p : project) (f : walked_file) : list FunctionRecord :=
  if CC.selected p f then default [] (handle_file (wf_path f) (wf_read f)) else [].

Definition has_records (p : project) (f : walked_file) : bool :=
  match file_records p f with
  | [] => false
  | _ :: _ => true
  end.

Definition sum_cc (rs : list FunctionRecord) : nat := list_sum (List.map cc rs).

(** The records a source that is a single file yields: those of
    [handle_file] on [src] when [src] ends with one of the extensions (the
    ignore patterns are not consulted), none otherwise, when reading it
    raised, or when it could not be decoded. *)
Definition src_records (p : project) (r : read_outcome) : list FunctionRecord :=
  if existsb (endswith (src p)) (src_file_extensions p)
  then default [] (handle_file (src p) r)
  else [].

(** The set leaving a block, given the set entering it, and the sets
    leaving the blocks of a chain. *)
Definition step_out (prev : gset string) (b : Dfc.block) : gset string :=
  (prev ∖ Dfc.defs b) ∪ Dfc.defs b.

Fixpoint chain (prev : gset string) (bs : list Dfc.block) : list (gset string) :=
  match bs with
  | [] => []
  | b :: bs' => step_out prev b :: chain (step_out prev b) bs'
  end.

(** What block [i] computes from the list at hand. *)
Definition new_out (bs : list Dfc.block) (cur : list (gset string)) (i : nat)
    : gset string :=
  step_out (match i with 0 => ∅ | S pred => default ∅ (cur !! pred) end)
           (default Dfc.empty_block (bs !! i)).

(** A parse attempt yields no block: it raised, or the tree it returned has
    no block. *)
Definition no_blocks (o : option node) : Prop :=
  match o with
  | Some ast => (Dfc.compute_data_flow_complexity ast).2 = []
  | None => True
  end.

(** All three tiers are exhausted: the raw parse and the parse through
    [parse_file] yield no block, and the cpp subprocess raises, exits with a
    non-zero code, prints nothing, or prints a text whose parse yields no
    block. *)
Definition exhausted (env : Dfc.file_env) : Prop :=
  no_blocks (Dfc.read_text env ≫= Dfc.parse env)
  /\ no_blocks (Dfc.parse_file env)
  /\ match Dfc.run_cpp env with
     | None => True
     | Some (returncode, stdout) =>
         returncode <> 0%Z \/ stdout = [] \/ no_blocks (Dfc.parse env stdout)
     end.

(** The specification's words: the identifiers referenced in a tree are the
    names of all its ID nodes. *)
Fixpoint ids (n : node) : gset string :=
  let ids_opt (o : option node) : gset string :=
    match o with
    | Some c => ids c
    | None => ∅
    end in
  match n with
  | ID name => {[name]}
  | Assignment lvalue rvalue => ids lvalue ∪ ids_opt rvalue
  | If cond iftrue iffalse => ids_opt cond ∪ ids_opt iftrue ∪ ids_opt iffalse
  | While cond stmt => ids_opt cond ∪ ids_opt stmt
  | For init cond next stmt => ids_opt init ∪ ids_opt cond ∪ ids_opt next ∪ ids_opt stmt
  | Other children =>
      (fix ids_all (cs : list node) : gset string :=
         match cs with
         | [] => ∅
         | c :: cs' => ids c ∪ ids_all cs'
         end) children
  end.

(** An expression in which nothing is assigned: identifiers and nodes left
    to [generic_visit] only. *)
Fixpoint plain (n : node) : bool :=
  match n with
  | ID _ => true
  | Other children =>
      (fix plain_all (cs : list node) : bool :=
         match cs with
         | [] => true
         | c :: cs' => plain c && plain_all cs'
         end) children
  | Assignment _ _ | If _ _ _ | While _ _ | For _ _ _ _ => false
  end.

(** The name an assignment defines: its target when that is a simple name. *)
Definition target (lvalue : node) : gset string :=
  match lvalue with
  | ID name => {[name]}
  | _ => ∅
  end.

(** The words of [r] all begin with a character of the class [q]. *)
Definition begins_with (q : ascii -> bool) (r : regex) : Prop :=
  forall w, lang r w -> exists c w', w = c :: w' /\ q c = true.

(** The characters that open a comment or a literal. *)
Definition is_opener (c : ascii) : bool :=
  ch_eqb c "/"%char || ch_eqb c ch_dquote || ch_eqb c ch_squote.

Definition is_slash (c : ascii) : bool := ch_eqb c "/"%char.

(** The matches of a scan, as [finditer] gives them. *)
Definition spans (ps : list piece) : list (nat * nat) :=
  flat_map (fun p => match p with
                     | Skip _ => []
                     | Hit i w => [(i, i + List.length w)]
                     end) ps.

(** No two slashes stand side by side in [s]. *)
Definition no_slash_pair (s : text) : Prop := occurrence_positions (txt "//") s = 0.

(** The text an operator pattern matches: the pattern without the
    backslashes that escape its characters. *)
Fixpoint operator_text (p : text) : text :=
  match p with
  | [] => []
  | c :: p' =>
      if ch_eqb c ch_bslash then
        match p' with
        | c' :: p'' => c' :: operator_text p''
        | [] => []
        end
      else c :: operator_text p'
  end.

(** The number of distinct tokens of a list. *)
Definition distinct (l : list text) : nat := List.length (remove_dups l).

(** The tokens a file of the walk contributes, and its metrics on its own;
    nothing and all zero for a file that is passed over. *)
Definition file_tokens (extensions : list text) (ignore : option (list regex))
    (f : HalsteadFiles.dir_file) : list text * list text :=
  if HalsteadFiles.selected extensions ignore f then
    match HalsteadFiles.hf_read f with
    | Some code => Halstead.tokenize_source code
    | None => ([], [])
    end
  else ([], []).

(** A block that records a definition or a use. *)
Definition records_something (b : Dfc.block) : Prop :=
  Dfc.defs b <> ∅ \/ Dfc.uses b <> ∅.

(** The names defined in the first [n] blocks. *)
Definition defined_within (n : nat) (bs : list Dfc.block) : gset string :=
  ⋃ (Dfc.defs <$> take n bs).

(** The analyzer [a'] has the blocks of [a] and, after them, blocks that
    record something. *)
Definition grows (a a' : Dfc.DataFlowAnalyzer) : Prop :=
  exists new, Dfc.blocks a' = Dfc.blocks a ++ new /\ Forall records_something new.

(** The backup's reaching definitions along the chain of blocks: what
    leaves block [i] given what enters it, and the sets entering and
    leaving the blocks of a chain that starts at index [i]. *)
Definition backup_step (i : nat) (prev : gset (string * nat)) (b : DfcBackup.block)
    : gset (string * nat) :=
  filter (fun d => d.1 ∉ DfcBackup.defs b) prev
  ∪ set_map (fun var => (var, i)) (DfcBackup.defs b).

Fixpoint backup_outs (i : nat) (prev : gset (string * nat)) (bs : list DfcBackup.block)
    : list (gset (string * nat)) :=
  match bs with
  | [] => []
  | b :: bs' => backup_step i prev b :: backup_outs (S i) (backup_step i prev b) bs'
  end.

Fixpoint backup_ins (i : nat) (prev : gset (string * nat)) (bs : list DfcBackup.block)
    : list (gset (string * nat)) :=
  match bs with
  | [] => []
  | b :: bs' => prev :: backup_ins (S i) (backup_step i prev b) bs'
  end.

(** The names defined in the blocks before block [n]. *)
Definition defined_before (n : nat) (bs : list DfcBackup.block) : gset string :=
  ⋃ (DfcBackup.defs <$> take n bs).

(** Every definition of [X] comes from a block before [k], and no name has
    two. *)
Definition one_def_each (k : nat) (X : gset (string * nat)) : Prop :=
  (forall v j, (v, j) ∈ X -> j < k)
  /\ (forall v j j', (v, j) ∈ X -> (v, j') ∈ X -> j = j').

(** A block of the backup as [add_block] leaves it. *)
Definition finished (b : DfcBackup.block) : Prop :=
  (DfcBackup.defs b <> ∅ \/ DfcBackup.uses b <> ∅)
  /\ DfcBackup.exposed b = DfcBackup.uses b ∖ DfcBackup.defs b.

(** The analyzer [a'] has the blocks of [a] and, after them, finished
    blocks. *)
Definition bgrows (a a' : DfcBackup.DataFlowAnalyzer) : Prop :=
  exists new, DfcBackup.blocks a' = DfcBackup.blocks a ++ new /\ Forall finished new.

(** The specification's words for the choice of files: the name ends with
    one of the extensions, and a pattern consumes a prefix of the name. *)
Definition has_extension (name : text) (extensions : list text) : Prop :=
  exists ext stem, In ext extensions /\ name = stem ++ ext.

Definition consumes_prefix (r : regex) (name : text) : Prop :=
  exists w rest, lang r w /\ name = w ++ rest.

(** No control statement occurs in the tree, as far as the analyzers look:
    the left-hand side of an assignment is never visited. *)
Fixpoint control_free (n : node) : bool :=
  match n with
  | ID _ => true
  | Assignment _ rvalue =>
      match rvalue with
      | Some c => control_free c
      | None => true
      end
  | Other children =>
      (fix all (cs : list node) : bool :=
         match cs with
         | [] => true
         | c :: cs' => control_free c && all cs'
         end) children
  | If _ _ _ | While _ _ | For _ _ _ _ => false
  end.

(** Every right-hand side of an assignment is an expression: no control
    statement occurs in it. *)
Fixpoint rvalues_are_expressions (n : node) : bool :=
  let on_opt (o : option node) : bool :=
    match o with
    | Some c => rvalues_are_expressions c
    | None => true
    end in
  match n with
  | ID _ => true
  | Assignment _ rvalue =>
      match rvalue with
      | Some c => control_free c
      | None => true
      end
  | If cond iftrue iffalse => on_opt cond && on_opt iftrue && on_opt iffalse
  | While cond stmt => on_opt cond && on_opt stmt
  | For init cond next stmt => on_opt init && on_opt cond && on_opt next && on_opt stmt
  | Other children =>
      (fix all (cs : list node) : bool :=
         match cs with
         | [] => true
         | c :: cs' => rvalues_are_expressions c && all cs'
         end) children
  end.

(** A block of dfc.py and a block of the backup that agree: the same
    definitions, and the same uses but for names the block defines, which
    the backup may leave out.  [pending] holds the targets dfc.py has
    recorded already and the backup will record once the right-hand side is
    visited. *)
Definition same_block_upto (pending : gset string) (a : Dfc.block) (b : DfcBackup.block)
    : Prop :=
  Dfc.defs a = DfcBackup.defs b ∪ pending
  /\ DfcBackup.uses b ⊆ Dfc.uses a
  /\ Dfc.uses a ⊆ DfcBackup.uses b ∪ DfcBackup.defs b ∪ pending.

Definition same_block (a : Dfc.block) (b : DfcBackup.block) : Prop :=
  Dfc.defs a = DfcBackup.defs b
  /\ DfcBackup.uses b ⊆ Dfc.uses a
  /\ Dfc.uses a ⊆ DfcBackup.uses b ∪ DfcBackup.defs b
  /\ DfcBackup.exposed b = Dfc.uses a ∖ Dfc.defs a.

Definition same_state_upto (pending : gset string)
    (a : Dfc.DataFlowAnalyzer) (b : DfcBackup.DataFlowAnalyzer) : Prop :=
  Forall2 same_block (Dfc.blocks a) (DfcBackup.blocks b)
  /\ same_block_upto pending (Dfc.current_block a) (DfcBackup.current_block b).

(* ===================================================================== *)
(** * What a match consumes *)
(* ===================================================================== *)

Module ReFacts.

Create HintDb re.
#[local] Hint Constructors lang : re.

Definition consumes {A : Type} (L : text -> Prop)
    (m : text -> text -> (text -> text -> option A) -> option A) : Prop :=
  forall pre s k x, m pre s k = Some x ->
    exists w s', s = w ++ s' /\ L w /\ k (rev w ++ pre) s' = Some x.

Lemma star_loop_consumes {A : Type} (r : regex) (g : bool)
    (body : text -> text -> (text -> text -> option A) -> option A) :
  consumes (lang r) body ->
  forall (k : text -> text -> option A) fuel pre s x,
    star_loop body g k fuel pre s = Some x ->
    exists w s', s = w ++ s' /\ lang (Star g r) w /\ k (rev w ++ pre) s' = Some x.
Proof.
  intros Hbody k fuel. induction fuel as [|f IH]; intros pre s x H.
  - exists [], s. simpl in H. destruct g; simpl in H.
    + split_and!; auto with re.
    + destruct (k pre s) eqn:Ek; [|discriminate]. inversion H; subst.
      split_and!; auto with re.
  - assert (Hagain : forall y,
        body pre s (fun pre' s' =>
          if List.length s' <? List.length s then star_loop body g k f pre' s' else None) = Some y ->
        exists w s', s = w ++ s' /\ lang (Star g r) w /\ k (rev w ++ pre) s' = Some y).
    { intros y Hy. apply Hbody in Hy as (w1 & s1 & -> & Hw1 & Hk).
      destruct (List.length s1 <? List.length (w1 ++ s1)); [|discriminate].
      apply IH in Hk as (w2 & s2 & -> & Hw2 & Hk).
      exists (w1 ++ w2), s2. split_and!.
      - by rewrite <- app_assoc.
      - eauto with re.
      - by rewrite rev_app_distr, <- app_assoc. }
    simpl in H. destruct g.
    + destruct (body pre s _) eqn:Eb.
      * inversion H; subst. by apply Hagain.
      * exists [], s. split_and!; auto with re.
    + destruct (k pre s) eqn:Ek.
      * inversion H; subst. exists [], s. split_and!; auto with re.
      * by apply Hagain.
Qed.

Lemma mt_consumes {A : Type} (r : regex) : consumes (A:=A) (lang r) (mt r).
Proof.
  induction r as [|p|r1 IH1 r2 IH2|r1 IH1 r2 IH2|g r1 IH1|]; intros pre s k x H; simpl in H.
  - exists [], s. split_and!; auto with re.
  - destruct s as [|c s']; [discriminate|]. destruct (p c) eqn:Ep; [|discriminate].
    exists [c], s'. split_and!; auto with re.
  - apply IH1 in H as (w1 & s1 & -> & Hw1 & H).
    apply IH2 in H as (w2 & s2 & -> & Hw2 & H).
    exists (w1 ++ w2), s2. split_and!.
    + by rewrite <- app_assoc.
    + auto with re.
    + by rewrite rev_app_distr, <- app_assoc.
  - destruct (mt r1 pre s k) eqn:E1.
    + inversion H; subst. apply IH1 in E1 as (w & s' & -> & Hw & Hk).
      exists w, s'. split_and!; auto with re.
    + apply IH2 in H as (w & s' & -> & Hw & Hk).
      exists w, s'. split_and!; auto with re.
  - eapply star_loop_consumes in H; eauto.
  - destruct (at_boundary pre s); [|discriminate].
    exists [], s. split_and!; auto with re.
Qed.

Lemma match_at_consumes r pre s pre' s' :
  match_at r pre s = Some (pre', s') ->
  exists w, s = w ++ s' /\ pre' = rev w ++ pre /\ lang r w.
Proof.
  unfold match_at. intros H. apply mt_consumes in H as (w & s1 & -> & Hw & Hk).
  inversion Hk; subst. eauto.
Qed.

Lemma count_nl_app a b : count_nl (a ++ b) = count_nl a + count_nl b.
Proof. unfold count_nl. by rewrite List.filter_app, List.length_app. Qed.

Lemma count_nl_firstn_le n s : count_nl (firstn n s) <= count_nl s.
Proof.
  rewrite <- (firstn_skipn n s) at 2. rewrite count_nl_app. lia.
Qed.

Lemma count_nl_firstn_mono a b s :
  a <= b -> count_nl (firstn a s) <= count_nl (firstn b s).
Proof.
  intros Hab. replace a with (Nat.min a b) by lia.
  rewrite <- firstn_firstn. apply count_nl_firstn_le.
Qed.

(** A match found by the scan is a word of the pattern, it makes progress,
    and it sits in the scanned text at its start offset. *)
Lemma scan_step r pre s pre' s' :
  match_at r pre s = Some (pre', s') ->
  (List.length s' <? List.length s) = true ->
  exists w, w <> [] /\ s = w ++ s' /\ pre' = rev w ++ pre /\ lang r w /\ firstn (List.length s - List.length s') s = w.
Proof.
  intros Hm Hlt. apply match_at_consumes in Hm as (w & -> & -> & Hw).
  apply Nat.ltb_lt in Hlt. rewrite List.length_app in *.
  exists w. split_and!; auto.
  - intros ->. simpl in Hlt. lia.
  - replace (List.length w + List.length s' - List.length s') with (List.length w + 0) by lia.
    by rewrite firstn_app_2, firstn_O, app_nil_r.
Qed.

Lemma scan_text r : forall fuel pre s,
  List.length s <= fuel -> flat_map piece_text (scan r fuel pre s) = s.
Proof.
  induction fuel as [|f IH]; intros pre s Hlen.
  - destruct s; simpl in *; [done | lia].
  - assert (Hmiss : flat_map piece_text
              (match s with [] => [] | c :: s' => Skip c :: scan r f (c :: pre) s' end) = s).
    { destruct s as [|c s']; [done|]. simpl in *. f_equal. apply IH. lia. }
    simpl. destruct (match_at r pre s) as [[pre' s']|] eqn:Hm; [|done].
    destruct (List.length s' <? List.length s) eqn:Hlt; [|done].
    destruct (scan_step _ _ _ _ _ Hm Hlt) as (w & Hne & Hs & -> & Hw & ->).
    simpl. rewrite IH; [by subst|].
    apply Nat.ltb_lt in Hlt. lia.
Qed.

Lemma scan_hits r : forall fuel pre s i w,
  List.length s <= fuel -> In (Hit i w) (scan r fuel pre s) ->
  lang r w /\ w <> [] /\ List.length pre <= i /\ exists rest, skipn i (rev pre ++ s) = w ++ rest.
Proof.
  induction fuel as [|f IH]; intros pre s i w Hlen Hin; [done|].
  assert (Hmiss : In (Hit i w)
            (match s with [] => [] | c :: s' => Skip c :: scan r f (c :: pre) s' end) ->
          lang r w /\ w <> [] /\ List.length pre <= i /\ exists rest, skipn i (rev pre ++ s) = w ++ rest).
  { destruct s as [|c s']; [done|]. intros [Hc|Hc]; [discriminate|].
    simpl in Hlen. apply IH in Hc as (Hw & Hne & Hi & rest & Hrest); [|lia].
    simpl in Hi, Hrest. rewrite <- app_assoc in Hrest. simpl in Hrest.
    split_and!; eauto; lia. }
  simpl in Hin. destruct (match_at r pre s) as [[pre' s']|] eqn:Hm; [|auto].
  destruct (List.length s' <? List.length s) eqn:Hlt; [|auto].
  destruct (scan_step _ _ _ _ _ Hm Hlt) as (w0 & Hne & Hs & -> & Hw & Hf).
  rewrite Hf in Hin. destruct Hin as [Hh|Ht].
  - inversion Hh; subst. split_and!; auto. exists s'.
    rewrite <- (List.length_rev pre). by rewrite skipn_app, Nat.sub_diag, skipn_all.
  - apply Nat.ltb_lt in Hlt.
    apply IH in Ht as (Hw' & Hne' & Hi & rest & Hrest); [|lia].
    rewrite rev_app_distr, rev_involutive, <- app_assoc, <- Hs in Hrest.
    rewrite List.length_app, List.length_rev in Hi.
    split_and!; eauto; lia.
Qed.

Lemma not_nullable_consumes r w : nullable r = false -> lang r w -> w <> [].
Proof.
  intros Hn Hw. induction Hw; simpl in Hn; try done.
  - intros Hnil. apply app_eq_nil in Hnil as [H1 H2].
    apply andb_false_iff in Hn as [Hn|Hn].
    + by apply (IHHw1 Hn).
    + by apply (IHHw2 Hn).
  - apply orb_false_iff in Hn as [Hn _]. auto.
  - apply orb_false_iff in Hn as [_ Hn]. auto.
Qed.

(** The fuel of the two loops is enough: with more of it the starred group
    and the scan give the same result, so neither ever stops for lack of
    fuel. *)
Definition respects_k {A : Type}
    (m : text -> text -> (text -> text -> option A) -> option A) : Prop :=
  (forall pre s k k', (forall pre' s', k pre' s' = k' pre' s') -> m pre s k = m pre s k')
  /\ (forall pre s, m pre s (fun _ _ => None) = None).

Lemma star_loop_respects_k {A : Type} body g fuel :
  respects_k (A:=A) body ->
  forall k k' pre s, (forall pre' s', k pre' s' = k' pre' s') ->
    star_loop body g k fuel pre s = star_loop body g k' fuel pre s.
Proof.
  intros [Hext _]. induction fuel as [|f IH]; intros k k' pre s Hk.
  - simpl. rewrite (Hk pre s). done.
  - simpl. rewrite (Hk pre s).
    rewrite (Hext pre s _ (fun pre' s' =>
      if List.length s' <? List.length s then star_loop body g k' f pre' s' else None)).
    + done.
    + intros pre' s'. destruct (List.length s' <? List.length s); [|done]. by apply IH.
Qed.

Lemma star_loop_fails {A : Type} body g fuel :
  respects_k (A:=A) body ->
  forall pre s, star_loop body g (fun _ _ => None) fuel pre s = None.
Proof.
  intros [Hext Hfail]. induction fuel as [|f IH]; intros pre s.
  - simpl. by destruct g.
  - simpl.
    rewrite (Hext pre s _ (fun _ _ => None)).
    + rewrite Hfail. by destruct g.
    + intros pre' s'. destruct (List.length s' <? List.length s); [|done]. apply IH.
Qed.

Lemma mt_respects_k {A : Type} (r : regex) : respects_k (A:=A) (mt r).
Proof.
  induction r as [|p|r1 IH1 r2 IH2|r1 IH1 r2 IH2|g r1 IH1|]; split; simpl.
  - intros pre s k k' Hk. apply Hk.
  - done.
  - intros pre s k k' Hk. destruct s as [|c s]; [done|]. destruct (p c); [apply Hk|done].
  - intros pre s. destruct s as [|c s]; [done|]. by destruct (p c).
  - intros pre s k k' Hk. apply IH1. intros pre' s'. by apply IH2.
  - intros pre s. destruct IH1 as [Hext1 Hfail1]. destruct IH2 as [_ Hfail2].
    rewrite (Hext1 pre s _ (fun _ _ => None)); [apply Hfail1|]. intros. apply Hfail2.
  - intros pre s k k' Hk. destruct IH1 as [Hext1 _]. destruct IH2 as [Hext2 _].
    by rewrite (Hext1 pre s k k' Hk), (Hext2 pre s k k' Hk).
  - intros pre s. destruct IH1 as [_ Hfail1]. destruct IH2 as [_ Hfail2].
    by rewrite Hfail1, Hfail2.
  - intros pre s k k' Hk. by apply star_loop_respects_k.
  - intros pre s. by apply star_loop_fails.
  - intros pre s k k' Hk. destruct (at_boundary pre s); [apply Hk|done].
  - intros pre s. by destruct (at_boundary pre s).
Qed.

Lemma star_loop_fuel {A : Type} body g (k : text -> text -> option A) n :
  respects_k body ->
  forall fuel pre s, List.length s <= fuel ->
    star_loop body g k (fuel + n) pre s = star_loop body g k fuel pre s.
Proof.
  intros Hb. pose proof Hb as [Hext Hfail].
  induction fuel as [|f IH]; intros pre s Hlen.
  - destruct s; [|simpl in Hlen; lia]. destruct n as [|n]; [done|]. simpl.
    by rewrite Hfail.
  - simpl.
    rewrite (Hext pre s _ (fun pre' s' =>
      if List.length s' <? List.length s then star_loop body g k f pre' s' else None)).
    + done.
    + intros pre' s'. destruct (List.length s' <? List.length s) eqn:Hlt; [|done].
      apply Nat.ltb_lt in Hlt. apply IH. lia.
Qed.

Lemma star_fuel_enough {A : Type} g r (k : text -> text -> option A) n pre s :
  star_loop (fun pre' s' k' => mt r pre' s' k') g k (List.length s + n) pre s
  = mt (Star g r) pre s k.
Proof.
  simpl. apply star_loop_fuel; [|done].
  destruct (mt_respects_k (A:=A) r) as [Hext Hfail]. split.
  - intros. by apply Hext.
  - intros. apply Hfail.
Qed.

Lemma scan_fuel_enough r n : forall fuel pre s,
  List.length s <= fuel -> scan r (fuel + n) pre s = scan r fuel pre s.
Proof.
  induction fuel as [|f IH]; intros pre s Hlen.
  - destruct s; [|simpl in Hlen; lia]. destruct n as [|n]; [done|]. simpl.
    destruct (match_at r pre []) as [[pre' s']|]; [|done].
    by destruct (List.length s' <? 0) eqn:Hlt.
  - simpl. destruct (match_at r pre s) as [[pre' s']|] eqn:Hm.
    + destruct (List.length s' <? List.length s) eqn:Hlt.
      * apply Nat.ltb_lt in Hlt. rewrite IH by lia. done.
      * destruct s as [|c s]; [done|]. simpl in Hlen. rewrite IH by lia. done.
    + destruct s as [|c s]; [done|]. simpl in Hlen. rewrite IH by lia. done.
Qed.

(** A replacement without newlines removes exactly the newlines inside the
    matches it replaces. *)
Lemma sub_pieces_newlines repl ps :
  count_nl repl = 0 ->
  count_nl (sub_pieces repl ps) + removed_nl ps = count_nl (flat_map piece_text ps).
Proof.
  intros Hrepl. induction ps as [|[c|i w] ps IH]; [done| |].
  - unfold sub_pieces, removed_nl in *. simpl.
    change (c :: ?l) with ([c] ++ l). rewrite !count_nl_app. lia.
  - unfold sub_pieces, removed_nl in *. simpl. rewrite !count_nl_app. lia.
Qed.

Lemma sub_newlines r repl s :
  count_nl repl = 0 ->
  count_nl (sub r repl s) + removed_nl (pieces r s) = count_nl s.
Proof.
  intros Hrepl. unfold sub. rewrite sub_pieces_newlines by done.
  unfold pieces. by rewrite scan_text.
Qed.

Lemma lang_within q r w : cls_within q r -> lang r w -> forallb q w = true.
Proof.
  intros Hq Hw. induction Hw; simpl in *; try done.
  - by rewrite (Hq c).
  - destruct Hq. rewrite forallb_app. rewrite IHHw1, IHHw2; auto.
  - destruct Hq. auto.
  - destruct Hq. auto.
  - rewrite forallb_app. rewrite IHHw1, IHHw2; auto.
Qed.

Lemma count_nl_dot w : forallb dot w = true -> count_nl w = 0.
Proof.
  unfold count_nl, dot. induction w as [|c w IH]; [done|]. simpl.
  destruct (ch_eqb c ch_nl); simpl; [done | auto].
Qed.

Lemma removed_nl_none r s :
  (forall w, lang r w -> count_nl w = 0) -> removed_nl (pieces r s) = 0.
Proof.
  intros Hr. unfold pieces.
  assert (H : forall p, In p (scan r (List.length s) [] s) ->
             match p with Skip _ => 0 | Hit _ w => count_nl w end = 0).
  { intros [c|i w] Hin; [done|]. apply scan_hits in Hin as (Hw & _); auto. }
  revert H. unfold removed_nl. generalize (scan r (List.length s) [] s).
  induction l as [|p l IH]; intros H; [done|]. simpl.
  rewrite (H p) by (by left). apply IH. intros q Hq. apply H. by right.
Qed.

Lemma cls_within_chr (q : ascii -> bool) c : q c = true -> cls_within q (chr c).
Proof.
  intros Hq x Hx. unfold ch_eqb in Hx. apply Ascii.eqb_eq in Hx. by subst.
Qed.

Lemma line_comment_no_newline w : lang line_comment_re w -> count_nl w = 0.
Proof.
  intros Hw. apply count_nl_dot. eapply lang_within; [|exact Hw].
  unfold line_comment_re. cbn [cats cls_within].
  split_and!; [by apply cls_within_chr .. | done].
Qed.

End ReFacts.

Import ReFacts.

(* ===================================================================== *)
(** * The lexical strippers and the line count *)
(* ===================================================================== *)

Lemma sub_newlines_le r repl s :
  count_nl repl = 0 -> count_nl (sub r repl s) <= count_nl s.
Proof. intros H. pose proof (sub_newlines r repl s H). lia. Qed.

Lemma sub_line_comment_newlines s : count_nl (sub line_comment_re [] s) = count_nl s.
Proof.
  pose proof (sub_newlines line_comment_re [] s eq_refl) as H.
  rewrite (removed_nl_none line_comment_re s line_comment_no_newline) in H. lia.
Qed.

(** A block comment that spans two lines is replaced by the empty string,
    and the newline inside it goes with it, in cc.py as in halstead.py; so
    does a newline inside a string literal. *)
Lemma strip_loses_newline :
  let code := txt "a /*" ++ [ch_nl] ++ txt "*/ b" in
  let lit := [ch_dquote; ch_nl; ch_dquote] in
  count_nl code = 1
  /\ count_nl (_strip_comments_and_strings code) = 0
  /\ count_nl (strip_comments_and_strings code) = 0
  /\ count_nl lit = 1
  /\ _strip_comments_and_strings lit = [ch_dquote; ch_dquote]
  /\ strip_comments_and_strings lit = [].
Proof. vm_compute. done. Qed.

(** What does hold of the newlines: neither stripper ever introduces one,
    so the stripped text has at most as many newlines as the source;
    removing the line comments leaves the count unchanged; and each of the
    other passes removes exactly the newlines that lie inside the comments
    and literals it replaces. *)
Theorem strip_never_adds_newline (code : text) :
  count_nl (_strip_comments_and_strings code) <= count_nl code
  /\ count_nl (strip_comments_and_strings code) <= count_nl code
  /\ count_nl (sub line_comment_re [] code) = count_nl code
  /\ count_nl (sub block_comment_re [] code)
       + removed_nl (pieces block_comment_re code) = count_nl code
  /\ (forall any q,
        count_nl (sub (quoted_re any q) [] code)
          + removed_nl (pieces (quoted_re any q) code) = count_nl code)
  /\ count_nl (sub (quoted_re dot_all ch_dquote) [ch_dquote; ch_dquote] code)
       + removed_nl (pieces (quoted_re dot_all ch_dquote) code) = count_nl code
  /\ count_nl (sub (quoted_re dot_all ch_squote) [ch_squote; ch_squote] code)
       + removed_nl (pieces (quoted_re dot_all ch_squote) code) = count_nl code.
Proof.
  split_and!.
  - unfold _strip_comments_and_strings.
    etrans; [apply sub_newlines_le; done|].
    etrans; [apply sub_newlines_le; done|].
    etrans; [apply sub_newlines_le; done|].
    apply sub_newlines_le; done.
  - unfold strip_comments_and_strings.
    etrans; [apply sub_newlines_le; done|].
    etrans; [apply sub_newlines_le; done|].
    etrans; [apply sub_newlines_le; done|].
    apply sub_newlines_le; done.
  - apply sub_line_comment_newlines.
  - by apply sub_newlines.
  - intros any q. by apply sub_newlines.
  - by apply sub_newlines.
  - by apply sub_newlines.
Qed.

(** C1 fails in the code, and cc.py reports wrong lines for it: it counts
    the lines of a record on the stripped text.  A file opens with a block
    comment of two lines, so that the function after it stands on lines 3
    to 5 (alone in a file it is reported on lines 1 to 3); both strippers
    return 4 newlines for the 5 of the file, and [find_functions_in_file]
    reports the function on lines 2 to 4. *)
Theorem block_comment_shifts_reported_lines (path : text) :
  let comment := txt "/* a" ++ [ch_nl] ++ txt " b */" ++ [ch_nl] in
  let function := txt "int f(int x){" ++ [ch_nl] ++ txt " return x;" ++ [ch_nl]
                  ++ txt "}" ++ [ch_nl] in
  let file := comment ++ function in
  count_nl comment = 2
  /\ count_nl file = 5
  /\ count_nl (_strip_comments_and_strings file) = 4
  /\ count_nl (strip_comments_and_strings file) = 4
  /\ find_functions_in_file path (Some function)
     = [ {| filename := path; function_start := 1; function_end := 3; cc := 1 |} ]
  /\ find_functions_in_file path (Some file)
     = [ {| filename := path; function_start := 2; function_end := 4; cc := 1 |} ].
Proof. by vm_compute. Qed.

(* ===================================================================== *)
(** * The decision-point counter *)
(* ===================================================================== *)

Lemma starts_with_split p : forall s,
  starts_with p s = true -> s = p ++ skipn (List.length p) s.
Proof.
  induction p as [|a p IH]; intros [|b s] H; simpl in *; try done.
  apply andb_true_iff in H as [Hab H]. unfold ch_eqb in Hab.
  apply Ascii.eqb_eq in Hab. subst. f_equal. auto.
Qed.

Lemma mt_lit {A : Type} (w : text) : forall pre s (k : text -> text -> option A),
  mt (lit w) pre s k =
  if starts_with w s then k (rev w ++ pre) (skipn (List.length w) s) else None.
Proof.
  induction w as [|c w IH]; intros pre s k; [done|].
  destruct s as [|b s]; [done|]. cbn [lit mt chr starts_with].
  destruct (ch_eqb c b) eqn:Hcb; [|done]. simpl.
  unfold ch_eqb in Hcb. apply Ascii.eqb_eq in Hcb. subst.
  rewrite IH. by rewrite <- app_assoc.
Qed.

Lemma word_here_rev_app w pre :
  w <> [] -> forallb is_word w = true -> word_here (rev w ++ pre) = true.
Proof.
  intros Hne Hw. destruct (rev w) as [|c r] eqn:Hr.
  - apply (f_equal (@rev ascii)) in Hr. rewrite rev_involutive in Hr. done.
  - simpl. rewrite forallb_forall in Hw. apply Hw.
    apply in_rev. rewrite Hr. by left.
Qed.

Lemma match_keyword kw pre s :
  kw <> [] -> forallb is_word kw = true ->
  match_at (keyword_re kw) pre s =
  if whole_word_at kw pre s
  then Some (rev kw ++ pre, skipn (List.length kw) s) else None.
Proof.
  intros Hne Hw. unfold match_at, keyword_re, whole_word_at. cbn [cats mt].
  rewrite mt_lit. unfold at_boundary.
  destruct (starts_with kw s) eqn:Hs.
  - rewrite (word_here_rev_app kw pre Hne Hw).
    assert (Hhd : word_here s = true).
    { apply starts_with_split in Hs. rewrite Hs.
      destruct kw as [|c kw]; [done|]. simpl in *.
      by apply andb_true_iff in Hw as [? _]. }
    rewrite Hhd. destruct (word_here pre); simpl; [done|].
    by destruct (word_here (skipn (List.length kw) s)).
  - simpl. by destruct (xorb (word_here pre) (word_here s)).
Qed.

Lemma occurrences_skip_word kw w : forall pre rest,
  word_here pre = true -> forallb is_word w = true ->
  whole_word_occurrences kw pre (w ++ rest) = whole_word_occurrences kw (rev w ++ pre) rest.
Proof.
  induction w as [|c w IH]; intros pre rest Hpre Hw; [done|].
  simpl in Hw. apply andb_true_iff in Hw as [Hc Hw].
  cbn [app whole_word_occurrences]. unfold whole_word_at at 1.
  rewrite Hpre, andb_false_r. simpl.
  rewrite IH by done. by rewrite <- app_assoc.
Qed.

Lemma scan_keyword kw :
  kw <> [] -> forallb is_word kw = true ->
  forall fuel pre s, List.length s <= fuel ->
    hit_count (scan (keyword_re kw) fuel pre s) = whole_word_occurrences kw pre s.
Proof.
  intros Hne Hw. induction fuel as [|f IH]; intros pre s Hlen.
  - destruct s; simpl in *; [done | lia].
  - cbn [scan]. rewrite match_keyword by done.
    destruct s as [|c s'].
    { unfold whole_word_at. destruct kw; [done|]. done. }
    simpl in Hlen. cbn [whole_word_occurrences].
    destruct (whole_word_at kw pre (c :: s')) eqn:Hat.
    + assert (Hst : starts_with kw (c :: s') = true).
      { unfold whole_word_at in Hat.
        apply andb_true_iff in Hat as [Hat _]. by apply andb_true_iff in Hat as [? _]. }
      destruct kw as [|k0 kw']; [done|].
      cbn [starts_with] in Hst. apply andb_true_iff in Hst as [Hc Hst].
      unfold ch_eqb in Hc. apply Ascii.eqb_eq in Hc. subst c.
      apply starts_with_split in Hst.
      remember (skipn (List.length kw') s') as rest eqn:Hrest. clear Hrest. subst s'.
      simpl in Hw. apply andb_true_iff in Hw as [Hk0 Hkw'].
      cbn [List.length skipn]. rewrite drop_app_length.
      rewrite List.length_app in *.
      replace (List.length rest <? S (List.length kw' + List.length rest)) with true
        by (symmetry; apply Nat.ltb_lt; lia).
      unfold hit_count in *. cbn [flat_map app List.length].
      rewrite IH by lia. f_equal.
      rewrite occurrences_skip_word; [| by simpl | done].
      simpl. by rewrite <- app_assoc.
    + unfold hit_count in *. simpl. apply IH. lia.
Qed.

Lemma findall_keyword kw body :
  kw <> [] -> forallb is_word kw = true ->
  List.length (findall (keyword_re kw) body) = whole_word_occurrences kw [] body.
Proof. intros Hne Hw. by apply (scan_keyword kw Hne Hw). Qed.

Lemma substring_occurrences_skip pat : forall k s,
  substring_occurrences pat k s = substring_occurrences pat 0 (skipn k s).
Proof.
  induction k as [|k IH]; intros s; [done|].
  destruct s as [|c s]; [done|]. simpl. apply IH.
Qed.

Lemma count_from_occurrences pat :
  pat <> [] ->
  forall fuel s, List.length s <= fuel ->
    count_from pat fuel s = substring_occurrences pat 0 s.
Proof.
  intros Hne. induction fuel as [|f IH]; intros s Hlen.
  - destruct s; simpl in *; [done | lia].
  - destruct s as [|c s']; [done|]. simpl in Hlen.
    cbn [count_from substring_occurrences].
    destruct (starts_with pat (c :: s')).
    + f_equal. rewrite substring_occurrences_skip.
      destruct pat as [|p0 pat']; [done|].
      cbn [List.length skipn].
      replace (S (List.length pat') - 1) with (List.length pat') by lia.
      apply IH. rewrite length_skipn. lia.
    + apply IH. lia.
Qed.

Lemma str_count_char c s : str_count [c] s = char_occurrences c s.
Proof.
  unfold str_count. rewrite count_from_occurrences by done.
  unfold char_occurrences. induction s as [|b s IH]; [done|].
  cbn [substring_occurrences starts_with List.filter].
  rewrite andb_true_r. destruct (ch_eqb c b); simpl; by rewrite IH.
Qed.

(** Where no three equal characters stand in a row, the occurrences of a
    doubled character counted from left to right are all its occurrences. *)
Lemma doubled_occurrences c : forall n s,
  List.length s <= n ->
  occurrence_positions [c; c; c] s = 0 ->
  substring_occurrences [c; c] 0 s = occurrence_positions [c; c] s.
Proof.
  induction n as [|n IH]; intros s Hlen Hno.
  - destruct s; [done | simpl in Hlen; lia].
  - destruct s as [|a [|b s]]; [done| |].
    { cbn. by rewrite andb_false_r. }
    simpl in Hlen.
    assert (Htail : occurrence_positions [c; c; c] (b :: s) = 0).
    { cbn [occurrence_positions] in Hno |- *. lia. }
    cbn [substring_occurrences occurrence_positions].
    destruct (starts_with [c; c] (a :: b :: s)) eqn:H2.
    + cbn [starts_with] in H2.
      apply andb_true_iff in H2 as [Ha H2]. apply andb_true_iff in H2 as [Hb _].
      assert (H3 : starts_with [c; c] (b :: s) = false).
      { cbn [occurrence_positions starts_with] in Hno. rewrite Ha, Hb in Hno.
        cbn [starts_with]. rewrite Hb. cbn [andb] in *.
        destruct s as [|d s]; [done|]. cbn [starts_with] in *.
        destruct (ch_eqb c d); [simpl in Hno; lia | done]. }
      cbn [List.length Nat.sub substring_occurrences].
      rewrite H3. cbn [Nat.add]. f_equal. apply IH; [lia|].
      cbn [occurrence_positions] in Htail. lia.
    + exact (IH (b :: s) ltac:(simpl; lia) Htail).
Qed.

(** C2: the counter returns 1 plus the whole-word occurrences of the five
    keywords, the question marks, and the occurrences of the two logical
    operators counted from left to right as [str.count] counts them (all of
    their occurrences, where no three ampersands or bars stand in a row); it
    is at least 1, it is 1 on the empty body, and a keyword that touches a
    word character on either side, as in ifdef, is not an occurrence. *)
Theorem cyclomatic_counts (body : text) :
  cyclomatic body =
    1 + whole_word_occurrences (txt "if") [] body
      + whole_word_occurrences (txt "for") [] body
      + whole_word_occurrences (txt "while") [] body
      + whole_word_occurrences (txt "case") [] body
      + whole_word_occurrences (txt "catch") [] body
      + char_occurrences "?"%char body
      + substring_occurrences (txt "&&") 0 body
      + substring_occurrences (txt "||") 0 body
  /\ 1 <= cyclomatic body
  /\ cyclomatic [] = 1
  /\ cyclomatic (txt "#ifdef X") = 1
  /\ cyclomatic (txt "if (ifdef && x_if) y = iffy ? 1 : 2;") = 4
  /\ (forall kw pre s, word_here pre = true -> whole_word_at kw pre s = false)
  /\ (forall kw pre s, word_here (skipn (List.length kw) s) = true ->
        whole_word_at kw pre s = false)
  /\ (occurrence_positions (txt "&&&") body = 0 ->
      substring_occurrences (txt "&&") 0 body = occurrence_positions (txt "&&") body)
  /\ (occurrence_positions (txt "|||") body = 0 ->
      substring_occurrences (txt "||") 0 body = occurrence_positions (txt "||") body).
Proof.
  split_and!.
  - unfold cyclomatic, decisions.
    rewrite !findall_keyword by done.
    change (txt "?") with ["?"%char]. rewrite str_count_char.
    unfold str_count. rewrite !count_from_occurrences by done. lia.
  - unfold cyclomatic. lia.
  - done.
  - by vm_compute.
  - by vm_compute.
  - intros kw pre s H. unfold whole_word_at. rewrite H. by rewrite andb_false_r.
  - intros kw pre s H. unfold whole_word_at. rewrite H. by rewrite andb_false_r.
  - intros H. by apply (doubled_occurrences "&"%char (List.length body)).
  - intros H. by apply (doubled_occurrences "|"%char (List.length body)).
Qed.

(* ===================================================================== *)
(** * The function-boundary locator *)
(* ===================================================================== *)

Lemma find_close_range : forall s idx b close,
  find_close s idx b = Some close -> idx <= close < idx + List.length s.
Proof.
  induction s as [|ch s IH]; intros idx b close H; [done|].
  simpl in H. destruct (ch_eqb ch "{").
  - apply IH in H. simpl. lia.
  - destruct (ch_eqb ch "}").
    + destruct (b - 1 =? 0)%Z.
      * inversion H; subst. simpl. lia.
      * apply IH in H. simpl. lia.
    + apply IH in H. simpl. lia.
Qed.

Lemma brace_balance_cons ch w :
  brace_balance (ch :: w) =
  ((if ch_eqb ch "{"%char then 1 else if ch_eqb ch "}"%char then -1 else 0)
   + brace_balance w)%Z.
Proof.
  unfold brace_balance. simpl.
  destruct (ch_eqb ch "{"); [lia|]. destruct (ch_eqb ch "}"); lia.
Qed.

(** With a positive balance so far, the loop finds no closing brace exactly
    when no prefix brings the balance to zero. *)
Lemma find_close_none : forall s idx b,
  (1 <= b)%Z ->
  (find_close s idx b = None <->
   forall j, 1 <= j <= List.length s -> (b + brace_balance (firstn j s))%Z <> 0%Z).
Proof.
  induction s as [|ch s IH]; intros idx b Hb.
  - simpl. split; [|done]. intros _ j Hj. lia.
  - assert (Hshift : forall d : Z,
      (forall j, 1 <= j <= List.length s -> (b + d + brace_balance (firstn j s))%Z <> 0%Z) ->
      (b + d)%Z <> 0%Z ->
      (if ch_eqb ch "{"%char then 1 else if ch_eqb ch "}"%char then -1 else 0)%Z = d ->
      forall j, 1 <= j <= List.length (ch :: s) ->
        (b + brace_balance (firstn j (ch :: s)))%Z <> 0%Z).
    { intros d Hall Hd Hch j Hj. destruct j as [|j]; [lia|].
      rewrite firstn_cons, brace_balance_cons, Hch.
      destruct j as [|j].
      - rewrite firstn_O. unfold brace_balance. simpl. lia.
      - specialize (Hall (S j)). simpl in Hj. lia. }
    assert (Hback : forall d : Z,
      (if ch_eqb ch "{"%char then 1 else if ch_eqb ch "}"%char then -1 else 0)%Z = d ->
      (forall j, 1 <= j <= List.length (ch :: s) ->
        (b + brace_balance (firstn j (ch :: s)))%Z <> 0%Z) ->
      (b + d)%Z <> 0%Z /\
      forall j, 1 <= j <= List.length s -> (b + d + brace_balance (firstn j s))%Z <> 0%Z).
    { intros d Hch Hall. split.
      - specialize (Hall 1). rewrite firstn_cons, firstn_O, brace_balance_cons, Hch in Hall.
        unfold brace_balance in Hall. simpl in Hall. lia.
      - intros j Hj. specialize (Hall (S j)).
        rewrite firstn_cons, brace_balance_cons, Hch in Hall. simpl in Hall. lia. }
    simpl find_close. destruct (ch_eqb ch "{") eqn:Ho.
    + rewrite IH by lia. split.
      * intros H. apply (Hshift 1%Z); auto. lia.
      * intros H. by apply (Hback 1%Z) in H as [_ H].
    + destruct (ch_eqb ch "}") eqn:Hc.
      * destruct (b - 1 =? 0)%Z eqn:Hz.
        -- split; [done|]. intros H. apply (Hback (-1)%Z) in H as [H _]; [|done]. lia.
        -- rewrite IH by lia. split.
           ++ intros H. apply (Hshift (-1)%Z); auto. lia.
           ++ intros H. by apply (Hback (-1)%Z) in H as [_ H].
      * rewrite IH by lia. split.
        -- intros H. apply (Hshift 0%Z); auto; [|lia].
           intros j Hj. rewrite Z.add_0_r. auto.
        -- intros H. apply (Hback 0%Z) in H as [_ H]; [|done].
           intros j Hj. specialize (H j Hj). by rewrite Z.add_0_r in H.
Qed.

(** From an opening brace, the loop fails exactly when the balance never
    returns to zero. *)
Lemma find_close_open_brace rest idx :
  find_close ("{"%char :: rest) idx 0 = None <-> returns_to_zero ("{"%char :: rest) = false.
Proof.
  change (find_close ("{"%char :: rest) idx 0) with (find_close rest (S idx) 1).
  rewrite find_close_none by lia. unfold returns_to_zero.
  rewrite <- not_true_iff_false, existsb_exists. split.
  - intros H (j & Hj & Hz). apply in_seq in Hj. apply Z.eqb_eq in Hz.
    destruct j as [|j]; [lia|]. rewrite firstn_cons, brace_balance_cons in Hz.
    change (ch_eqb "{" "{") with true in Hz. simpl in Hj.
    destruct j as [|j].
    + rewrite firstn_O in Hz. unfold brace_balance in Hz. simpl in Hz. lia.
    + apply (H (S j)); [lia|done].
  - intros H j Hj Hz. apply H. exists (S j). split.
    + apply in_seq. simpl. lia.
    + apply Z.eqb_eq. rewrite firstn_cons, brace_balance_cons.
      by change (ch_eqb "{" "{") with true.
Qed.

Lemma lang_cats_last rs : forall r w,
  lang (cats (rs ++ [r])) w -> exists u v, w = u ++ v /\ lang r v.
Proof.
  induction rs as [|x rs IH]; intros r w H.
  - exists [], w. by split.
  - assert (Hc : cats ((x :: rs) ++ [r]) = Cat x (cats (rs ++ [r]))).
    { simpl. by destruct rs. }
    rewrite Hc in H. inversion H as [| |r1 r2 w1 w2 H1 H2| | | | |]; subst.
    apply IH in H2 as (u & v & -> & Hv).
    exists (w1 ++ u), v. split; [by rewrite app_assoc | done].
Qed.

Lemma lang_chr c v : lang (chr c) v -> v = [c].
Proof.
  unfold chr. inversion 1 as [|p c' Hc| | | | | |]; subst.
  unfold ch_eqb in Hc. apply Ascii.eqb_eq in Hc. by subst.
Qed.

Lemma func_pattern_ends_with_brace w :
  lang func_pattern w -> exists u, w = u ++ ["{"%char].
Proof.
  intros H. unfold func_pattern in H.
  match type of H with
  | lang (cats ?l) _ => change l with (removelast l ++ [chr "{"%char]) in H
  end.
  apply lang_cats_last in H as (u & v & -> & Hv).
  apply lang_chr in Hv. subst. by exists u.
Qed.

Lemma finditer_facts r code m :
  In m (finditer r code) ->
  exists w rest, lang r w /\ w <> [] /\ snd m = fst m + List.length w
                 /\ skipn (fst m) code = w ++ rest.
Proof.
  unfold finditer, pieces. rewrite in_flat_map. intros ([c|i w] & Hin & Hm); [done|].
  destruct Hm as [<-|[]]. apply scan_hits in Hin as (Hw & Hne & _ & rest & Hrest); [|done].
  exists w, rest. by split_and!.
Qed.

(** A header match ends with the opening brace, which is where the brace
    scan starts. *)
Lemma header_match code m :
  In m (finditer func_pattern code) ->
  fst m <= snd m - 1 /\ exists rest, open_brace_text code m = "{"%char :: rest.
Proof.
  intros Hin. apply finditer_facts in Hin as (w & rest & Hw & Hne & He & Hskip).
  apply func_pattern_ends_with_brace in Hw as (u & ->).
  rewrite List.length_app in He. simpl in He. split; [lia|].
  exists rest. unfold open_brace_text.
  replace (snd m - 1) with (List.length u + fst m) by lia.
  rewrite <- skipn_skipn, Hskip, <- app_assoc. by rewrite drop_app_length.
Qed.

Lemma record_of_match_balanced path code m :
  In m (finditer func_pattern code) ->
  (returns_to_zero (open_brace_text code m) = false -> record_of_match path code m = [])
  /\ (returns_to_zero (open_brace_text code m) = true ->
      exists r, record_of_match path code m = [r] /\ function_start r <= function_end r).
Proof.
  intros Hin. apply header_match in Hin as (Hle & rest & Hopen).
  unfold record_of_match. fold (open_brace_text code m). rewrite Hopen.
  destruct (find_close_open_brace rest (snd m - 1)) as [Hnone Hsome]. split.
  - intros Hz. by rewrite (Hsome Hz).
  - intros Hz. destruct (find_close _ _ _) as [close|] eqn:Hc.
    + eexists. split; [done|]. simpl.
      apply find_close_range in Hc as [Hc _].
      pose proof (count_nl_firstn_mono (fst m) close code). lia.
    + rewrite Hnone in Hz; done.
Qed.

Lemma flat_map_filter {A B : Type} (f : A -> list B) (p : A -> bool) l :
  (forall x, In x l -> p x = false -> f x = []) ->
  flat_map f l = flat_map f (List.filter p l).
Proof.
  induction l as [|x l IH]; intros H; [done|]. simpl.
  destruct (p x) eqn:Hp; simpl.
  - f_equal. apply IH. intros y Hy. apply H. by right.
  - rewrite (H x); [|by left|done]. apply IH. intros y Hy. apply H. by right.
Qed.

(** C3: every record emitted has its end line at or after its start line;
    the records come from exactly the header matches whose brace balance
    returns to zero, one record each, and a match whose balance never does
    adds nothing to the list the function returns. *)
Theorem find_functions_balanced (path content : text) :
  let code := _strip_comments_and_strings content in
  let matches := finditer func_pattern code in
  let balanced m := returns_to_zero (open_brace_text code m) in
  Forall (fun r => function_start r <= function_end r)
         (find_functions_in_file path (Some content))
  /\ find_functions_in_file path (Some content)
       = flat_map (record_of_match path code) (List.filter balanced matches)
  /\ List.length (find_functions_in_file path (Some content))
       = List.length (List.filter balanced matches)
  /\ Forall (fun m => balanced m = false -> record_of_match path code m = []) matches
  /\ find_functions_in_file path None = []
  /\ find_functions_in_file path (Some (txt "int f(int x){ if (x) { return 1; ")) = [].
Proof.
  intros code matches balanced.
  assert (Hall : forall m, In m matches ->
            (balanced m = false -> record_of_match path code m = [])
            /\ (balanced m = true ->
                exists r, record_of_match path code m = [r]
                          /\ function_start r <= function_end r)).
  { intros m Hm. by apply record_of_match_balanced. }
  assert (Heq : find_functions_in_file path (Some content)
                = flat_map (record_of_match path code) (List.filter balanced matches)).
  { unfold find_functions_in_file. fold code. fold matches.
    apply flat_map_filter. intros m Hm. by apply Hall. }
  assert (Hbal : forall m, In m (List.filter balanced matches) ->
            exists r, record_of_match path code m = [r]
                      /\ function_start r <= function_end r).
  { intros m Hm. apply filter_In in Hm as [Hm Hb]. by apply Hall. }
  split_and!.
  - rewrite Heq. apply List.Forall_forall. intros r Hr. apply in_flat_map in Hr as (m & Hm & Hr).
    apply Hbal in Hm as (r' & Hr' & Hle). rewrite Hr' in Hr. by destruct Hr as [<-|[]].
  - exact Heq.
  - rewrite Heq. revert Hbal. generalize (List.filter balanced matches).
    induction l as [|m l IH]; intros Hbal; [done|]. simpl.
    destruct (Hbal m) as (r & -> & _); [by left|]. simpl. f_equal.
    apply IH. intros m' Hm'. apply Hbal. by right.
  - apply List.Forall_forall. intros m Hm. by apply Hall.
  - done.
  - by vm_compute.
Qed.

(** C4: on the one-line function the locator emits exactly one record, on
    line 1 from start to end, with cyclomatic complexity 2. *)
Theorem one_line_function (path : text) :
  find_functions_in_file path
    (Some (txt "int f(int x){ if (x) return 1; else return 0; }"))
  = [ {| filename := path; function_start := 1; function_end := 1; cc := 2 |} ].
Proof. by vm_compute. Qed.

(* ===================================================================== *)
(** * The Halstead formulas *)
(* ===================================================================== *)

Import Halstead.

Lemma remove_dups_length_zero (l : list text) :
  List.length (remove_dups l) = 0 <-> l = [].
Proof.
  split; [|by intros ->]. destruct l as [|x l]; [done|]. intros H.
  assert (Hx : x ∈ remove_dups (x :: l)) by (apply elem_of_remove_dups; left).
  destruct (remove_dups (x :: l)); [by apply elem_of_nil in Hx | done].
Qed.

(** C5: the counts are the distinct and total numbers of operators and
    operands; volume is length times log2 of the vocabulary, and 0 when
    either is 0; difficulty is (n1/2) * (N2/n2), and 0 when n2 is 0; effort
    is their product; time is effort/18 and bugs is volume/3000 when the
    numerator is positive, and 0 when it is zero.  All in binary64
    arithmetic, for any [log2]. *)
Theorem halstead_formulas (log2 : float -> float) (operators operands : list text) :
  let h := compute_halstead log2 operators operands in
  n1 h = List.length (remove_dups operators)
  /\ n2 h = List.length (remove_dups operands)
  /\ N1 h = List.length operators
  /\ N2 h = List.length operands
  /\ vocabulary h = n1 h + n2 h
  /\ length h = N1 h + N2 h
  /\ volume h = (if ((vocabulary h =? 0) || (length h =? 0))%nat then 0
                 else float_of_nat (length h) * log2 (float_of_nat (vocabulary h)))%float
  /\ difficulty h = (if (n2 h =? 0)%nat then 0
                     else (float_of_nat (n1 h) / 2)
                          * (float_of_nat (N2 h) / float_of_nat (n2 h)))%float
  /\ effort h = (difficulty h * volume h)%float
  /\ time h = (if 0 <? effort h then effort h / 18 else 0)%float
  /\ bugs h = (if 0 <? volume h then volume h / 3000 else 0)%float
  /\ (effort h = 0%float \/ effort h = (-0)%float -> time h = 0%float)
  /\ (volume h = 0%float \/ volume h = (-0)%float -> bugs h = 0%float)
  /\ (vocabulary h = 0 <-> length h = 0)
  /\ (length h = 0 ->
      volume h = 0%float /\ difficulty h = 0%float /\ effort h = 0%float
      /\ time h = 0%float /\ bugs h = 0%float).
Proof.
  intros h. subst h. unfold compute_halstead. cbn [n1 n2 N1 N2 vocabulary length
    volume difficulty effort time bugs].
  set (d1 := List.length (remove_dups operators)).
  set (d2 := List.length (remove_dups operands)).
  set (t1 := List.length operators). set (t2 := List.length operands).
  assert (H1 : d1 = 0 <-> t1 = 0).
  { unfold d1, t1. rewrite remove_dups_length_zero. by rewrite List.length_zero_iff_nil. }
  assert (H2 : d2 = 0 <-> t2 = 0).
  { unfold d2, t2. rewrite remove_dups_length_zero. by rewrite List.length_zero_iff_nil. }
  split_and!; try done.
  - destruct (d1 + d2) eqn:Ev; [done|]. destruct (t1 + t2) eqn:El; done.
  - by destruct d2.
  - intros [-> | ->]; done.
  - intros [-> | ->]; done.
  - lia.
  - intros Hl. assert (Hv : d1 + d2 = 0) by lia. rewrite Hl, Hv.
    assert (Hd2 : d2 = 0) by lia. rewrite Hd2. done.
Qed.

(* ===================================================================== *)
(** * Strategy B *)
(* ===================================================================== *)

Import DfcLizard.

(** C7: with p parameters and cyclomatic complexity c, the control flow is
    max(0, c - 1) and the estimate is p * control_flow + control_flow; for
    p = 3 and c = 4 the control flow is 3 and the estimate is 12. *)
Theorem estimate_dfc_formula (p c : Z) :
  let f := {| parameter_count := p; cyclomatic_complexity := c |} in
  let control_flow := Z.max 0 (c - 1) in
  estimate_dfc_from_function f = (p * control_flow + control_flow)%Z
  /\ (1 <= c -> estimate_dfc_from_function f = (p + 1) * (c - 1))%Z
  /\ (c <= 1 -> estimate_dfc_from_function f = 0)%Z
  /\ estimate_dfc_from_function
       {| parameter_count := 3; cyclomatic_complexity := 4 |} = 12%Z.
Proof.
  unfold estimate_dfc_from_function. simpl. split_and!; [done| | |done].
  - intros Hc. rewrite Z.max_r by lia. ring.
  - intros Hc. rewrite Z.max_l by lia. ring.
Qed.

(* ===================================================================== *)
(** * The Halstead tokenizer on numeric literals *)
(* ===================================================================== *)

(** C8 fails on the code: the operator pass records the decimal point of
    3.14 as an operator and blanks it, so [NUMBER] later sees two integers;
    its optional fraction can never match.  An integer literal stays one
    operand. *)
Theorem decimal_literal_is_split :
  tokenize_source (txt "3.14") = ([txt "."], [txt "3"; txt "14"])
  /\ tokenize_source (txt "x = 3.14;")
       = ([txt "."; txt "="; txt ";"], [txt "x"; txt "3"; txt "14"])
  /\ findall NUMBER (txt "3.14") = [txt "3.14"]
  /\ tokenize_source (txt "n = 42;") = ([txt "="; txt ";"], [txt "n"; txt "42"]).
Proof. by vm_compute. Qed.

(* ===================================================================== *)
(** * The cyclomatic-complexity aggregation *)
(* ===================================================================== *)

Lemma sum_cc_app a b : sum_cc (a ++ b) = sum_cc a + sum_cc b.
Proof. unfold sum_cc. by rewrite List.map_app, list_sum_app. Qed.

Lemma add_recs_loop rs : forall acc,
  fold_left (fun acc r =>
     {| total_cc := total_cc acc + cc r; files_count := files_count acc;
        details := details acc ++ [r] |}) rs acc
  = {| total_cc := total_cc acc + sum_cc rs; files_count := files_count acc;
       details := details acc ++ rs |}.
Proof.
  induction rs as [|r rs IH]; intros [t n d]; simpl.
  - unfold sum_cc. simpl. by rewrite Nat.add_0_r, app_nil_r.
  - rewrite IH. simpl. f_equal.
    + change (r :: rs) with ([r] ++ rs). rewrite sum_cc_app. unfold sum_cc. simpl. lia.
    + by rewrite <- app_assoc.
Qed.

Lemma add_recs_spec acc recs :
  add_recs acc recs
  = {| total_cc := total_cc acc + sum_cc (default [] recs);
       files_count := files_count acc
                      + (match default [] recs with [] => 0 | _ :: _ => 1 end);
       details := details acc ++ default [] recs |}.
Proof.
  destruct acc as [t n d]. destruct recs as [[|r rs]|].
  - unfold sum_cc. simpl. by rewrite !Nat.add_0_r, app_nil_r.
  - unfold add_recs. by rewrite add_recs_loop.
  - unfold sum_cc. simpl. by rewrite !Nat.add_0_r, app_nil_r.
Qed.

Lemma walk_spec p files : forall acc,
  fold_left (fun acc f =>
     if CC.selected p f then add_recs acc (handle_file (wf_path f) (wf_read f)) else acc)
    files acc
  = {| total_cc := total_cc acc + sum_cc (flat_map (file_records p) files);
       files_count := files_count acc + List.length (List.filter (has_records p) files);
       details := details acc ++ flat_map (file_records p) files |}.
Proof.
  induction files as [|f files IH]; intros [t n d].
  - unfold sum_cc. simpl. by rewrite !Nat.add_0_r, app_nil_r.
  - assert (Hstep :
      (if CC.selected p f
       then add_recs {| total_cc := t; files_count := n; details := d |}
              (handle_file (wf_path f) (wf_read f))
       else {| total_cc := t; files_count := n; details := d |})
      = {| total_cc := t + sum_cc (file_records p f);
           files_count := n + (if has_records p f then 1 else 0);
           details := d ++ file_records p f |}).
    { unfold has_records, file_records. destruct (CC.selected p f).
      - rewrite add_recs_spec. cbn [total_cc files_count details].
        by destruct (default [] (handle_file (wf_path f) (wf_read f))).
      - unfold sum_cc. simpl. by rewrite !Nat.add_0_r, app_nil_r. }
    cbn [fold_left flat_map List.filter]. rewrite Hstep, IH.
    cbn [total_cc files_count details]. rewrite sum_cc_app, <- app_assoc.
    destruct (has_records p f); simpl; f_equal; lia.
Qed.

(** C10: over a directory, [details] holds the records of the selected
    files in walk order, [files_count] counts the files that yielded at
    least one record, and [total_cc] is the sum of the cc values in
    [details]; a file that is unreadable or in which no function is found
    yields no record, and leaves all three as they are without it; the
    records of a readable selected file are those of
    [find_functions_in_file].  When the source is a single file, the result
    is the same closed form over the records of that file. *)
Theorem cc_aggregation (p : project) (fs1 fs2 : list walked_file) (f : walked_file)
    (r : read_outcome) :
  let files := fs1 ++ f :: fs2 in
  let records := flat_map (file_records p) files in
  get_cc_metrics p (SrcDir files)
    = Returned {| total_cc := sum_cc records;
                  files_count := List.length (List.filter (has_records p) files);
                  details := records |}
  /\ (file_records p f = [] ->
      get_cc_metrics p (SrcDir files) = get_cc_metrics p (SrcDir (fs1 ++ fs2)))
  /\ (wf_read f = ReadNone \/ wf_read f = ReadRaises -> file_records p f = [])
  /\ (forall content, wf_read f = ReadText content ->
        find_functions_in_file (wf_path f) (Some content) = [] -> file_records p f = [])
  /\ (forall content, wf_read f = ReadText content ->
        file_records p f
        = if CC.selected p f then find_functions_in_file (wf_path f) (Some content) else [])
  /\ get_cc_metrics p (SrcFile r)
     = Returned {| total_cc := sum_cc (src_records p r);
                   files_count := (match src_records p r with [] => 0 | _ :: _ => 1 end);
                   details := src_records p r |}
  /\ (r = ReadNone \/ r = ReadRaises -> src_records p r = [])
  /\ (forall content, r = ReadText content ->
        src_records p r
        = if existsb (endswith (src p)) (src_file_extensions p)
          then find_functions_in_file (src p) (Some content) else [])
  /\ (exists m, get_cc_metrics p (SrcFile r) = Returned m
        /\ total_cc m = sum_cc (details m)
        /\ files_count m = (match details m with [] => 0 | _ :: _ => 1 end)
        /\ (r = ReadNone \/ r = ReadRaises ->
            m = {| total_cc := 0; files_count := 0; details := [] |})).
Proof.
  intros files records.
  assert (Hdir : forall fs, get_cc_metrics p (SrcDir fs)
            = Returned {| total_cc := sum_cc (flat_map (file_records p) fs);
                          files_count := List.length (List.filter (has_records p) fs);
                          details := flat_map (file_records p) fs |}).
  { intros fs. unfold get_cc_metrics. by rewrite walk_spec. }
  assert (Hfile : get_cc_metrics p (SrcFile r)
            = Returned {| total_cc := sum_cc (src_records p r);
                          files_count := (match src_records p r with [] => 0 | _ :: _ => 1 end);
                          details := src_records p r |}).
  { unfold get_cc_metrics, src_records. destruct (existsb _ _); [|done].
    rewrite add_recs_spec. cbn [total_cc files_count details]. done. }
  assert (Hnone : r = ReadNone \/ r = ReadRaises -> src_records p r = []).
  { unfold src_records. intros [-> | ->]; by destruct (existsb _ _). }
  split_and!.
  - apply Hdir.
  - intros Hn. rewrite !Hdir. unfold files.
    rewrite !flat_map_app, !List.filter_app. cbn [flat_map List.filter].
    unfold has_records at 2. by rewrite Hn.
  - unfold file_records. intros [-> | ->]; by destruct (CC.selected p f).
  - unfold file_records. intros content -> Hn. cbn [handle_file default].
    rewrite Hn. by destruct (CC.selected p f).
  - unfold file_records. by intros content ->.
  - apply Hfile.
  - apply Hnone.
  - unfold src_records. by intros content ->.
  - eexists. split; [apply Hfile|]. cbn [total_cc files_count details].
    split_and!; [done|done|]. intros H. by rewrite (Hnone H).
Qed.

(* ===================================================================== *)
(** * Strategy A: the reaching-definitions loop stops *)
(* ===================================================================== *)

Module DfcFacts.

Import Dfc.

Lemma chain_length bs : forall prev, List.length (chain prev bs) = List.length bs.
Proof. induction bs as [|b bs IH]; intros prev; simpl; [done | by rewrite IH]. Qed.

Lemma chain_lookup bs : forall prev i b,
  bs !! i = Some b ->
  chain prev bs !! i
  = Some (step_out (match i with
                    | 0 => prev
                    | S pred => default ∅ (chain prev bs !! pred)
                    end) b).
Proof.
  induction bs as [|b0 bs IH]; intros prev i b Hb; [done|].
  destruct i as [|i]; simpl in *.
  - by inversion Hb.
  - rewrite (IH _ _ _ Hb). destruct i as [|i]; [done|]. simpl. done.
Qed.

Lemma pass_step_out bs cur c i b :
  bs !! i = Some b ->
  pass_step bs (cur, c) i
  = if decide (new_out bs cur i = default ∅ (cur !! i))
    then (cur, c) else (<[i := new_out bs cur i]> cur, true).
Proof.
  intros Hb. unfold pass_step, new_out, step_out. rewrite Hb. simpl. done.
Qed.

(** After the first [i] blocks of a pass the list holds the chain's sets up
    to [i] and is untouched beyond. *)
Lemma pass_prefix bs rd : 
  List.length rd = List.length bs ->
  forall i c, i <= List.length bs ->
    (fold_left (pass_step bs) (seq 0 i) (rd, c)).1 = take i (chain ∅ bs) ++ drop i rd.
Proof.
  intros Hlen. induction i as [|i IH]; intros c Hi; [done|].
  rewrite seq_S, fold_left_app. simpl.
  specialize (IH c ltac:(lia)).
  destruct (fold_left (pass_step bs) (seq 0 i) (rd, c)) as [cur c'] eqn:Hf.
  simpl in IH. subst cur.
  destruct (lookup_lt_is_Some_2 bs i ltac:(lia)) as [b Hb].
  destruct (lookup_lt_is_Some_2 rd i ltac:(lia)) as [o Ho].
  pose proof (chain_lookup bs ∅ i b Hb) as Hci.
  set (cur := take i (chain ∅ bs) ++ drop i rd) in *.
  assert (Hti : List.length (take i (chain ∅ bs)) = i).
  { rewrite length_take_le; [done|]. rewrite chain_length. lia. }
  assert (Hnew : new_out bs cur i
                 = step_out (match i with
                             | 0 => ∅
                             | S pred => default ∅ (chain ∅ bs !! pred)
                             end) b).
  { unfold new_out. rewrite Hb. simpl. destruct i as [|pred]; [done|].
    unfold cur. rewrite lookup_app_l by lia. by rewrite lookup_take_lt by lia. }
  assert (Hcur : cur !! i = Some o).
  { unfold cur. rewrite lookup_app_r by lia. rewrite Hti, Nat.sub_diag.
    rewrite lookup_drop. by rewrite Nat.add_0_r. }
  rewrite (pass_step_out _ _ _ _ _ Hb), Hnew, Hcur. simpl.
  rewrite (take_S_r _ _ _ Hci), <- app_assoc. simpl.
  case_decide as Heq; simpl.
  - unfold cur. rewrite (drop_S _ _ _ Ho). by rewrite Heq.
  - unfold cur. rewrite insert_app_r_alt by lia. rewrite Hti, Nat.sub_diag.
    by rewrite (drop_S _ _ _ Ho).
Qed.

(** A pass over the chain's own sets changes nothing. *)
Lemma pass_fixed bs :
  forall i, i <= List.length bs ->
    fold_left (pass_step bs) (seq 0 i) (chain ∅ bs, false) = (chain ∅ bs, false).
Proof.
  induction i as [|i IH]; intros Hi; [done|].
  rewrite seq_S, fold_left_app, IH by lia. cbn [fold_left Nat.add].
  destruct (lookup_lt_is_Some_2 bs i ltac:(lia)) as [b Hb].
  rewrite (pass_step_out _ _ _ _ _ Hb).
  pose proof (chain_lookup bs ∅ i b Hb) as Hci.
  assert (Hnew : new_out bs (chain ∅ bs) i = default ∅ (chain ∅ bs !! i)).
  { rewrite Hci. unfold new_out. rewrite Hb. simpl. by destruct i. }
  by rewrite decide_True.
Qed.

Lemma one_pass_chain bs rd :
  List.length rd = List.length bs -> (one_pass bs rd).1 = chain ∅ bs.
Proof.
  intros Hlen. unfold one_pass. rewrite (pass_prefix bs rd Hlen) by lia.
  rewrite take_ge by (rewrite chain_length; lia).
  rewrite drop_ge by lia. by rewrite app_nil_r.
Qed.

(** The while loop exits within two passes: whatever fuel beyond two it is
    given, it returns the chain's sets, and a further pass reports no
    change. *)
Lemma while_changed_exits bs rd k :
  List.length rd = List.length bs ->
  while_changed (2 + k) bs rd = chain ∅ bs
  /\ one_pass bs (chain ∅ bs) = (chain ∅ bs, false).
Proof.
  intros Hlen.
  assert (Hfix : one_pass bs (chain ∅ bs) = (chain ∅ bs, false)).
  { unfold one_pass. by apply pass_fixed. }
  split; [|done]. cbn [Nat.add while_changed].
  pose proof (one_pass_chain bs rd Hlen) as H1.
  destruct (one_pass bs rd) as [rd1 c1]. simpl in H1. subst rd1.
  destruct c1; [|done]. by rewrite Hfix.
Qed.

(** So the two passes [compute_data_flow_complexity] allows are all the
    loop ever runs. *)
Lemma compute_fuel_enough bs k :
  while_changed (2 + k) bs (List.map (fun _ => ∅) bs)
  = while_changed 2 bs (List.map (fun _ => ∅) bs).
Proof.
  destruct (while_changed_exits bs (List.map (fun _ => ∅) bs) k) as [-> _];
    [by rewrite List.length_map|].
  destruct (while_changed_exits bs (List.map (fun _ => ∅) bs) 0) as [H _];
    [by rewrite List.length_map|].
  by rewrite <- H.
Qed.

Lemma compute_no_blocks ast :
  (compute_data_flow_complexity ast).2 = [] -> compute_data_flow_complexity ast = (0, []).
Proof.
  unfold compute_data_flow_complexity.
  by destruct (blocks (add_block (visit ast init))).
Qed.

End DfcFacts.

(* ===================================================================== *)
(** * Strategy A: a file no tier can parse *)
(* ===================================================================== *)

Lemma analyze_file_exhausted env : exhausted env -> Dfc.analyze_file env = (0, []).
Proof.
  intros (H1 & H2 & H3). unfold Dfc.analyze_file.
  assert (T3 : match Dfc.run_cpp env with
               | Some (returncode, stdout) =>
                   if (returncode =? 0)%Z && negb (List.length stdout =? 0)
                   then match Dfc.parse env stdout with
                        | Some ast => Dfc.compute_data_flow_complexity ast
                        | None => (0, [])
                        end
                   else (0, [])
               | None => (0, [])
               end = (0, [])).
  { destruct (Dfc.run_cpp env) as [[rc out]|]; [|done].
    destruct (rc =? 0)%Z eqn:Hrc; [|done]. apply Z.eqb_eq in Hrc.
    destruct out as [|c out]; [done|]. simpl.
    destruct H3 as [H3|[H3|H3]]; [done|done|].
    destruct (Dfc.parse env (c :: out)) as [ast|]; [|done].
    by apply DfcFacts.compute_no_blocks. }
  rewrite T3.
  assert (T2 : match Dfc.parse_file env with
               | Some ast =>
                   let '(dfc, blocks) := Dfc.compute_data_flow_complexity ast in
                   match blocks with
                   | [] => (0, [])
                   | _ :: _ => (dfc, blocks)
                   end
               | None => (0, [])
               end = (0, [])).
  { destruct (Dfc.parse_file env) as [ast|]; [|done]. simpl in H2.
    destruct (Dfc.compute_data_flow_complexity ast) as [d bs]. simpl in H2. by subst. }
  rewrite T2.
  destruct (Dfc.read_text env) as [code|]; [|done]. simpl in H1.
  destruct (Dfc.parse env code) as [ast|]; [|done]. simpl in H1.
  destruct (Dfc.compute_data_flow_complexity ast) as [d bs]. simpl in H1. by subst.
Qed.

Lemma analyze_directory_spec extensions ignore fs : forall acc,
  fold_left (fun acc f =>
     if Dfc.selected extensions ignore f then
       let '(d, bs) := Dfc.analyze_file (Dfc.df_env f) in
       {| Dfc.dfc := Dfc.dfc acc + d; Dfc.files := Dfc.files acc + 1;
          Dfc.blocks_total := Dfc.blocks_total acc + List.length bs |}
     else acc) fs acc
  = let sel := List.filter (Dfc.selected extensions ignore) fs in
    {| Dfc.dfc := Dfc.dfc acc
         + list_sum (List.map (fun f => (Dfc.analyze_file (Dfc.df_env f)).1) sel);
       Dfc.files := Dfc.files acc + List.length sel;
       Dfc.blocks_total := Dfc.blocks_total acc
         + list_sum (List.map (fun f => List.length (Dfc.analyze_file (Dfc.df_env f)).2) sel) |}.
Proof.
  induction fs as [|f fs IH]; intros [d n b].
  - simpl. by rewrite !Nat.add_0_r.
  - cbn [fold_left List.filter]. destruct (Dfc.selected extensions ignore f).
    + rewrite IH. destruct (Dfc.analyze_file (Dfc.df_env f)) as [d' bs'] eqn:Ha.
      cbn zeta. cbn [List.map list_sum Dfc.dfc Dfc.files Dfc.blocks_total List.length].
      rewrite Ha. simpl. f_equal; lia.
    + by rewrite IH.
Qed.

(** C9: when every tier is exhausted, [analyze_file] returns dfc 0 and no
    blocks (it is a total function: every exception of the tiers is caught
    inside it), and [analyze_directory] counts the file all the same: with
    the file in the walk, [files] is one more and [dfc] and [blocks] are what
    they are without it.  The tally of files is the number of selected
    files, whatever their analysis gives. *)
Theorem exhausted_file_counts (env : Dfc.file_env) (directory name : text)
    (fs1 fs2 : list Dfc.dir_file) (extensions : list text) (ignore : option (list regex)) :
  exhausted env ->
  Dfc.selected extensions ignore {| Dfc.df_name := name; Dfc.df_env := env |} = true ->
  Dfc.analyze_file env = (0, [])
  /\ exists m,
       Dfc.analyze_directory directory (Some (fs1 ++ fs2)) extensions ignore = Returned m
       /\ Dfc.analyze_directory directory
            (Some (fs1 ++ {| Dfc.df_name := name; Dfc.df_env := env |} :: fs2))
            extensions ignore
          = Returned {| Dfc.dfc := Dfc.dfc m; Dfc.files := Dfc.files m + 1;
                        Dfc.blocks_total := Dfc.blocks_total m |}
       /\ Dfc.files m
          = List.length (List.filter (Dfc.selected extensions ignore) (fs1 ++ fs2)).
Proof.
  intros Hex Hsel. pose proof (analyze_file_exhausted env Hex) as Hzero.
  split; [done|]. unfold Dfc.analyze_directory. eexists. split; [done|].
  rewrite !analyze_directory_spec. cbn zeta.
  cbn [Dfc.dfc Dfc.files Dfc.blocks_total].
  rewrite !List.filter_app. cbn [List.filter]. rewrite Hsel.
  rewrite !List.map_app, !list_sum_app, !List.length_app.
  cbn [List.map list_sum List.length Dfc.df_env]. rewrite Hzero.
  split; [|done]. simpl. do 2 f_equal; lia.
Qed.

(** A file whose raw parse gives a tree without any identifier, for which
    [parse_file] raises, and on which cpp exits with code 1, alone in its
    directory. *)
Lemma exhausted_file_counts_witness :
  let env := {| Dfc.read_text := Some (txt "#include <a.h>");
                Dfc.parse := fun _ => Some (Other [Other []; Other [Other []]]);
                Dfc.parse_file := None;
                Dfc.run_cpp := Some (1%Z, txt "") |} in
  Dfc.analyze_file env = (0, [])
  /\ exists m,
       Dfc.analyze_directory (txt "src") (Some ([] ++ [])) [txt ".c"] None = Returned m
       /\ Dfc.analyze_directory (txt "src")
            (Some ([] ++ {| Dfc.df_name := txt "a.c"; Dfc.df_env := env |} :: []))
            [txt ".c"] None
          = Returned {| Dfc.dfc := Dfc.dfc m; Dfc.files := Dfc.files m + 1;
                        Dfc.blocks_total := Dfc.blocks_total m |}
       /\ Dfc.files m
          = List.length (List.filter (Dfc.selected [txt ".c"] None) ([] ++ [])).
Proof.
  intros env.
  apply (exhausted_file_counts env (txt "src") (txt "a.c") [] [] [txt ".c"] None).
  - unfold exhausted. split_and!.
    + vm_compute. reflexivity.
    + exact I.
    + left. discriminate.
  - reflexivity.
Defined.

(* ===================================================================== *)
(** * Strategy A: what an assignment records *)
(* ===================================================================== *)

Section NodeInduction.

Variable P : node -> Prop.

Definition P_opt (o : option node) : Prop :=
  match o with
  | Some c => P c
  | None => True
  end.

Hypothesis H_ID : forall name, P (ID name).
Hypothesis H_Assignment : forall l r, P l -> P_opt r -> P (Assignment l r).
Hypothesis H_If : forall c t f, P_opt c -> P_opt t -> P_opt f -> P (If c t f).
Hypothesis H_While : forall c s, P_opt c -> P_opt s -> P (While c s).
Hypothesis H_For : forall i c n s, P_opt i -> P_opt c -> P_opt n -> P_opt s -> P (For i c n s).
Hypothesis H_Other : forall cs, Forall P cs -> P (Other cs).

Fixpoint node_induction (n : node) : P n :=
  let on_opt (o : option node) : P_opt o :=
    match o with
    | Some c => node_induction c
    | None => I
    end in
  match n with
  | ID name => H_ID name
  | Assignment l r => H_Assignment l r (node_induction l) (on_opt r)
  | If c t f => H_If c t f (on_opt c) (on_opt t) (on_opt f)
  | While c s => H_While c s (on_opt c) (on_opt s)
  | For i c x s => H_For i c x s (on_opt i) (on_opt c) (on_opt x) (on_opt s)
  | Other cs =>
      H_Other cs
        ((fix all (cs : list node) : Forall P cs :=
            match cs with
            | [] => @List.Forall_nil node P
            | c :: cs' => @List.Forall_cons node P c cs' (node_induction c) (all cs')
            end) cs)
  end.

End NodeInduction.

(** dfc.py on such an expression: every identifier goes to the uses. *)
Lemma dfc_visit_plain n : forall a,
  plain n = true ->
  Dfc.visit n a
  = {| Dfc.blocks := Dfc.blocks a;
       Dfc.current_block :=
         {| Dfc.defs := Dfc.defs (Dfc.current_block a);
            Dfc.uses := Dfc.uses (Dfc.current_block a) ∪ ids n |} |}.
Proof.
  induction n as [name| | | | |cs IH] using node_induction; intros a Hp; try discriminate.
  - done.
  - cbn [Dfc.visit ids plain] in *. revert a Hp.
    induction IH as [|c cs Hc _ IHcs]; intros [bs [d u]] Hp.
    + simpl. do 2 f_equal. set_solver.
    + apply andb_true_iff in Hp as [Hpc Hpcs].
      rewrite Hc by done. rewrite IHcs by done. simpl. do 2 f_equal. set_solver.
Qed.

(** The backup on such an expression: every identifier the block has not
    defined goes to the uses. *)
Lemma backup_visit_plain n : forall a,
  plain n = true ->
  DfcBackup.visit n a
  = {| DfcBackup.blocks := DfcBackup.blocks a;
       DfcBackup.current_block :=
         {| DfcBackup.defs := DfcBackup.defs (DfcBackup.current_block a);
            DfcBackup.uses := DfcBackup.uses (DfcBackup.current_block a)
                              ∪ (ids n ∖ DfcBackup.defs (DfcBackup.current_block a));
            DfcBackup.exposed := DfcBackup.exposed (DfcBackup.current_block a) |} |}.
Proof.
  induction n as [name| | | | |cs IH] using node_induction; intros a Hp; try discriminate.
  - destruct a as [bs [d u e]]. cbn [DfcBackup.visit ids]. unfold DfcBackup.visit_ID.
    cbn [DfcBackup.current_block DfcBackup.defs DfcBackup.uses DfcBackup.exposed
         DfcBackup.blocks].
    case_decide; do 2 f_equal; set_solver.
  - cbn [DfcBackup.visit ids plain] in *. revert a Hp.
    induction IH as [|c cs Hc _ IHcs]; intros [bs [d u e]] Hp.
    + simpl. do 2 f_equal. set_solver.
    + apply andb_true_iff in Hp as [Hpc Hpcs].
      rewrite Hc by done. rewrite IHcs by done. simpl. do 2 f_equal. set_solver.
Qed.

(** C6, as stated, fails in both analyzers.  In the backup, after x = 1
    the assignment y = x leaves x out of the uses, x being defined in the
    block already.  In dfc.py the target is added to the defs before the
    right-hand side is visited, and in x = (a[i] = z) the identifiers a and
    i, inside the left-hand side of the nested assignment, are never
    visited. *)
Lemma assignment_uses_counterexample :
  let a1 := DfcBackup.visit_Assignment (ID "x") (Some (Other [])) DfcBackup.init in
  let a2 := DfcBackup.visit_Assignment (ID "y") (Some (ID "x")) a1 in
  let nested := Assignment (Other [ID "a"; ID "i"]) (Some (ID "z")) in
  let d := Dfc.visit_Assignment (ID "x") (Some nested) Dfc.init in
  ("x"%string ∈ ids (ID "x")
   /\ DfcBackup.defs (DfcBackup.current_block a2) = {["x"; "y"]}%string
   /\ DfcBackup.uses (DfcBackup.current_block a2) = ∅)
  /\ ("i"%string ∈ ids nested
      /\ Dfc.defs (Dfc.current_block d) = {["x"]}%string
      /\ Dfc.uses (Dfc.current_block d) = {["z"]}%string).
Proof.
  cbv zeta. split_and!.
  - set_solver.
  - by vm_compute.
  - by vm_compute.
  - cbn [ids]. set_solver.
  - by vm_compute.
  - by vm_compute.
Qed.

(** C6, amended: for an assignment whose right-hand side assigns nothing
    itself, dfc.py adds every identifier of the right-hand side to the
    block's uses, and whether the target is added to the defs before (as
    dfc.py does) or after makes no difference to the sets; the backup visits
    the right-hand side first and adds to the uses every identifier of it
    that the block had not defined before the assignment, so that a target
    read by its own right-hand side is a use.  Both add the target to the
    defs only when it is a simple name, and leave the finished blocks
    alone. *)
Theorem assignment_records (lvalue rvalue : node)
    (a : Dfc.DataFlowAnalyzer) (b : DfcBackup.DataFlowAnalyzer) :
  plain rvalue = true ->
  let a' := Dfc.visit_Assignment lvalue (Some rvalue) a in
  let b' := DfcBackup.visit_Assignment lvalue (Some rvalue) b in
  (Dfc.blocks a' = Dfc.blocks a
   /\ Dfc.uses (Dfc.current_block a') = Dfc.uses (Dfc.current_block a) ∪ ids rvalue
   /\ Dfc.defs (Dfc.current_block a') = Dfc.defs (Dfc.current_block a) ∪ target lvalue
   /\ a' = match lvalue with
           | ID name => Dfc.add_def name (Dfc.visit rvalue a)
           | _ => Dfc.visit rvalue a
           end)
  /\ (DfcBackup.blocks b' = DfcBackup.blocks b
      /\ DfcBackup.uses (DfcBackup.current_block b')
         = DfcBackup.uses (DfcBackup.current_block b)
           ∪ (ids rvalue ∖ DfcBackup.defs (DfcBackup.current_block b))
      /\ DfcBackup.defs (DfcBackup.current_block b')
         = DfcBackup.defs (DfcBackup.current_block b) ∪ target lvalue
      /\ DfcBackup.exposed (DfcBackup.current_block b')
         = DfcBackup.exposed (DfcBackup.current_block b))
  /\ (forall x, x ∈ ids rvalue -> x ∈ Dfc.uses (Dfc.current_block a'))
  /\ (forall x, x ∈ ids rvalue -> x ∉ DfcBackup.defs (DfcBackup.current_block b) ->
        x ∈ DfcBackup.uses (DfcBackup.current_block b')).
Proof.
  intros Hp a' b'.
  assert (Ha : a' = match lvalue with
                    | ID name => Dfc.add_def name (Dfc.visit rvalue a)
                    | _ => Dfc.visit rvalue a
                    end).
  { subst a'. unfold Dfc.visit_Assignment. cbn [Dfc.visit].
    destruct lvalue; try done. by rewrite !dfc_visit_plain. }
  assert (Hb : b' = match lvalue with
                    | ID name => DfcBackup.add_def name (DfcBackup.visit rvalue b)
                    | _ => DfcBackup.visit rvalue b
                    end).
  { subst b'. unfold DfcBackup.visit_Assignment. by cbn [DfcBackup.visit]. }
  assert (Hau : Dfc.uses (Dfc.current_block a')
                = Dfc.uses (Dfc.current_block a) ∪ ids rvalue).
  { rewrite Ha, dfc_visit_plain by done. by destruct lvalue. }
  assert (Hbu : DfcBackup.uses (DfcBackup.current_block b')
                = DfcBackup.uses (DfcBackup.current_block b)
                  ∪ (ids rvalue ∖ DfcBackup.defs (DfcBackup.current_block b))).
  { rewrite Hb, backup_visit_plain by done. by destruct lvalue. }
  split_and!.
  - rewrite Ha, dfc_visit_plain by done. by destruct lvalue.
  - done.
  - rewrite Ha, dfc_visit_plain by done. destruct lvalue; simpl; set_solver.
  - done.
  - rewrite Hb, backup_visit_plain by done. by destruct lvalue.
  - done.
  - rewrite Hb, backup_visit_plain by done. destruct lvalue; simpl; set_solver.
  - rewrite Hb, backup_visit_plain by done. by destruct lvalue.
  - intros x Hx. rewrite Hau. set_solver.
  - intros x Hx Hd. rewrite Hbu. set_solver.
Qed.

(** x = x + y at the start of a block: both analyzers record x and y as
    uses and x as a def. *)
Lemma assignment_records_witness :
  let rvalue := Other [ID "x"; ID "y"] in
  let a' := Dfc.visit_Assignment (ID "x") (Some rvalue) Dfc.init in
  let b' := DfcBackup.visit_Assignment (ID "x") (Some rvalue) DfcBackup.init in
  (Dfc.blocks a' = Dfc.blocks Dfc.init
   /\ Dfc.uses (Dfc.current_block a') = Dfc.uses (Dfc.current_block Dfc.init) ∪ ids rvalue
   /\ Dfc.defs (Dfc.current_block a')
      = Dfc.defs (Dfc.current_block Dfc.init) ∪ target (ID "x")
   /\ a' = Dfc.add_def "x" (Dfc.visit rvalue Dfc.init))
  /\ (DfcBackup.blocks b' = DfcBackup.blocks DfcBackup.init
      /\ DfcBackup.uses (DfcBackup.current_block b')
         = DfcBackup.uses (DfcBackup.current_block DfcBackup.init)
           ∪ (ids rvalue ∖ DfcBackup.defs (DfcBackup.current_block DfcBackup.init))
      /\ DfcBackup.defs (DfcBackup.current_block b')
         = DfcBackup.defs (DfcBackup.current_block DfcBackup.init) ∪ target (ID "x")
      /\ DfcBackup.exposed (DfcBackup.current_block b')
         = DfcBackup.exposed (DfcBackup.current_block DfcBackup.init))
  /\ (forall x, x ∈ ids rvalue -> x ∈ Dfc.uses (Dfc.current_block a'))
  /\ (forall x, x ∈ ids rvalue ->
        x ∉ DfcBackup.defs (DfcBackup.current_block DfcBackup.init) ->
        x ∈ DfcBackup.uses (DfcBackup.current_block b')).
Proof.
  intros rvalue.
  apply (assignment_records (ID "x") rvalue Dfc.init DfcBackup.init).
  reflexivity.
Defined.

(* ===================================================================== *)
(** * Worked examples *)
(* ===================================================================== *)

(** One if, one && and one ?: give 4. *)
Example cyclomatic_if_and_ternary :
  cyclomatic (txt "if (a && b) c = d ? 1 : 2;") = 4.
Proof. by vm_compute. Qed.

(** The compound operator is recorded once, not as its constituents. *)
Example tokenize_compound_assignment :
  tokenize_source (txt "a += b;") = ([txt "+="; txt ";"], [txt "a"; txt "b"]).
Proof. by vm_compute. Qed.

(** Two operators and two operands, all distinct, where log2 of 4.0 is 2.0:
    volume 8, difficulty 1, effort 8. *)
Example halstead_small :
  let h := compute_halstead (fun _ => 2%float) [txt "+"; txt ";"] [txt "a"; txt "b"] in
  (vocabulary h, length h) = (4, 4)
  /\ volume h = 8%float /\ difficulty h = 1%float /\ effort h = 8%float
  /\ time h = (8 / 18)%float /\ bugs h = (8 / 3000)%float.
Proof. by vm_compute. Qed.

(** The line numbers of a record are those of the stripped text: after a
    comment of two lines, the function that starts on line 4 of the file is
    reported from line 3. *)
Example lines_after_block_comment :
  let file := txt "void g(int a) { while (a) { a--; } }" ++ [ch_nl]
              ++ txt "/* c" ++ [ch_nl] ++ txt "*/" ++ [ch_nl]
              ++ txt "int h(void)" ++ [ch_nl] ++ txt "{" ++ [ch_nl]
              ++ txt "  return a || b;" ++ [ch_nl] ++ txt "}" in
  List.map (fun r => (function_start r, function_end r, cc r))
           (find_functions_in_file (txt "f.c") (Some file))
  = [(1, 1, 2); (3, 6, 2)].
Proof. by vm_compute. Qed.

(** x = y; if (x) y = x; z = y: three blocks, whose reaching sets have 1, 2
    and 3 names. *)
Example reaching_definitions_chain :
  let ast := Other [ Assignment (ID "x") (Some (ID "y"));
                     If (Some (ID "x")) (Some (Assignment (ID "y") (Some (ID "x")))) None;
                     Assignment (ID "z") (Some (ID "y")) ]%string in
  (Dfc.compute_data_flow_complexity ast).1 = 6
  /\ List.length (Dfc.compute_data_flow_complexity ast).2 = 3.
Proof. by vm_compute. Qed.

(** No pattern of the program matches the empty string, so the scans never
    meet an empty match. *)
Example patterns_consume :
  forallb (fun r => negb (nullable r))
    ([ quoted_re dot_all ch_dquote; quoted_re dot_all ch_squote;
       quoted_re dot ch_dquote; quoted_re dot ch_squote;
       line_comment_re; block_comment_re; func_pattern; IDENTIFIER; NUMBER ]
     ++ List.map compile_op OPERATORS
     ++ List.map (fun kw => keyword_re (txt kw))
          ["if"; "for"; "while"; "case"; "catch"]%string) = true.
Proof. by vm_compute. Qed.

(* ===================================================================== *)
(** * More on the scans *)
(* ===================================================================== *)

Module ScanFacts.

Lemma begins_with_cls (p q : ascii -> bool) r :
  (forall c, p c = true -> q c = true) -> begins_with q (Cat (Cls p) r).
Proof.
  intros Hpq w Hw. inversion Hw as [| |r1 r2 w1 w2 H1 H2| | | | |]; subst.
  inversion H1 as [|p' c Hc| | | | | |]; subst. exists c, w2. split; [done | auto].
Qed.

Lemma begins_with_chr c (q : ascii -> bool) r : q c = true -> begins_with q (Cat (chr c) r).
Proof.
  intros Hq. apply begins_with_cls. intros x Hx.
  unfold ch_eqb in Hx. apply Ascii.eqb_eq in Hx. by subst.
Qed.

(** No match starts at a character outside the class the pattern begins
    with, nor at the end of the text. *)
Lemma match_at_outside q r pre s :
  begins_with q r ->
  match s with c :: _ => q c = false | [] => True end ->
  match_at r pre s = None.
Proof.
  intros Hb Hs. destruct (match_at r pre s) as [[pre' s']|] eqn:Hm; [|done].
  apply match_at_consumes in Hm as (w & -> & _ & Hw).
  apply Hb in Hw as (c & w' & -> & Hq). simpl in Hs. congruence.
Qed.

Lemma scan_outside q r : begins_with q r ->
  forall fuel pre s, List.length s <= fuel ->
    forallb (fun c => negb (q c)) s = true -> scan r fuel pre s = List.map Skip s.
Proof.
  intros Hb. induction fuel as [|f IH]; intros pre s Hlen Hs.
  - destruct s; [done | simpl in Hlen; lia].
  - simpl. rewrite (match_at_outside q r pre s Hb).
    + destruct s as [|c s]; [done|]. simpl in *.
      apply andb_true_iff in Hs as [_ Hs]. f_equal. apply IH; [lia | done].
    + destruct s as [|c s]; [done|]. simpl in Hs.
      apply andb_true_iff in Hs as [Hc _]. by apply negb_true_iff in Hc.
Qed.

Lemma sub_pieces_skips repl s : sub_pieces repl (List.map Skip s) = s.
Proof. induction s as [|c s IH]; [done|]. unfold sub_pieces in *. simpl. by f_equal. Qed.

(** A pass is the identity on a text in which no match can start. *)
Lemma sub_outside q r repl s :
  begins_with q r -> forallb (fun c => negb (q c)) s = true -> sub r repl s = s.
Proof.
  intros Hb Hs. unfold sub, pieces. rewrite (scan_outside q r Hb) by done.
  apply sub_pieces_skips.
Qed.

Lemma sub_pieces_length repl ps :
  (forall i w, In (Hit i w) ps -> List.length repl <= List.length w) ->
  List.length (sub_pieces repl ps) <= List.length (flat_map piece_text ps).
Proof.
  induction ps as [|[c|i w] ps IH]; intros H; [done| |].
  - unfold sub_pieces in *. simpl. apply le_n_S. apply IH. intros i w Hin. eapply H. by right.
  - unfold sub_pieces in *. simpl. rewrite !List.length_app.
    pose proof (H i w ltac:(by left)).
    assert (List.length (flat_map (fun p => match p with Skip c => [c] | Hit _ _ => repl end) ps)
            <= List.length (flat_map piece_text ps)); [|lia].
    apply IH. intros j v Hin. eapply H. by right.
Qed.

(** A pass whose replacement is no longer than any match never lengthens
    the text. *)
Lemma sub_length_le r repl s :
  (forall w, lang r w -> List.length repl <= List.length w) ->
  List.length (sub r repl s) <= List.length s.
Proof.
  intros H. unfold sub, pieces.
  rewrite <- (scan_text r (List.length s) [] s) at 3 by done.
  apply sub_pieces_length. intros i w Hin.
  apply scan_hits in Hin as (Hw & _); [auto | done].
Qed.

(** Every character of the result of a pass comes from the text or from the
    replacement. *)
Lemma sub_chars r repl s c : In c (sub r repl s) -> In c s \/ In c repl.
Proof.
  unfold sub, pieces. rewrite <- (scan_text r (List.length s) [] s) at 3 by done.
  generalize (scan r (List.length s) [] s). intros ps. unfold sub_pieces.
  induction ps as [|[d|i w] ps IH]; simpl; [done| |].
  - intros [->|H]; [by left; left|]. destruct (IH H); [left; by right | by right].
  - rewrite !in_app_iff. intros [H|H]; [by right|].
    destruct (IH H); [left; by right | by right].
Qed.

(** The matches of a scan lie from left to right without overlap, none
    before the position the scan starts at. *)
Lemma scan_spans_sorted r : forall fuel pre s,
  List.length s <= fuel ->
  StronglySorted (fun a b => snd a <= fst b) (spans (scan r fuel pre s))
  /\ Forall (fun a => List.length pre <= fst a /\ fst a < snd a) (spans (scan r fuel pre s)).
Proof.
  induction fuel as [|f IH]; intros pre s Hlen.
  - simpl. split; constructor.
  - assert (Hmiss : let ps := match s with
                              | [] => []
                              | c :: s' => Skip c :: scan r f (c :: pre) s'
                              end in
            StronglySorted (fun a b => snd a <= fst b) (spans ps)
            /\ Forall (fun a => List.length pre <= fst a /\ fst a < snd a) (spans ps)).
    { destruct s as [|c s']; simpl; [split; constructor|].
      destruct (IH (c :: pre) s') as [H1 H2]; [simpl in Hlen; lia|].
      split; [done|]. eapply Forall_impl; [exact H2|]. simpl. intros a Ha. lia. }
    simpl. destruct (match_at r pre s) as [[pre' s']|] eqn:Hm; [|exact Hmiss].
    destruct (List.length s' <? List.length s) eqn:Hlt; [|exact Hmiss].
    destruct (scan_step _ _ _ _ _ Hm Hlt) as (w & Hne & Hs & -> & Hw & ->).
    apply Nat.ltb_lt in Hlt.
    destruct (IH (rev w ++ pre) s') as [H1 H2]; [lia|].
    assert (Hpos : 0 < List.length w) by (destruct w; [done | simpl; lia]).
    unfold spans in *. cbn [flat_map app]. split.
    + constructor; [done|]. eapply Forall_impl; [exact H2|]. simpl.
      intros a [Ha _]. rewrite List.length_app, List.length_rev in Ha. lia.
    + constructor; [simpl; lia|]. eapply Forall_impl; [exact H2|]. simpl.
      intros a [Ha Hb]. rewrite List.length_app, List.length_rev in Ha. lia.
Qed.

End ScanFacts.

(* ===================================================================== *)
(** * cc.py and halstead.py: more on the strippers *)
(* ===================================================================== *)

Import ScanFacts.

Lemma quoted_begins any q : is_opener q = true -> begins_with is_opener (quoted_re any q).
Proof. intros Hq. unfold quoted_re. cbn [cats]. by apply begins_with_chr. Qed.

Lemma line_comment_begins (q : ascii -> bool) :
  q "/"%char = true -> begins_with q line_comment_re.
Proof. intros Hq. unfold line_comment_re. cbn [cats]. by apply begins_with_chr. Qed.

Lemma block_comment_begins (q : ascii -> bool) :
  q "/"%char = true -> begins_with q block_comment_re.
Proof. intros Hq. unfold block_comment_re. cbn [cats]. by apply begins_with_chr. Qed.

(** X1: a text with no slash and no quote has nothing to strip: both strippers
    return it as it is. *)
Theorem strip_plain_text (code : text) :
  forallb (fun c => negb (is_opener c)) code = true ->
  _strip_comments_and_strings code = code /\ strip_comments_and_strings code = code.
Proof.
  intros Hc. unfold _strip_comments_and_strings, strip_comments_and_strings.
  rewrite !(sub_outside is_opener (quoted_re dot_all ch_dquote)) by (done || by apply quoted_begins).
  rewrite !(sub_outside is_opener (quoted_re dot_all ch_squote)) by (done || by apply quoted_begins).
  rewrite !(sub_outside is_opener line_comment_re) by (done || by apply line_comment_begins).
  rewrite !(sub_outside is_opener block_comment_re) by (done || by apply block_comment_begins).
  rewrite !(sub_outside is_opener (quoted_re dot ch_dquote)) by (done || by apply quoted_begins).
  rewrite !(sub_outside is_opener (quoted_re dot ch_squote)) by (done || by apply quoted_begins).
  done.
Qed.

Lemma strip_plain_text_witness :
  _strip_comments_and_strings (txt "int x = a * (b + 1);") = txt "int x = a * (b + 1);"
  /\ strip_comments_and_strings (txt "int x = a * (b + 1);") = txt "int x = a * (b + 1);".
Proof. apply (strip_plain_text (txt "int x = a * (b + 1);")). reflexivity. Defined.

Lemma quoted_length any q w : lang (quoted_re any q) w -> 2 <= List.length w.
Proof.
  unfold quoted_re. cbn [cats]. intros H.
  inversion H as [| |r1 r2 w1 w2 H1 H2| | | | |]; subst.
  inversion H2 as [| |r1' r2' w3 w4 H3 H4| | | | |]; subst.
  apply lang_chr in H1. apply lang_chr in H4. subst.
  rewrite !List.length_app. simpl. lia.
Qed.

(** X2: neither stripper ever lengthens a text. *)
Theorem strip_never_lengthens (code : text) :
  List.length (_strip_comments_and_strings code) <= List.length code
  /\ List.length (strip_comments_and_strings code) <= List.length code.
Proof.
  assert (H0 : forall r s, List.length (sub r [] s) <= List.length s).
  { intros r s. apply sub_length_le. intros w _. simpl. lia. }
  assert (H2 : forall any q s,
            List.length (sub (quoted_re any q) [q; q] s) <= List.length s).
  { intros any q s. apply sub_length_le. intros w Hw. by apply quoted_length in Hw. }
  split.
  - unfold _strip_comments_and_strings.
    etrans; [apply H0|]. etrans; [apply H0|]. etrans; [apply H2|]. apply H2.
  - unfold strip_comments_and_strings.
    etrans; [apply H0|]. etrans; [apply H0|]. etrans; [apply H0|]. apply H0.
Qed.

Lemma occurrence_positions_app_r p w : forall s,
  occurrence_positions p s <= occurrence_positions p (w ++ s).
Proof.
  induction w as [|c w IH]; intros s; [done|]. simpl. specialize (IH s). lia.
Qed.

Lemma no_slash_pair_app_r w s : no_slash_pair (w ++ s) -> no_slash_pair s.
Proof.
  unfold no_slash_pair. intros H.
  pose proof (occurrence_positions_app_r (txt "//") w s). lia.
Qed.

Lemma no_slash_pair_cons c s :
  no_slash_pair (c :: s) <->
  no_slash_pair s /\ ~ (c = "/"%char /\ exists t, s = "/"%char :: t).
Proof.
  unfold no_slash_pair. cbn [occurrence_positions].
  destruct (starts_with (txt "//") (c :: s)) eqn:Hs.
  - split; [lia|]. intros [_ Hn]. exfalso. apply Hn.
    apply starts_with_split in Hs. simpl in Hs. inversion Hs; subst. eauto.
  - split; [|intros [H _]; lia]. intros H. split; [lia|].
    intros [-> [t ->]]. by vm_compute in Hs.
Qed.

Lemma is_slash_eq c : is_slash c = true -> c = "/"%char.
Proof. unfold is_slash, ch_eqb. intros H. by apply Ascii.eqb_eq in H. Qed.

(** When every match begins with a slash and one is removed wherever two
    slashes meet, or the text has no two slashes side by side to begin with,
    the text without the matches has none. *)
Lemma scan_no_slash_pair r :
  begins_with is_slash r ->
  forall fuel pre s, List.length s <= fuel ->
    (no_slash_pair s
     \/ forall pre t, exists pre' s',
          match_at r pre ("/"%char :: "/"%char :: t) = Some (pre', s')
          /\ (List.length s' <? S (S (List.length t))) = true) ->
    no_slash_pair (sub_pieces [] (scan r fuel pre s))
    /\ forall t, sub_pieces [] (scan r fuel pre s) = "/"%char :: t ->
         exists t', s = "/"%char :: t'.
Proof.
  intros Hb. induction fuel as [|f IH]; intros pre s Hlen Hor.
  - split; [done|]. intros t Ht. done.
  - assert (Hmiss :
      (match_at r pre s = None
       \/ exists pre' s', match_at r pre s = Some (pre', s')
                          /\ (List.length s' <? List.length s) = false) ->
      let ps := match s with
                | [] => []
                | c :: s' => Skip c :: scan r f (c :: pre) s'
                end in
      no_slash_pair (sub_pieces [] ps)
      /\ forall t, sub_pieces [] ps = "/"%char :: t -> exists t', s = "/"%char :: t').
    { intros Hno. destruct s as [|c s1]; [split; [done|]; by intros t Ht|].
      simpl in Hlen.
      destruct (IH (c :: pre) s1) as [IH1 IH2]; [lia| |].
      { destruct Hor as [Hn|Hc]; [left|by right].
        by apply (no_slash_pair_app_r [c]). }
      cbv zeta. unfold sub_pieces in *. cbn [flat_map app]. split.
      - apply no_slash_pair_cons. split; [done|]. intros [-> [t Ht]].
        destruct (IH2 t Ht) as [t' ->].
        destruct Hor as [Hn|Hc].
        + apply no_slash_pair_cons in Hn as [_ Hn]. apply Hn. eauto.
        + destruct (Hc pre t') as (pre' & s' & Hm & Hlt).
          destruct Hno as [Hno|(p & q & Hno & Hq)]; [congruence|].
          rewrite Hm in Hno. inversion Hno; subst. simpl in Hq. congruence.
      - intros t Ht. inversion Ht; subst. eauto. }
    simpl. destruct (match_at r pre s) as [[pre' s']|] eqn:Hm; [|apply Hmiss; by left].
    destruct (List.length s' <? List.length s) eqn:Hlt; [|apply Hmiss; right; eauto].
    destruct (scan_step _ _ _ _ _ Hm Hlt) as (w & Hne & Hs & -> & Hw & Hf).
    apply Nat.ltb_lt in Hlt.
    destruct (IH (rev w ++ pre) s') as [IH1 IH2]; [lia| |].
    { destruct Hor as [Hn|Hc]; [left|by right]. rewrite Hs in Hn.
      by apply no_slash_pair_app_r in Hn. }
    unfold sub_pieces in *. cbn [flat_map app]. split; [done|].
    intros t Ht. apply Hb in Hw as (c & w' & -> & Hc). apply is_slash_eq in Hc.
    subst. simpl. eauto.
Qed.

Lemma star_loop_greedy_some {A : Type} body (k : text -> text -> option A) fuel pre s :
  (forall p t, k p t <> None) -> star_loop body true k fuel pre s <> None.
Proof.
  intros Hk. destruct fuel as [|f]; simpl.
  - apply Hk.
  - destruct (body pre s _); [done | apply Hk].
Qed.

(** The line-comment pattern matches wherever two slashes meet. *)
Lemma line_comment_complete pre t :
  exists pre' s',
    match_at line_comment_re pre ("/"%char :: "/"%char :: t) = Some (pre', s')
    /\ (List.length s' <? S (S (List.length t))) = true.
Proof.
  destruct (match_at line_comment_re pre ("/"%char :: "/"%char :: t))
    as [[pre' s']|] eqn:Hm.
  - exists pre', s'. split; [done|].
    apply match_at_consumes in Hm as (w & Hs & _ & Hw).
    apply not_nullable_consumes in Hw; [|done].
    apply (f_equal (@List.length ascii)) in Hs. rewrite List.length_app in Hs.
    simpl in Hs. apply Nat.ltb_lt. destruct w; [done|]. simpl in Hs. lia.
  - exfalso. unfold match_at, line_comment_re in Hm. cbn [cats mt chr] in Hm.
    change (ch_eqb "/" "/") with true in Hm. cbn iota in Hm.
    by apply star_loop_greedy_some in Hm.
Qed.

Lemma sub_no_slash_pair_line s : no_slash_pair (sub line_comment_re [] s).
Proof.
  unfold sub, pieces.
  apply (scan_no_slash_pair line_comment_re); [by apply line_comment_begins|done|].
  right. apply line_comment_complete.
Qed.

Lemma sub_no_slash_pair_block s :
  no_slash_pair s -> no_slash_pair (sub block_comment_re [] s).
Proof.
  intros Hs. unfold sub, pieces.
  apply (scan_no_slash_pair block_comment_re); [by apply block_comment_begins|done|].
  by left.
Qed.

(** X3: no line comment is left in what cc.py's stripper returns: nowhere in it
    do two slashes stand side by side. *)
Theorem cc_strip_leaves_no_line_comment (code : text) :
  no_slash_pair (_strip_comments_and_strings code)
  /\ findall line_comment_re (_strip_comments_and_strings code) = [].
Proof.
  assert (Hn : no_slash_pair (_strip_comments_and_strings code)).
  { unfold _strip_comments_and_strings. apply sub_no_slash_pair_block.
    apply sub_no_slash_pair_line. }
  split; [done|].
  destruct (findall line_comment_re (_strip_comments_and_strings code)) as [|w ws] eqn:Hf;
    [done|]. exfalso.
  assert (Hin : In w (findall line_comment_re (_strip_comments_and_strings code)))
    by (rewrite Hf; by left).
  unfold findall, pieces in Hin. apply in_flat_map in Hin as ([c|i v] & Hin & Hw); [done|].
  destruct Hw as [->|[]].
  apply scan_hits in Hin as (Hw & _ & _ & rest & Hrest); [|done].
  simpl in Hrest. unfold line_comment_re in Hw. cbn [cats] in Hw.
  inversion Hw as [| |r1 r2 w1 w2 H1 H2| | | | |]; subst.
  inversion H2 as [| |r1' r2' w3 w4 H3 H4| | | | |]; subst.
  apply lang_chr in H1. apply lang_chr in H3. subst.
  rewrite <- (firstn_skipn i (_strip_comments_and_strings code)) in Hn.
  apply no_slash_pair_app_r in Hn. rewrite Hrest in Hn. simpl in Hn.
  apply no_slash_pair_cons in Hn as [_ Hn]. apply Hn. split; [done|]. eauto.
Qed.

(* ===================================================================== *)
(** * cc.py: more on the function records *)
(* ===================================================================== *)

Lemma brace_balance_app a b : brace_balance (a ++ b) = (brace_balance a + brace_balance b)%Z.
Proof.
  induction a as [|c a IH]; [done|]. rewrite <- app_comm_cons, !brace_balance_cons, IH. lia.
Qed.

(** What the brace loop finds: the text up to the index it returns has
    every prefix above zero, the character at the index is a closing brace,
    and it brings the balance to zero. *)
Lemma find_close_found : forall s idx b close,
  (1 <= b)%Z -> find_close s idx b = Some close ->
  exists body tail,
    s = body ++ "}"%char :: tail /\ close = idx + List.length body
    /\ (b + brace_balance body = 1)%Z
    /\ forall j, (1 <= b + brace_balance (firstn j body))%Z.
Proof.
  induction s as [|ch s IH]; intros idx b close Hb H; [done|].
  assert (Hcons : forall d : Z,
    (if ch_eqb ch "{"%char then 1 else if ch_eqb ch "}"%char then -1 else 0)%Z = d ->
    (1 <= b + d)%Z -> find_close s (S idx) (b + d) = Some close ->
    exists body tail,
      ch :: s = body ++ "}"%char :: tail /\ close = idx + List.length body
      /\ (b + brace_balance body = 1)%Z
      /\ forall j, (1 <= b + brace_balance (firstn j body))%Z).
  { intros d Hd Hbd Hf. apply IH in Hf as (body & tail & -> & -> & Hbal & Hpre); [|done].
    exists (ch :: body), tail. split_and!; [done|simpl; lia| |].
    - rewrite brace_balance_cons, Hd. lia.
    - intros [|j]; [simpl; unfold brace_balance; simpl; lia|].
      rewrite firstn_cons, brace_balance_cons, Hd. specialize (Hpre j). lia. }
  simpl in H. destruct (ch_eqb ch "{") eqn:Ho.
  - apply (Hcons 1%Z); [done|lia|done].
  - destruct (ch_eqb ch "}") eqn:Hc.
    + destruct (b - 1 =? 0)%Z eqn:Hz.
      * inversion H; subst. apply Z.eqb_eq in Hz.
        unfold ch_eqb in Hc. apply Ascii.eqb_eq in Hc. subst ch.
        exists [], s. split_and!; [done|simpl; lia|unfold brace_balance; simpl; lia|].
        intros j. rewrite firstn_nil. unfold brace_balance. simpl. lia.
      * apply Z.eqb_neq in Hz. apply (Hcons (-1)%Z); [done|lia|].
        by replace (b + -1)%Z with (b - 1)%Z by lia.
    + apply (Hcons 0%Z); [done|lia|]. by rewrite Z.add_0_r.
Qed.

(** X4: the body of a function that is recorded: it ends just before a closing
    brace, its braces balance, and no prefix of it closes more braces than
    it opens. *)
Theorem function_body_balanced (code : text) (m : nat * nat) (close : nat) :
  In m (finditer func_pattern code) ->
  find_close (skipn (snd m - 1) code) (snd m - 1) 0 = Some close ->
  let body := slice (snd m) close code in
  snd m <= close
  /\ skipn close code = "}"%char :: skipn (S close) code
  /\ skipn (snd m) code = body ++ skipn close code
  /\ brace_balance body = 0%Z
  /\ forall j, (0 <= brace_balance (firstn j body))%Z.
Proof.
  intros Hin Hf body.
  assert (Hpos : 1 <= snd m).
  { destruct (finditer_facts _ _ _ Hin) as (w & _ & _ & Hne & He & _).
    destruct w; [done|]. simpl in He. lia. }
  apply header_match in Hin as (Hle & rest & Hopen).
  unfold open_brace_text in Hopen. rewrite Hopen in Hf.
  change (find_close ("{"%char :: rest) (snd m - 1) 0)
    with (find_close rest (S (snd m - 1)) 1) in Hf.
  apply find_close_found in Hf as (b & tail & Hrest & Hclose & Hbal & Hpre); [|lia].
  assert (Hm : S (snd m - 1) = snd m) by lia. rewrite Hm in Hclose.
  assert (Hskip : skipn (snd m) code = b ++ "}"%char :: tail).
  { rewrite <- Hm. change (S (snd m - 1)) with (1 + (snd m - 1)).
    rewrite <- skipn_skipn, Hopen. simpl. by rewrite Hrest. }
  assert (Hsc : skipn close code = "}"%char :: tail).
  { rewrite Hclose, Nat.add_comm, <- skipn_skipn, Hskip. by rewrite drop_app_length. }
  assert (Hbody : body = b).
  { unfold body, slice. rewrite Hskip, Hclose.
    replace (snd m + List.length b - snd m) with (List.length b) by lia.
    by rewrite take_app_length. }
  split_and!.
  - lia.
  - rewrite Hsc. f_equal.
    change (S close) with (1 + close). by rewrite <- skipn_skipn, Hsc.
  - by rewrite Hbody, Hsc.
  - rewrite Hbody. lia.
  - intros j. rewrite Hbody. specialize (Hpre j). lia.
Qed.

Lemma function_body_balanced_witness :
  let code := txt "int f(int x){ if (x) { return 1; } return 0; } int y;" in
  let body := slice 13 45 code in
  13 <= 45
  /\ skipn 45 code = "}"%char :: skipn 46 code
  /\ skipn 13 code = body ++ skipn 45 code
  /\ brace_balance body = 0%Z
  /\ forall j, (0 <= brace_balance (firstn j body))%Z.
Proof.
  intros code.
  apply (function_body_balanced code (0, 13) 45).
  - vm_compute. by left.
  - reflexivity.
Defined.

Lemma record_of_match_cases path code m :
  record_of_match path code m = []
  \/ exists r, record_of_match path code m = [r]
               /\ filename r = path
               /\ function_start r = count_nl (firstn (fst m) code) + 1
               /\ 1 <= cc r.
Proof.
  unfold record_of_match.
  destruct (find_close _ _ _) as [close|]; [right|by left].
  eexists. split; [done|]. simpl. split_and!; [done|done|]. unfold cyclomatic. lia.
Qed.

(** X5: the records of a file carry its path, start on line 1 or later, have a
    complexity of at least 1, and come in the order of their start lines. *)
Theorem records_in_line_order (path : text) (content : option text) :
  let rs := find_functions_in_file path content in
  StronglySorted le (List.map function_start rs)
  /\ Forall (fun r => filename r = path /\ 1 <= function_start r /\ 1 <= cc r) rs.
Proof.
  intros rs. subst rs. destruct content as [content|]; [|split; constructor].
  unfold find_functions_in_file.
  set (code := _strip_comments_and_strings content).
  destruct (scan_spans_sorted func_pattern (List.length code) [] code) as [Hs Hpos];
    [done|].
  change (spans (scan func_pattern (List.length code) [] code))
    with (finditer func_pattern code) in Hs, Hpos.
  revert Hpos. induction Hs as [|m ms Hs IH Hall]; intros Hpos; [split; constructor|].
  apply Forall_cons in Hpos as [[_ Hm] Hpos].
  destruct (IH Hpos) as [IH1 IH2]. cbn [flat_map].
  destruct (record_of_match_cases path code m) as [->|(r & -> & Hf & Hst & Hcc)];
    [done|].
  cbn [app List.map]. split.
  - constructor; [done|]. apply List.Forall_forall. intros x Hx.
    apply in_map_iff in Hx as (r' & <- & Hr').
    apply in_flat_map in Hr' as (m' & Hm' & Hr').
    rewrite List.Forall_forall in Hall. specialize (Hall m' Hm').
    destruct (record_of_match_cases path code m') as [He|(r2 & He & _ & Hst2 & _)];
      rewrite He in Hr'; [done|]. destruct Hr' as [<-|[]].
    rewrite Hst, Hst2.
    assert (Hfst : fst m <= fst m') by lia.
    pose proof (count_nl_firstn_mono (fst m) (fst m') code Hfst). lia.
  - constructor; [|done]. split_and!; [done|lia|done].
Qed.

Lemma lang_cats_mem c rs : forall w,
  In (chr c) rs -> lang (cats rs) w -> In c w.
Proof.
  induction rs as [|x rs IH]; intros w Hin Hw; [done|].
  destruct rs as [|y rs].
  - destruct Hin as [Hx|[]]. subst x. cbn [cats] in Hw. apply lang_chr in Hw. subst. by left.
  - change (cats (x :: y :: rs)) with (Cat x (cats (y :: rs))) in Hw.
    inversion Hw as [| |r1 r2 w1 w2 H1 H2| | | | |]; subst. apply in_app_iff.
    destruct Hin as [Hx|Hin].
    + left. subst x. apply lang_chr in H1. subst. by left.
    + right. by apply IH.
Qed.

Lemma in_skipn {A : Type} (x : A) n l : In x (skipn n l) -> In x l.
Proof. intros H. rewrite <- (firstn_skipn n l). apply in_app_iff. by right. Qed.

Lemma cc_strip_chars c content :
  In c (_strip_comments_and_strings content) ->
  In c content \/ c = ch_dquote \/ c = ch_squote.
Proof.
  unfold _strip_comments_and_strings. intros H.
  apply sub_chars in H as [H|[]]. apply sub_chars in H as [H|[]].
  apply sub_chars in H as [H|H].
  - apply sub_chars in H as [H|H]; [by left|].
    right; left. simpl in H. naive_solver.
  - right; right. simpl in H. naive_solver.
Qed.

Lemma find_close_closing : forall s idx b close,
  find_close s idx b = Some close -> In "}"%char s.
Proof.
  induction s as [|ch s IH]; intros idx b close H; [done|]. simpl in H.
  destruct (ch_eqb ch "{"); [right; eauto|].
  destruct (ch_eqb ch "}") eqn:Hc; [|right; eauto].
  left. unfold ch_eqb in Hc. by apply Ascii.eqb_eq in Hc.
Qed.

(** X6: a file in which one of the four characters ( ) { } does not occur
    yields no record: a header needs the first three and a body the
    last. *)
Theorem no_record_without_delimiters (path content : text) (c : ascii) :
  In c ["("; ")"; "{"; "}"]%char -> ~ In c content ->
  find_functions_in_file path (Some content) = [].
Proof.
  intros Hc Hno. unfold find_functions_in_file.
  set (code := _strip_comments_and_strings content).
  assert (Hcode : ~ In c code).
  { intros H. apply cc_strip_chars in H as [H|[->| ->]]; [done| |];
      simpl in Hc; unfold ch_dquote, ch_squote in Hc; naive_solver. }
  assert (Hm : forall m, In m (finditer func_pattern code) ->
                         record_of_match path code m = []).
  { intros m Hm. unfold record_of_match.
    destruct (find_close _ _ _) as [close|] eqn:Hf; [exfalso|done].
    destruct (finditer_facts _ _ _ Hm) as (w & rest & Hw & _ & _ & Hskip).
    assert (Hw3 : forall d, In d ["("; ")"; "{"]%char -> In d code).
    { intros d Hd. apply (in_skipn d (fst m)). rewrite Hskip. apply in_app_iff. left.
      unfold func_pattern in Hw. eapply lang_cats_mem; [|exact Hw]. simpl in Hd.
      destruct Hd as [Hd|[Hd|[Hd|[]]]]; subst d;
        repeat (first [left; reflexivity | right]). }
    simpl in Hc. destruct Hc as [<-|[<-|[<-|[<-|[]]]]].
    - apply Hcode, Hw3. simpl. tauto.
    - apply Hcode, Hw3. simpl. tauto.
    - apply Hcode, Hw3. simpl. tauto.
    - apply find_close_closing in Hf. by apply in_skipn in Hf. }
  induction (finditer func_pattern code) as [|m ms IH]; [done|]. simpl.
  rewrite Hm by (by left). apply IH. intros m' Hm'. apply Hm. by right.
Qed.

Lemma no_record_without_delimiters_witness :
  find_functions_in_file (txt "decl.h") (Some (txt "int f(int x); struct S;")) = [].
Proof.
  apply (no_record_without_delimiters _ _ "{"%char).
  - simpl. tauto.
  - vm_compute. intros H. repeat (destruct H as [H|H]; [discriminate H|]). exact H.
Defined.

Lemma find_functions_cc_positive path content :
  Forall (fun r => 1 <= cc r) (find_functions_in_file path content).
Proof.
  destruct content as [content|]; [|constructor].
  unfold find_functions_in_file. apply List.Forall_forall. intros r Hr.
  apply in_flat_map in Hr as (m & _ & Hr).
  destruct (record_of_match_cases path (_strip_comments_and_strings content) m)
    as [He|(r' & He & _ & _ & Hcc)]; rewrite He in Hr; [done|].
  by destruct Hr as [<-|[]].
Qed.

(* ===================================================================== *)
(** * cc.py: more on the aggregation *)
(* ===================================================================== *)

Lemma sum_cc_ge rs : Forall (fun r => 1 <= cc r) rs -> List.length rs <= sum_cc rs.
Proof.
  induction 1 as [|r rs Hr _ IH]; [done|].
  change (r :: rs) with ([r] ++ rs). rewrite sum_cc_app. unfold sum_cc at 1. simpl. lia.
Qed.

Lemma handle_file_cc_positive path r :
  Forall (fun x => 1 <= cc x) (default [] (handle_file path r)).
Proof.
  destruct r as [content| |]; cbn [handle_file default].
  - apply find_functions_cc_positive.
  - apply find_functions_cc_positive.
  - apply List.Forall_nil.
Qed.

Lemma file_records_cc_positive p f : Forall (fun r => 1 <= cc r) (file_records p f).
Proof.
  unfold file_records. destruct (CC.selected p f); [|apply List.Forall_nil].
  apply handle_file_cc_positive.
Qed.

Lemma has_records_le p files :
  List.length (List.filter (has_records p) files)
  <= List.length (flat_map (file_records p) files).
Proof.
  induction files as [|f files IH]; [done|]. simpl. rewrite List.length_app.
  unfold has_records at 1. destruct (file_records p f); simpl; lia.
Qed.

(** X7: whatever the source is, the metrics returned satisfy
    files_count <= len(details) <= total_cc: every counted file has a
    function, and every function counts for at least 1. *)
Theorem cc_metrics_bounds (p : project) (disk : src_kind) (m : cc_metrics) :
  get_cc_metrics p disk = Returned m ->
  files_count m <= List.length (details m) /\ List.length (details m) <= total_cc m.
Proof.
  destruct disk as [|r|files]; simpl; [done| |].
  - destruct (existsb _ _); intros H; inversion H; subst; [|simpl; lia].
    rewrite add_recs_spec. cbn [total_cc files_count details app Nat.add].
    pose proof (sum_cc_ge _ (handle_file_cc_positive (src p) r)) as Hge.
    split; [|exact Hge].
    destruct (default [] (handle_file (src p) r)); simpl; lia.
  - rewrite walk_spec. intros H. inversion H; subst.
    cbn [total_cc files_count details app Nat.add].
    split; [apply has_records_le|]. apply sum_cc_ge.
    apply List.Forall_forall. intros r Hr. apply in_flat_map in Hr as (f & _ & Hr).
    pose proof (file_records_cc_positive p f) as Hf. rewrite List.Forall_forall in Hf. auto.
Qed.

Lemma cc_metrics_bounds_witness :
  let path := txt "f.c" in
  let m := {| total_cc := 2; files_count := 1;
              details := [ {| filename := path; function_start := 1;
                              function_end := 1; cc := 2 |} ] |} in
  files_count m <= List.length (details m) /\ List.length (details m) <= total_cc m.
Proof.
  intros path m.
  apply (cc_metrics_bounds
           {| name := txt "demo"; description := txt ""; src := path;
              src_file_extensions := [txt ".c"]; ignore := None |}
           (SrcFile (ReadText (txt "int f(int x){ if (x) return 1; else return 0; }")))
           m).
  reflexivity.
Defined.

(* ===================================================================== *)
(** * halstead.py: more on the counts *)
(* ===================================================================== *)

Lemma distinct_le l : distinct l <= List.length l.
Proof.
  unfold distinct. apply submseteq_length, NoDup_submseteq; [apply NoDup_remove_dups|].
  intros x. by rewrite elem_of_remove_dups.
Qed.

Lemma distinct_perm l k : l ≡ₚ k -> distinct l = distinct k.
Proof.
  intros H. unfold distinct. apply Permutation_length.
  apply NoDup_Permutation; [apply NoDup_remove_dups..|].
  intros x. rewrite !elem_of_remove_dups. by rewrite H.
Qed.

Lemma distinct_app_le a b : distinct (a ++ b) <= distinct a + distinct b.
Proof.
  unfold distinct. rewrite <- List.length_app.
  apply submseteq_length, NoDup_submseteq; [apply NoDup_remove_dups|].
  intros x. rewrite elem_of_remove_dups, !elem_of_app, !elem_of_remove_dups. done.
Qed.

Lemma distinct_app_ge_l a b : distinct a <= distinct (a ++ b).
Proof.
  unfold distinct. apply submseteq_length, NoDup_submseteq; [apply NoDup_remove_dups|].
  intros x. rewrite !elem_of_remove_dups, elem_of_app. tauto.
Qed.

Lemma distinct_app_ge_r a b : distinct b <= distinct (a ++ b).
Proof.
  unfold distinct. apply submseteq_length, NoDup_submseteq; [apply NoDup_remove_dups|].
  intros x. rewrite !elem_of_remove_dups, elem_of_app. tauto.
Qed.

Lemma distinct_full l : distinct l = List.length l <-> NoDup l.
Proof.
  unfold distinct. induction l as [|x l IH]; [split; [constructor|done]|].
  simpl. pose proof (distinct_le l) as Hle. unfold distinct in Hle.
  rewrite NoDup_cons. case_decide as Hx; simpl.
  - split; [lia|]. tauto.
  - split; [intros H; split; [done|]; apply IH; lia|]. intros [_ H]. apply IH in H. lia.
Qed.

(** X8: the distinct counts never exceed the totals, are equal to them exactly
    when no token repeats, and the vocabulary never exceeds the length. *)
Theorem halstead_distinct_bounds (log2 : float -> float) (operators operands : list text) :
  let h := compute_halstead log2 operators operands in
  n1 h <= N1 h /\ n2 h <= N2 h /\ vocabulary h <= length h
  /\ (n1 h = N1 h <-> NoDup operators)
  /\ (n2 h = N2 h <-> NoDup operands)
  /\ (vocabulary h = length h <-> NoDup operators /\ NoDup operands).
Proof.
  intros h. subst h. unfold compute_halstead.
  cbn [n1 n2 N1 N2 vocabulary length].
  pose proof (distinct_le operators) as H1. pose proof (distinct_le operands) as H2.
  pose proof (distinct_full operators) as F1. pose proof (distinct_full operands) as F2.
  unfold distinct in *. split_and!; try lia; try done.
  rewrite <- F1, <- F2. lia.
Qed.

(** X9: the metrics depend on the two token sequences only through the tokens
    they hold, not through their order. *)
Theorem halstead_order_irrelevant (log2 : float -> float)
    (operators operands operators' operands' : list text) :
  operators ≡ₚ operators' -> operands ≡ₚ operands' ->
  compute_halstead log2 operators operands = compute_halstead log2 operators' operands'.
Proof.
  intros H1 H2. unfold compute_halstead.
  pose proof (distinct_perm _ _ H1) as D1. pose proof (distinct_perm _ _ H2) as D2.
  unfold distinct in *.
  by rewrite D1, D2, (Permutation_length H1), (Permutation_length H2).
Qed.

Lemma halstead_order_irrelevant_witness :
  compute_halstead (fun x => x) [txt "="; txt "+"; txt ";"] [txt "a"; txt "b"; txt "a"]
  = compute_halstead (fun x => x) [txt ";"; txt "="; txt "+"] [txt "a"; txt "a"; txt "b"].
Proof.
  apply halstead_order_irrelevant.
  - exact (Permutation_app_comm [txt "="; txt "+"] [txt ";"]).
  - apply perm_skip, perm_swap.
Defined.

(* ===================================================================== *)
(** * halstead.py: what the tokens are *)
(* ===================================================================== *)

Import Halstead.

Lemma lang_compile_op_len n : forall p w,
  List.length p <= n -> lang (compile_op p) w -> w = operator_text p.
Proof.
  induction n as [|n IH]; intros p w Hlen Hw.
  - destruct p; [|simpl in Hlen; lia]. simpl in Hw. by inversion Hw.
  - destruct p as [|c p]; [simpl in Hw; by inversion Hw|].
    simpl in Hw |- *. destruct (ch_eqb c ch_bslash).
    + destruct p as [|c' p]; [by inversion Hw|].
      inversion Hw as [| |r1 r2 w1 w2 H1 H2| | | | |]; subst.
      apply lang_chr in H1. subst. simpl. f_equal. apply IH; [simpl in Hlen; lia | done].
    + inversion Hw as [| |r1 r2 w1 w2 H1 H2| | | | |]; subst.
      apply lang_chr in H1. subst. simpl. f_equal. apply IH; [simpl in Hlen; lia | done].
Qed.

(** An operator pattern matches its own text and nothing else. *)
Lemma lang_compile_op p w : lang (compile_op p) w -> w = operator_text p.
Proof. by apply (lang_compile_op_len (List.length p)). Qed.

Lemma In_insert_by_len x y l : In x (insert_by_len y l) <-> x = y \/ In x l.
Proof.
  induction l as [|z l IH]; simpl; [naive_solver|].
  destruct (_ <=? _); simpl; [naive_solver|]. rewrite IH. naive_solver.
Qed.

Lemma In_sorted_by_len_desc x l : In x (sorted_by_len_desc l) <-> In x l.
Proof.
  induction l as [|y l IH]; [done|]. unfold sorted_by_len_desc in *. simpl.
  rewrite In_insert_by_len, IH. naive_solver.
Qed.

(** A pass that finds nothing leaves the text as it is, so the test on
    [matches] changes nothing. *)
Lemma pieces_no_hit repl ps :
  flat_map (fun p => match p with Skip _ => [] | Hit _ w => [w] end) ps = [] ->
  sub_pieces repl ps = flat_map piece_text ps.
Proof.
  induction ps as [|[c|i w] ps IH]; [done| |done].
  intros H. unfold sub_pieces in *. simpl. f_equal. by apply IH.
Qed.

Lemma findall_nil_sub r repl s : findall r s = [] -> sub r repl s = s.
Proof.
  unfold findall, sub, pieces. intros H. rewrite (pieces_no_hit _ _ H).
  by apply scan_text.
Qed.

Lemma operator_pass_eq ops code op :
  operator_pass (ops, code) op
  = (ops ++ findall (compile_op op) code, sub (compile_op op) (txt " ") code).
Proof.
  unfold operator_pass. destruct (findall (compile_op op) code) eqn:E; [|done].
  by rewrite (findall_nil_sub _ _ _ E), app_nil_r.
Qed.

Lemma findall_lang r s w : In w (findall r s) -> lang r w /\ w <> [] /\ forall c, In c w -> In c s.
Proof.
  unfold findall, pieces. rewrite in_flat_map. intros ([c|i v] & Hin & Hw); [done|].
  destruct Hw as [->|[]].
  apply scan_hits in Hin as (Hl & Hne & _ & rest & Hr); [|done].
  split_and!; [done..|]. intros c Hc. simpl in Hr.
  apply (in_skipn c i). rewrite Hr. apply in_app_iff. by left.
Qed.

Lemma operators_from l : forall ops code w,
  In w (fold_left operator_pass l (ops, code)).1 ->
  In w ops \/ In w (List.map operator_text l).
Proof.
  induction l as [|op l IH]; intros ops code w H; [by left|].
  cbn [fold_left] in H. rewrite operator_pass_eq in H. apply IH in H as [H|H].
  - apply in_app_iff in H as [H|H]; [by left|]. right. left.
    apply findall_lang in H as [H _]. symmetry. by apply lang_compile_op.
  - right. by right.
Qed.

(** X10: every operator token is the text of an operator of the table. *)
Theorem operators_come_from_table (code w : text) :
  In w (tokenize_source code).1 -> In w (List.map operator_text OPERATORS).
Proof.
  unfold tokenize_source.
  destruct (fold_left operator_pass (sorted_by_len_desc OPERATORS)
              ([], strip_comments_and_strings code)) as [ops code'] eqn:E.
  cbn [fst]. intros H.
  assert (H' : In w (fold_left operator_pass (sorted_by_len_desc OPERATORS)
                       ([], strip_comments_and_strings code)).1) by by rewrite E.
  apply operators_from in H' as [[]|H'].
  apply in_map_iff in H' as (p & <- & Hp). apply in_map_iff. exists p.
  split; [done|]. by apply In_sorted_by_len_desc.
Qed.

Lemma operators_come_from_table_witness :
  In (txt "+=") (List.map operator_text OPERATORS).
Proof.
  apply (operators_come_from_table (txt "a += 1;")). vm_compute. by left.
Defined.

(** A pass for a single character blanks every occurrence of it. *)
Lemma scan_single c : forall fuel pre s,
  ~ In (Skip c) (scan (Cat (chr c) Eps) fuel pre s).
Proof.
  induction fuel as [|f IH]; intros pre s; [simpl; tauto|].
  simpl. destruct s as [|d s].
  - unfold match_at. simpl. tauto.
  - unfold match_at. cbn [mt chr]. destruct (ch_eqb c d) eqn:E.
    + replace (List.length s <? List.length (d :: s)) with true
        by (symmetry; apply Nat.ltb_lt; simpl; lia).
      intros [H|H]; [done|]. by apply IH in H.
    + intros [H|H]; [|by apply IH in H].
      injection H as ->. unfold ch_eqb in E. by rewrite Ascii.eqb_refl in E.
Qed.

Lemma sub_single c repl s : ~ In c repl -> ~ In c (sub (Cat (chr c) Eps) repl s).
Proof.
  intros Hr. unfold sub, pieces.
  pose proof (scan_single c (List.length s) [] s) as Hs.
  induction (scan (Cat (chr c) Eps) (List.length s) [] s) as [|[d|i w] ps IH].
  - simpl. tauto.
  - unfold sub_pieces in *. simpl. intros [->|H]; [apply Hs; by left|].
    apply IH; [|done]. intros H'. apply Hs. by right.
  - unfold sub_pieces in *. simpl. rewrite in_app_iff. intros [H|H]; [done|].
    apply IH; [|done]. intros H'. apply Hs. by right.
Qed.

Lemma pass_removes c : ~ In c (txt " ") -> forall l ops code,
  ~ In c code \/ (exists p, In p l /\ compile_op p = Cat (chr c) Eps) ->
  ~ In c (fold_left operator_pass l (ops, code)).2.
Proof.
  intros Hc. induction l as [|op l IH]; intros ops code H.
  - simpl. destruct H as [H|(p & [] & _)]. done.
  - cbn [fold_left]. rewrite operator_pass_eq. apply IH.
    destruct H as [H|(p & [->|Hp] & Hr)].
    + left. intros H'. apply sub_chars in H' as [H'|H']; [done|]. by apply Hc.
    + left. rewrite Hr. by apply sub_single.
    + right. by exists p.
Qed.

(** Once the operators are blanked, no dot is left in the working text. *)
Lemma no_dot_left code ops code' :
  fold_left operator_pass (sorted_by_len_desc OPERATORS) ([], code) = (ops, code') ->
  ~ In "."%char code'.
Proof.
  intros E.
  pose proof (pass_removes "."%char) as H.
  specialize (H ltac:(simpl; intros [?|[]]; discriminate)
                (sorted_by_len_desc OPERATORS) [] code).
  rewrite E in H. apply H. right. exists (txt "\."). split; [|reflexivity].
  apply In_sorted_by_len_desc. unfold OPERATORS. simpl. tauto.
Qed.

Lemma lang_identifier w : lang IDENTIFIER w -> w <> [] /\ forallb is_ident_char w = true.
Proof.
  intros H. split; [by apply (not_nullable_consumes IDENTIFIER)|].
  apply (lang_within _ IDENTIFIER); [|done].
  unfold IDENTIFIER. cbn [cats cls_within]. split_and!; try done.
  intros c Hc. unfold is_ident_char. by rewrite Hc.
Qed.

Lemma lang_number w :
  lang NUMBER w -> w <> [] /\ forallb (fun c => is_digit c || ch_eqb "."%char c) w = true.
Proof.
  intros H. split; [by apply (not_nullable_consumes NUMBER)|].
  apply (lang_within _ NUMBER); [|done].
  unfold NUMBER, plus, opt. cbn [cats cls_within].
  assert (Hd : forall c, is_digit c = true -> is_digit c || ch_eqb "."%char c = true).
  { intros c Hc. by rewrite Hc. }
  split_and!; try done.
  apply cls_within_chr. unfold ch_eqb. rewrite Ascii.eqb_refl. by rewrite orb_true_r.
Qed.

(** X11: every operand is a non-empty run of letters, digits and underscores:
    no operand holds a dot, whatever the source text. *)
Theorem operands_are_words (code w : text) :
  In w (tokenize_source code).2 ->
  w <> [] /\ forallb is_ident_char w = true /\ ~ In "."%char w.
Proof.
  unfold tokenize_source.
  destruct (fold_left operator_pass (sorted_by_len_desc OPERATORS)
              ([], strip_comments_and_strings code)) as [ops code'] eqn:E.
  apply no_dot_left in E. simpl. intros H.
  assert (Hw : w <> [] /\ forallb is_ident_char w = true).
  { apply in_app_iff in H as [H|H].
    - apply findall_lang in H as [H _]. by apply lang_identifier.
    - apply findall_lang in H as (H & _ & Hsub). apply lang_number in H as [Hne Hall].
      split; [done|]. rewrite forallb_forall in *. intros c Hc.
      specialize (Hall c Hc). unfold is_ident_char.
      destruct (is_digit c); [by rewrite orb_true_r|]. cbn [orb] in Hall.
      unfold ch_eqb in Hall. apply Ascii.eqb_eq in Hall. subst c.
      exfalso. apply E. by apply Hsub. }
  destruct Hw as [Hne Hall]. split_and!; [done..|].
  intros Hd. rewrite forallb_forall in Hall. by specialize (Hall _ Hd).
Qed.

Lemma operands_are_words_witness :
  txt "14" <> [] /\ forallb is_ident_char (txt "14") = true /\ ~ In "."%char (txt "14").
Proof.
  apply (operands_are_words (txt "pi = 3.14;")). vm_compute. tauto.
Defined.

Lemma char_occurrences_app c a b :
  char_occurrences c (a ++ b) = char_occurrences c a + char_occurrences c b.
Proof. unfold char_occurrences. by rewrite List.filter_app, List.length_app. Qed.

Lemma char_occurrences_none c s : ~ In c s -> char_occurrences c s = 0.
Proof.
  unfold char_occurrences. induction s as [|d s IH]; [done|]. intros H. simpl.
  destruct (ch_eqb c d) eqn:E.
  - unfold ch_eqb in E. apply Ascii.eqb_eq in E. subst. exfalso. apply H. by left.
  - apply IH. intros H'. apply H. by right.
Qed.

Lemma char_occurrences_le c s : char_occurrences c s <= List.length s.
Proof. unfold char_occurrences. apply List.filter_length_le. Qed.

(** What one pass does to the length of the text and to its blanks, when
    no match holds a blank: each match is traded for one blank. *)
Lemma blanked_pieces ps :
  (forall i w, In (Hit i w) ps -> ~ In " "%char w) ->
  let hits := flat_map (fun p => match p with Skip _ => [] | Hit _ w => [w] end) ps in
  List.length (sub_pieces (txt " ") ps) + List.length (concat hits)
  = List.length (flat_map piece_text ps) + List.length hits
  /\ char_occurrences " "%char (sub_pieces (txt " ") ps)
     = char_occurrences " "%char (flat_map piece_text ps) + List.length hits.
Proof.
  intros H hits. subst hits. induction ps as [|[c|i w] ps IH]; [done| |].
  - destruct IH as [IH1 IH2]; [intros i w Hin; apply (H i); by right|].
    unfold sub_pieces in *. cbn [flat_map piece_text app concat List.length].
    change (char_occurrences " " (c :: ?l)) with (char_occurrences " " ([c] ++ l)).
    rewrite !char_occurrences_app. lia.
  - destruct IH as [IH1 IH2]; [intros j v Hin; apply (H j); by right|].
    unfold sub_pieces in *. cbn [flat_map piece_text app concat List.length].
    change (char_occurrences " " (" "%char :: ?l)) with (char_occurrences " " ([" "%char] ++ l)).
    rewrite !char_occurrences_app, !List.length_app.
    rewrite (char_occurrences_none " " w) by (apply (H i); by left).
    change (char_occurrences " " (txt " ")) with 1.
    change (List.length (txt " ")) with 1. lia.
Qed.

Lemma blanked_pass r s :
  (forall w, lang r w -> ~ In " "%char w) ->
  List.length (sub r (txt " ") s) + List.length (concat (findall r s))
  = List.length s + List.length (findall r s)
  /\ char_occurrences " "%char (sub r (txt " ") s)
     = char_occurrences " "%char s + List.length (findall r s).
Proof.
  intros H. unfold sub, findall, pieces.
  pose proof (blanked_pieces (scan r (List.length s) [] s)) as Hp.
  rewrite scan_text in Hp by done. apply Hp.
  intros i w Hin. apply H. by apply scan_hits in Hin as [Hl _].
Qed.

Lemma blanked_fold l :
  Forall (fun p => ~ In " "%char (operator_text p)) l ->
  forall ops code,
    let st := fold_left operator_pass l (ops, code) in
    List.length st.2 + List.length (concat st.1) + List.length ops
    = List.length code + List.length (concat ops) + List.length st.1
    /\ char_occurrences " "%char st.2 + List.length ops
       = char_occurrences " "%char code + List.length st.1.
Proof.
  induction 1 as [|op l Hop Hl IH]; intros ops code; [simpl; lia|].
  cbn [fold_left]. rewrite operator_pass_eq.
  specialize (IH (ops ++ findall (compile_op op) code)
                 (sub (compile_op op) (txt " ") code)).
  cbv zeta in IH |- *. destruct IH as [IH1 IH2].
  destruct (blanked_pass (compile_op op) code) as [P1 P2].
  { intros w Hw. apply lang_compile_op in Hw. by subst. }
  rewrite concat_app, !List.length_app in *. lia.
Qed.

Lemma operators_no_blank :
  Forall (fun p => ~ In " "%char (operator_text p)) (sorted_by_len_desc OPERATORS).
Proof.
  apply List.Forall_forall. intros p Hp. rewrite In_sorted_by_len_desc in Hp.
  assert (H : forallb (fun p => negb (existsb (ch_eqb " "%char) (operator_text p))) OPERATORS
              = true) by reflexivity.
  rewrite forallb_forall in H. specialize (H p Hp). apply negb_true_iff in H. intros Hin.
  assert (existsb (ch_eqb " "%char) (operator_text p) = true); [|congruence].
  apply existsb_exists. exists " "%char. split; [done|]. unfold ch_eqb. by rewrite Ascii.eqb_refl.
Qed.

(** X12: no character is counted in two operator tokens: the operator tokens
    together hold no more characters than the stripped text has outside its
    blanks, so there are never more operator tokens than characters. *)
Theorem operators_fit_in_text (code : text) :
  let stripped := strip_comments_and_strings code in
  let ops := (tokenize_source code).1 in
  List.length (concat ops) + char_occurrences " "%char stripped <= List.length stripped
  /\ List.length ops <= List.length (concat ops).
Proof.
  intros stripped ops. subst stripped ops. unfold tokenize_source.
  pose proof (blanked_fold _ operators_no_blank [] (strip_comments_and_strings code)) as H.
  cbv zeta in H.
  destruct (fold_left operator_pass (sorted_by_len_desc OPERATORS)
              ([], strip_comments_and_strings code)) as [ops code'] eqn:E.
  cbn [fst snd] in *. destruct H as [H1 H2]. simpl in H1, H2.
  pose proof (char_occurrences_le " "%char code') as Hle.
  split; [lia|].
  assert (Hne : forall w, In w ops -> w <> []).
  { intros w Hw.
    assert (H' : In w (fold_left operator_pass (sorted_by_len_desc OPERATORS)
                       ([], strip_comments_and_strings code)).1) by by rewrite E.
    apply operators_from in H' as [[]|H'].
    apply in_map_iff in H' as (p & <- & Hp). rewrite In_sorted_by_len_desc in Hp.
    assert (Hb : forallb (fun p => negb (Nat.eqb (List.length (operator_text p)) 0)) OPERATORS
                 = true) by reflexivity.
    rewrite forallb_forall in Hb. specialize (Hb p Hp).
    intros Hnil. by rewrite Hnil in Hb. }
  clear -Hne. induction ops as [|w ops IH]; [done|].
  simpl. rewrite List.length_app.
  assert (w <> []) by (apply Hne; by left).
  destruct w; [done|]. simpl.
  assert (List.length ops <= List.length (concat ops)) by (apply IH; intros v Hv; apply Hne; by right).
  lia.
Qed.

(* ===================================================================== *)
(** * halstead.py: a directory *)
(* ===================================================================== *)

Import HalsteadFiles.

Lemma collect_spec ext ign fs : forall a b,
  fold_left (collect ext ign) fs (a, b)
  = (a ++ concat (List.map (fun f => (file_tokens ext ign f).1) fs),
     b ++ concat (List.map (fun f => (file_tokens ext ign f).2) fs)).
Proof.
  induction fs as [|f fs IH]; intros a b; [simpl; by rewrite !app_nil_r|].
  cbn [fold_left List.map concat]. unfold collect at 2, file_tokens at 1 3.
  destruct (selected ext ign f); [|simpl; by rewrite IH].
  destruct (hf_read f) as [code|]; [|simpl; by rewrite IH].
  destruct (tokenize_source code) as [ops oprs]. by rewrite IH, <- !app_assoc.
Qed.

Lemma analyze_directory_spec_h log2 d fs ext ign :
  analyze_directory log2 d (Some fs) ext ign
  = CC.Returned
      (compute_halstead log2
         (concat (List.map (fun f => (file_tokens ext ign f).1) fs))
         (concat (List.map (fun f => (file_tokens ext ign f).2) fs))).
Proof. unfold analyze_directory. by rewrite collect_spec. Qed.

Lemma length_concat_sum {A B : Type} (g : A -> list B) l :
  List.length (concat (List.map g l)) = list_sum (List.map (fun x => List.length (g x)) l).
Proof. induction l as [|x l IH]; [done|]. simpl. by rewrite List.length_app, IH. Qed.

Lemma distinct_concat_le {A : Type} (g : A -> list text) l :
  distinct (concat (List.map g l)) <= list_sum (List.map (fun x => distinct (g x)) l).
Proof.
  induction l as [|x l IH]; [done|]. simpl.
  pose proof (distinct_app_le (g x) (concat (List.map g l))). lia.
Qed.

Lemma distinct_concat_ge {A : Type} (g : A -> list text) l x :
  In x l -> distinct (g x) <= distinct (concat (List.map g l)).
Proof.
  induction l as [|y l IH]; [done|]. simpl. intros [->|H].
  - apply distinct_app_ge_l.
  - etrans; [by apply IH|]. apply distinct_app_ge_r.
Qed.

Lemma length_concat_ge {A B : Type} (g : A -> list B) l x :
  In x l -> List.length (g x) <= List.length (concat (List.map g l)).
Proof.
  induction l as [|y l IH]; [done|]. simpl. rewrite List.length_app. intros [->|H]; [lia|].
  apply IH in H. lia.
Qed.

(** X13: the totals of a directory are the sums of the totals of its files; its
    distinct counts lie between those of each file and their sum.  A file
    that is passed over counts as one without tokens. *)
Theorem halstead_directory_totals (log2 : float -> float) (d : text)
    (fs : list dir_file) (ext : list text) (ign : option (list regex)) (h : halstead) :
  analyze_directory log2 d (Some fs) ext ign = CC.Returned h ->
  N1 h = list_sum (List.map (fun f => List.length (file_tokens ext ign f).1) fs)
  /\ N2 h = list_sum (List.map (fun f => List.length (file_tokens ext ign f).2) fs)
  /\ n1 h <= list_sum (List.map (fun f => distinct (file_tokens ext ign f).1) fs)
  /\ n2 h <= list_sum (List.map (fun f => distinct (file_tokens ext ign f).2) fs)
  /\ Forall (fun f => distinct (file_tokens ext ign f).1 <= n1 h
                      /\ distinct (file_tokens ext ign f).2 <= n2 h) fs.
Proof.
  rewrite analyze_directory_spec_h. intros [= <-].
  unfold compute_halstead. cbn [n1 n2 N1 N2]. split_and!.
  - apply length_concat_sum.
  - apply length_concat_sum.
  - apply (distinct_concat_le (fun f => (file_tokens ext ign f).1)).
  - apply (distinct_concat_le (fun f => (file_tokens ext ign f).2)).
  - apply List.Forall_forall. intros f Hf. split.
    + by apply (distinct_concat_ge (fun f => (file_tokens ext ign f).1)).
    + by apply (distinct_concat_ge (fun f => (file_tokens ext ign f).2)).
Qed.

Lemma halstead_directory_totals_witness :
  let fs := [ {| hf_name := txt "a.c"; hf_read := Some (txt "x = y + 1;") |};
              {| hf_name := txt "b.c"; hf_read := None |};
              {| hf_name := txt "c.h"; hf_read := Some (txt "z = 2;") |} ] in
  let ext := [txt ".c"] in
  let h := compute_halstead (fun x => x)
             [txt "="; txt "+"; txt ";"] [txt "x"; txt "y"; txt "1"] in
  N1 h = list_sum (List.map (fun f => List.length (file_tokens ext None f).1) fs)
  /\ N2 h = list_sum (List.map (fun f => List.length (file_tokens ext None f).2) fs)
  /\ n1 h <= list_sum (List.map (fun f => distinct (file_tokens ext None f).1) fs)
  /\ n2 h <= list_sum (List.map (fun f => distinct (file_tokens ext None f).2) fs)
  /\ Forall (fun f => distinct (file_tokens ext None f).1 <= n1 h
                      /\ distinct (file_tokens ext None f).2 <= n2 h) fs.
Proof.
  intros fs ext h.
  apply (halstead_directory_totals (fun x => x) (txt "src") fs ext None h).
  vm_compute. reflexivity.
Defined.

(** X14: the counts of a directory are at least those of each of its files
    analysed on its own. *)
Theorem halstead_directory_dominates (log2 : float -> float) (d : text)
    (fs : list dir_file) (ext : list text) (ign : option (list regex))
    (f : dir_file) (hf h : halstead) :
  In f fs -> selected ext ign f = true ->
  analyze_file log2 (hf_read f) = Some hf ->
  analyze_directory log2 d (Some fs) ext ign = CC.Returned h ->
  n1 hf <= n1 h /\ n2 hf <= n2 h /\ N1 hf <= N1 h /\ N2 hf <= N2 h
  /\ vocabulary hf <= vocabulary h /\ length hf <= length h.
Proof.
  intros Hin Hsel Hf. rewrite analyze_directory_spec_h. intros [= <-].
  unfold analyze_file in Hf. destruct (hf_read f) as [code|] eqn:Er; [|done].
  destruct (tokenize_source code) as [ops oprs] eqn:Et. injection Hf as <-.
  pose proof (distinct_concat_ge (fun f => (file_tokens ext ign f).1) fs f Hin) as D1.
  pose proof (distinct_concat_ge (fun f => (file_tokens ext ign f).2) fs f Hin) as D2.
  pose proof (length_concat_ge (fun f => (file_tokens ext ign f).1) fs f Hin) as L1.
  pose proof (length_concat_ge (fun f => (file_tokens ext ign f).2) fs f Hin) as L2.
  assert (Hft : file_tokens ext ign f = (ops, oprs)).
  { unfold file_tokens. by rewrite Hsel, Er. }
  cbv beta in D1, D2, L1, L2. rewrite Hft in D1, D2, L1, L2.
  cbn [fst snd] in D1, D2, L1, L2.
  unfold compute_halstead, distinct in *. cbn [n1 n2 N1 N2 vocabulary length]. lia.
Qed.

Lemma halstead_directory_dominates_witness :
  let f := {| hf_name := txt "a.c"; hf_read := Some (txt "x = y + 1;") |} in
  let g := {| hf_name := txt "b.c"; hf_read := Some (txt "x = x * 2;") |} in
  let hf := compute_halstead (fun x => x)
              [txt "="; txt "+"; txt ";"] [txt "x"; txt "y"; txt "1"] in
  let h := compute_halstead (fun x => x)
             [txt "="; txt "+"; txt ";"; txt "="; txt "*"; txt ";"]
             [txt "x"; txt "y"; txt "1"; txt "x"; txt "x"; txt "2"] in
  n1 hf <= n1 h /\ n2 hf <= n2 h /\ N1 hf <= N1 h /\ N2 hf <= N2 h
  /\ vocabulary hf <= vocabulary h /\ length hf <= length h.
Proof.
  intros f g hf h.
  apply (halstead_directory_dominates (fun x => x) (txt "src") [f; g] [txt ".c"] None f hf h).
  - by left.
  - reflexivity.
  - vm_compute. reflexivity.
  - vm_compute. reflexivity.
Defined.

Lemma concat_map_filter {A B : Type} (g : A -> list B) (keep : A -> bool) l :
  (forall x, keep x = false -> g x = []) ->
  concat (List.map g l) = concat (List.map g (List.filter keep l)).
Proof.
  intros H. induction l as [|x l IH]; [done|].
  cbn [List.filter List.map concat]. destruct (keep x) eqn:E.
  - cbn [List.map concat]. by rewrite IH.
  - by rewrite (H x E), IH.
Qed.

Lemma file_tokens_passed_over ext ign f :
  selected ext ign f && bool_decide (is_Some (hf_read f)) = false ->
  file_tokens ext ign f = ([], []).
Proof.
  unfold file_tokens. destruct (selected ext ign f); [|done].
  destruct (hf_read f) as [code|]; [|done].
  rewrite bool_decide_true by eauto. done.
Qed.

(** X15: files that are not selected or cannot be read change nothing, a
    missing directory raises, and a directory of one selected readable file
    has that file's metrics. *)
Theorem halstead_directory_skips (log2 : float -> float) (d : text)
    (fs : list dir_file) (ext : list text) (ign : option (list regex)) :
  let kept f := selected ext ign f && bool_decide (is_Some (hf_read f)) in
  analyze_directory log2 d (Some fs) ext ign
  = analyze_directory log2 d (Some (List.filter kept fs)) ext ign
  /\ analyze_directory log2 d None ext ign = CC.FileNotFoundError d
  /\ forall f : dir_file,
       match analyze_file log2 (hf_read f) with
       | Some hf =>
           analyze_directory log2 d (Some [f]) ext ign
           = CC.Returned (if selected ext ign f then hf else compute_halstead log2 [] [])
       | None => analyze_directory log2 d (Some [f]) ext ign
                 = CC.Returned (compute_halstead log2 [] [])
       end.
Proof.
  intros kept. split_and!; [|done|].
  - rewrite !analyze_directory_spec_h. do 2 f_equal.
    + apply (concat_map_filter (fun f => (file_tokens ext ign f).1)).
      intros f Hf. by rewrite file_tokens_passed_over.
    + apply (concat_map_filter (fun f => (file_tokens ext ign f).2)).
      intros f Hf. by rewrite file_tokens_passed_over.
  - intros f. rewrite analyze_directory_spec_h.
    cbn [List.map concat]. rewrite !app_nil_r. unfold file_tokens, analyze_file.
    destruct (hf_read f) as [code|]; [|by destruct (selected ext ign f)].
    destruct (tokenize_source code) as [ops oprs]. by destruct (selected ext ign f).
Qed.

(* ===================================================================== *)
(** * dfc.py: the blocks and the sum *)
(* ===================================================================== *)

Module DfcMore.

Import Dfc DfcFacts.

Lemma grows_refl a : grows a a.
Proof. exists []. by rewrite app_nil_r. Qed.

Lemma grows_trans a b c : grows a b -> grows b c -> grows a c.
Proof.
  intros (n1 & E1 & F1) (n2 & E2 & F2). exists (n1 ++ n2).
  split; [by rewrite E2, E1, app_assoc | by apply List.Forall_app].
Qed.

Lemma grows_same a a' : blocks a' = blocks a -> grows a a'.
Proof. intros H. exists []. by rewrite app_nil_r. Qed.

Lemma grows_add_block a : grows a (add_block a).
Proof.
  unfold add_block. case_decide as H.
  - by apply grows_same.
  - exists [current_block a]. split; [done|]. constructor; [|constructor].
    unfold records_something.
    destruct (decide (defs (current_block a) = ∅)) as [Hd|Hd]; [|by left].
    destruct (decide (uses (current_block a) = ∅)) as [Hu|Hu]; [|by right].
    by destruct H.
Qed.

(** A visit leaves the blocks it finds as they are and adds only blocks
    that record something. *)
Lemma visit_grows n : forall a, grows a (visit n a).
Proof.
  assert (Hopt : forall o, P_opt (fun n => forall a, grows a (visit n a)) o ->
            forall a, grows a (match o with Some c => visit c a | None => a end)).
  { intros [c|] H a; [apply H | apply grows_refl]. }
  assert (Hblk : forall o, P_opt (fun n => forall a, grows a (visit n a)) o ->
            forall a, grows a (match o with Some c => add_block (visit c a) | None => a end)).
  { intros [c|] H a; [|apply grows_refl].
    eapply grows_trans; [apply H | apply grows_add_block]. }
  induction n as [name|l r _ IHr|c t f IHc IHt IHf|c s IHc IHs|i c nx s IHi IHc IHn IHs|cs IH]
    using node_induction; intros a.
  - by apply grows_same.
  - cbn [visit].
    eapply grows_trans; [|apply (Hopt r IHr)].
    destruct l; try apply grows_refl. by apply grows_same.
  - cbn [visit].
    eapply grows_trans; [|apply (Hblk f IHf)].
    eapply grows_trans; [|apply (Hblk t IHt)].
    eapply grows_trans; [|apply grows_add_block]. apply (Hopt c IHc).
  - cbn [visit].
    eapply grows_trans; [|apply grows_add_block].
    eapply grows_trans; [|apply (Hopt s IHs)].
    eapply grows_trans; [|apply grows_add_block]. apply (Hopt c IHc).
  - cbn [visit].
    eapply grows_trans; [|apply grows_add_block].
    eapply grows_trans; [|apply (Hopt s IHs)].
    eapply grows_trans; [|apply grows_add_block].
    eapply grows_trans; [|apply (Hopt nx IHn)].
    eapply grows_trans; [|apply (Hopt c IHc)]. apply (Hopt i IHi).
  - cbn [visit]. revert a. induction IH as [|c cs Hc _ IHcs]; intros a.
    + apply grows_refl.
    + eapply grows_trans; [apply Hc | apply IHcs].
Qed.

Lemma compute_blocks ast :
  (compute_data_flow_complexity ast).2 = blocks (add_block (visit ast init)).
Proof.
  unfold compute_data_flow_complexity.
  by destruct (blocks (add_block (visit ast init))).
Qed.

Lemma compute_blocks_record ast :
  Forall records_something (compute_data_flow_complexity ast).2.
Proof.
  rewrite compute_blocks.
  destruct (grows_trans _ _ _ (visit_grows ast init) (grows_add_block _))
    as (new & E & F).
  by rewrite E.
Qed.

Lemma step_out_union prev b : step_out prev b = prev ∪ defs b.
Proof.
  unfold step_out. apply set_eq. intros x.
  destruct (decide (x ∈ defs b)); set_solver.
Qed.

Lemma defined_within_cons n b bs :
  defined_within (S n) (b :: bs) = defs b ∪ defined_within n bs.
Proof. done. Qed.

Lemma chain_closed bs : forall prev,
  chain prev bs
  = List.map (fun i => prev ∪ defined_within (S i) bs) (seq 0 (List.length bs)).
Proof.
  induction bs as [|b bs IH]; intros prev; [done|].
  cbn [chain List.length seq List.map]. rewrite IH, step_out_union. f_equal.
  - unfold defined_within. simpl. set_solver.
  - rewrite <- seq_shift, List.map_map. apply List.map_ext. intros i.
    rewrite defined_within_cons. set_solver.
Qed.

Lemma compute_sum ast :
  (compute_data_flow_complexity ast).1
  = list_sum (List.map size (chain ∅ (compute_data_flow_complexity ast).2)).
Proof.
  rewrite compute_blocks. unfold compute_data_flow_complexity.
  destruct (blocks (add_block (visit ast init))) as [|b bs] eqn:E; [done|].
  cbn [fst].
  destruct (while_changed_exits (b :: bs) (List.map (fun _ => ∅) (b :: bs)) 0) as [H _];
    [by rewrite List.length_map|].
  change (2 + 0) with 2 in H. by rewrite H.
Qed.

Lemma chain_sum_zero bs : forall prev,
  list_sum (List.map size (chain prev bs)) = 0
  <-> bs = [] \/ (prev = ∅ /\ Forall (fun b => defs b = ∅) bs).
Proof.
  induction bs as [|b bs IH]; intros prev; [simpl; tauto|].
  cbn [chain List.map list_sum]. rewrite step_out_union. split.
  - intros H. right.
    change (size (prev ∪ defs b) + list_sum (List.map size (chain (prev ∪ defs b) bs)) = 0)
      in H.
    assert (H1 : size (prev ∪ defs b) = 0) by lia.
    assert (H2 : list_sum (List.map size (chain (prev ∪ defs b) bs)) = 0) by lia.
    apply size_empty_iff in H1. apply leibniz_equiv in H1.
    assert (Hp : prev = ∅) by set_solver. assert (Hd : defs b = ∅) by set_solver.
    split; [done|]. constructor; [done|].
    apply IH in H2 as [->|[_ H2]]; [constructor | done].
  - intros [H|[-> H]]; [done|]. inversion H as [|b' bs' Hb Hbs]; subst.
    rewrite Hb. replace (∅ ∪ ∅ : gset string) with (∅ : gset string) by set_solver.
    rewrite size_empty. simpl. apply IH. right. by split.
Qed.

Lemma defined_within_sub n bs : defined_within n bs ⊆ defined_within (List.length bs) bs.
Proof.
  unfold defined_within. rewrite firstn_all. intros x Hx.
  apply elem_of_union_list in Hx as (X & HX & Hx). apply elem_of_union_list.
  exists X. split; [|done]. apply list_elem_of_fmap in HX as (b & -> & Hb).
  apply list_elem_of_fmap. exists b. split; [done|].
  apply list_elem_of_In. apply list_elem_of_In in Hb.
  rewrite <- (firstn_skipn n bs). apply in_app_iff. by left.
Qed.

Lemma sum_le_bound {A : Type} (g : A -> nat) (m : nat) l :
  (forall x, In x l -> g x <= m) -> list_sum (List.map g l) <= List.length l * m.
Proof.
  induction l as [|x l IH]; intros H; [done|]. simpl.
  assert (g x <= m) by (apply H; by left).
  assert (list_sum (List.map g l) <= List.length l * m) by (apply IH; intros y Hy; apply H; by right).
  lia.
Qed.

Lemma compute_closed_form ast :
  let d := (compute_data_flow_complexity ast).1 in
  let bs := (compute_data_flow_complexity ast).2 in
  let n := List.length bs in
  d = list_sum (List.map (fun i => size (defined_within (S i) bs)) (seq 0 n))
  /\ (d = 0 <-> Forall (fun b => defs b = ∅) bs)
  /\ size (defined_within n bs) <= d
  /\ d <= n * size (defined_within n bs).
Proof.
  intros d bs n. subst d n.
  pose proof (compute_sum ast) as Hs. fold bs in Hs.
  assert (Hc : chain ∅ bs
               = List.map (fun i => defined_within (S i) bs) (seq 0 (List.length bs))).
  { rewrite chain_closed. apply List.map_ext. intros i. set_solver. }
  split_and!.
  - by rewrite Hs, Hc, List.map_map.
  - rewrite Hs, chain_sum_zero. split.
    + intros [->|[_ H]]; [constructor | done].
    + intros H. right. by split.
  - rewrite Hs, Hc, List.map_map.
    generalize (List.length bs). intros [|k].
    + change (defined_within 0 bs) with (∅ : gset string). rewrite size_empty. lia.
    + rewrite seq_S, List.map_app, list_sum_app. simpl. lia.
  - rewrite Hs, Hc, List.map_map.
    etrans; [apply (sum_le_bound _ (size (defined_within (List.length bs) bs)))|].
    + intros i _. apply subseteq_size, defined_within_sub.
    + by rewrite List.length_seq.
Qed.

Lemma analyze_file_cases env :
  analyze_file env = (0, []) \/ exists ast, analyze_file env = compute_data_flow_complexity ast.
Proof.
  unfold analyze_file.
  set (tier3 := match run_cpp env with Some _ => _ | None => _ end).
  assert (T3 : tier3 = (0, []) \/ exists ast, tier3 = compute_data_flow_complexity ast).
  { subst tier3. destruct (run_cpp env) as [[rc out]|]; [|by left].
    destruct (_ && _); [|by left].
    destruct (parse env out) as [ast|]; [right; by exists ast | by left]. }
  set (tier2 := match parse_file env with Some _ => _ | None => _ end).
  assert (T2 : tier2 = (0, []) \/ exists ast, tier2 = compute_data_flow_complexity ast).
  { subst tier2. destruct (parse_file env) as [ast|]; [|done].
    destruct (compute_data_flow_complexity ast) as [d bs] eqn:E.
    destruct bs; [done|]. right. by exists ast. }
  destruct (read_text env) as [code|]; [|done].
  destruct (parse env code) as [ast|]; [|done].
  destruct (compute_data_flow_complexity ast) as [d bs] eqn:E.
  destruct bs; [done|]. right. by exists ast.
Qed.

Lemma analyze_file_no_blocks env : (analyze_file env).2 = [] -> (analyze_file env).1 = 0.
Proof.
  destruct (analyze_file_cases env) as [->|(ast & ->)]; [done|].
  intros H. by rewrite (compute_no_blocks ast H).
Qed.

End DfcMore.

Import DfcMore.

(** X16: every block of a result records a definition or a use: the analyzer
    never emits an empty block. *)
Theorem blocks_record_something (ast : node) :
  Forall records_something (Dfc.compute_data_flow_complexity ast).2.
Proof.
  rewrite compute_blocks.
  pose proof (visit_grows ast Dfc.init) as Hv.
  pose proof (grows_add_block (Dfc.visit ast Dfc.init)) as Ha.
  destruct (grows_trans _ _ _ Hv Ha) as (new & E & F).
  by rewrite E.
Qed.

(** X17: the complexity in closed form: block [i] contributes the number of
    names defined in blocks 0 to [i], uses count for nothing beyond keeping
    a block alive.  So it is 0 exactly when no block defines anything, and
    it lies between the number of names defined and that number times the
    number of blocks. *)
Theorem dfc_closed_form (ast : node) :
  let d := (Dfc.compute_data_flow_complexity ast).1 in
  let bs := (Dfc.compute_data_flow_complexity ast).2 in
  let n := List.length bs in
  d = list_sum (List.map (fun i => size (defined_within (S i) bs)) (seq 0 n))
  /\ (d = 0 <-> Forall (fun b => Dfc.defs b = ∅) bs)
  /\ size (defined_within n bs) <= d
  /\ d <= n * size (defined_within n bs).
Proof.
  intros d bs n. subst d n.
  pose proof (compute_sum ast) as Hs. fold bs in Hs.
  assert (Hc : chain ∅ bs
               = List.map (fun i => defined_within (S i) bs) (seq 0 (List.length bs))).
  { rewrite chain_closed. apply List.map_ext. intros i. set_solver. }
  split_and!.
  - by rewrite Hs, Hc, List.map_map.
  - rewrite Hs, chain_sum_zero. split.
    + intros [->|[_ H]]; [constructor | done].
    + intros H. right. by split.
  - rewrite Hs, Hc, List.map_map.
    generalize (List.length bs). intros [|k].
    + change (defined_within 0 bs) with (∅ : gset string). rewrite size_empty. lia.
    + rewrite seq_S, List.map_app, list_sum_app. simpl. lia.
  - rewrite Hs, Hc, List.map_map.
    etrans; [apply (sum_le_bound _ (size (defined_within (List.length bs) bs)))|].
    + intros i _. apply subseteq_size, defined_within_sub.
    + by rewrite List.length_seq.
Qed.

(** X18: whatever the three tiers do, the result of a file has the shape of an
    analysis: every block records something, a result without blocks has
    complexity 0, and the complexity is 0 exactly when no block defines a
    name and never exceeds the number of blocks times the number of names
    defined. *)
Theorem analyze_file_sound (env : Dfc.file_env) :
  let d := (Dfc.analyze_file env).1 in
  let bs := (Dfc.analyze_file env).2 in
  Forall records_something bs
  /\ (d = 0 <-> Forall (fun b => Dfc.defs b = ∅) bs)
  /\ size (defined_within (List.length bs) bs) <= d
  /\ d <= List.length bs * size (defined_within (List.length bs) bs).
Proof.
  intros d bs. subst d bs.
  destruct (analyze_file_cases env) as [->|(ast & ->)].
  - cbn [fst snd]. split_and!; [constructor | done | |].
    + change (defined_within _ []) with (∅ : gset string). by rewrite size_empty.
    + simpl. lia.
  - destruct (compute_closed_form ast) as (_ & H2 & H3 & H4).
    split_and!; [apply compute_blocks_record | done..].
Qed.

(** X19: the sums of a directory: every selected file counts as a file, with
    the complexity and the blocks its analysis gives; a directory without
    any block has complexity 0. *)
Theorem dfc_directory_sums (directory : text) (fs : list Dfc.dir_file)
    (extensions : list text) (ignore : option (list regex)) (m : Dfc.dfc_metrics) :
  Dfc.analyze_directory directory (Some fs) extensions ignore = Returned m ->
  let sel := List.filter (Dfc.selected extensions ignore) fs in
  Dfc.dfc m = list_sum (List.map (fun f => (Dfc.analyze_file (Dfc.df_env f)).1) sel)
  /\ Dfc.blocks_total m
     = list_sum (List.map (fun f => List.length (Dfc.analyze_file (Dfc.df_env f)).2) sel)
  /\ Dfc.files m = List.length sel
  /\ Dfc.files m <= List.length fs
  /\ (Dfc.blocks_total m = 0 -> Dfc.dfc m = 0).
Proof.
  unfold Dfc.analyze_directory. rewrite analyze_directory_spec. cbv zeta.
  intros [= <-]. cbn [Dfc.dfc Dfc.files Dfc.blocks_total].
  split_and!; [done.. | apply List.filter_length_le |].
  simpl. generalize (List.filter (Dfc.selected extensions ignore) fs). clear. intros l.
  induction l as [|f l IH]; [done|]. simpl. intros H.
  destruct (Dfc.analyze_file (Dfc.df_env f)) as [d bs] eqn:E.
  pose proof (analyze_file_no_blocks (Dfc.df_env f)) as Hz. rewrite E in Hz.
  simpl in *. destruct bs; [|simpl in H; lia]. rewrite Hz by done. apply IH. simpl in H. lia.
Qed.


(** Two files, one of them not selected: x = y; if (x) y = x; z = y gives
    three blocks and complexity 6. *)
Lemma dfc_directory_sums_witness :
  let ast := Other [ Assignment (ID "x") (Some (ID "y"));
                     If (Some (ID "x")) (Some (Assignment (ID "y") (Some (ID "x")))) None;
                     Assignment (ID "z") (Some (ID "y")) ]%string in
  let env := {| Dfc.read_text := Some (txt "x = y; if (x) y = x; z = y;");
                Dfc.parse := fun _ => Some ast;
                Dfc.parse_file := None;
                Dfc.run_cpp := None |} in
  let fs := [ {| Dfc.df_name := txt "a.c"; Dfc.df_env := env |};
              {| Dfc.df_name := txt "a.h"; Dfc.df_env := env |} ] in
  let m := {| Dfc.dfc := 6; Dfc.files := 1; Dfc.blocks_total := 3 |} in
  let sel := List.filter (Dfc.selected [txt ".c"] None) fs in
  Dfc.dfc m = list_sum (List.map (fun f => (Dfc.analyze_file (Dfc.df_env f)).1) sel)
  /\ Dfc.blocks_total m
     = list_sum (List.map (fun f => List.length (Dfc.analyze_file (Dfc.df_env f)).2) sel)
  /\ Dfc.files m = List.length sel
  /\ Dfc.files m <= List.length fs
  /\ (Dfc.blocks_total m = 0 -> Dfc.dfc m = 0).
Proof.
  intros ast env fs m.
  apply (dfc_directory_sums (txt "src") fs [txt ".c"] None m).
  vm_compute. reflexivity.
Defined.

(** X20: a project whose source is a file counts it as one file, with the
    complexity and the number of blocks [analyze_file] gives for it,
    whatever its name; the same file alone in a directory counts only if
    its name is selected, and then with the same numbers. *)
Theorem project_file_counts_once (path name : text) (env : Dfc.file_env)
    (extensions : list text) (ignore : option (list regex)) :
  let f := {| Dfc.df_name := name; Dfc.df_env := env |} in
  let one := {| Dfc.dfc := (Dfc.analyze_file env).1;
                Dfc.files := 1;
                Dfc.blocks_total := List.length (Dfc.analyze_file env).2 |} in
  DfcProject.get_dfc_metrics path (DfcProject.SrcFile env) extensions ignore = Returned one
  /\ (Dfc.blocks_total one = 0 -> Dfc.dfc one = 0)
  /\ Dfc.analyze_directory path (Some [f]) extensions ignore
     = Returned (if Dfc.selected extensions ignore f then one
                 else {| Dfc.dfc := 0; Dfc.files := 0; Dfc.blocks_total := 0 |})
  /\ (forall listing,
        DfcProject.get_dfc_metrics path (DfcProject.SrcOther listing) extensions ignore
        = Dfc.analyze_directory path listing extensions ignore).
Proof.
  intros f one. subst f one.
  pose proof (analyze_file_no_blocks env) as Hz.
  unfold DfcProject.get_dfc_metrics, Dfc.analyze_directory. cbn [fold_left].
  destruct (Dfc.analyze_file env) as [d bs] eqn:E.
  cbn [fst snd Dfc.dfc Dfc.files Dfc.blocks_total Dfc.df_env] in *.
  split_and!; [done| | |done].
  - intros H. apply Hz. by destruct bs.
  - destruct (Dfc.selected _ _ _); [|done]. by rewrite E.
Qed.


(* ===================================================================== *)
(** * dfc_lizard.py: the estimate over files and directories *)
(* ===================================================================== *)

Module LizardFacts.

Import DfcLizard DfcLizardFiles.

Lemma estimate_product f :
  estimate_dfc_from_function f
  = ((parameter_count f + 1) * Z.max 0 (cyclomatic_complexity f - 1))%Z.
Proof. unfold estimate_dfc_from_function. cbv zeta. ring. Qed.

Lemma estimate_nonneg f :
  (0 <= parameter_count f)%Z -> (0 <= estimate_dfc_from_function f)%Z.
Proof. intros H. rewrite estimate_product. apply Z.mul_nonneg_nonneg; lia. Qed.

Lemma estimate_zero f :
  (0 <= parameter_count f)%Z ->
  estimate_dfc_from_function f = 0%Z <-> (cyclomatic_complexity f <= 1)%Z.
Proof.
  intros H. rewrite estimate_product. split.
  - intros E. apply Z.mul_eq_0 in E as [E|E]; lia.
  - intros E. rewrite Z.max_l by lia. ring.
Qed.

Lemma analyze_fold fl : forall d n,
  fold_left (fun '(total_dfc, func_count) func =>
               ((total_dfc + estimate_dfc_from_function func)%Z, func_count + 1))
            fl (d, n)
  = ((d + fold_right Z.add 0%Z (List.map estimate_dfc_from_function fl))%Z,
     n + List.length fl).
Proof.
  induction fl as [|f fl IH]; intros d n.
  - simpl. f_equal; lia.
  - cbn [fold_left]. rewrite IH. cbn [List.map fold_right List.length]. f_equal; lia.
Qed.

Lemma sum_nonneg fl :
  Forall (fun f => (0 <= parameter_count f)%Z) fl ->
  (0 <= fold_right Z.add 0%Z (List.map estimate_dfc_from_function fl))%Z
  /\ (fold_right Z.add 0%Z (List.map estimate_dfc_from_function fl) = 0%Z
      <-> Forall (fun f => (cyclomatic_complexity f <= 1)%Z) fl).
Proof.
  induction 1 as [|f fl Hf Hfl [IH1 IH2]]; [simpl; split; [lia | split; [constructor | done]]|].
  cbn [List.map fold_right]. pose proof (estimate_nonneg f Hf) as Hn.
  pose proof (estimate_zero f Hf) as Hz. split; [lia|]. split.
  - intros E. constructor; [apply Hz; lia | apply IH2; lia].
  - intros E. inversion E as [|f' fl' Ef Efl]; subst.
    apply Hz in Ef. apply IH2 in Efl. lia.
Qed.

Lemma lizard_directory_spec extensions ignore fs : forall acc,
  fold_left (fun acc f =>
     if selected extensions ignore f then
       let '(d, funcs) := analyze_file (lf_analysis f) in
       {| dfc := dfc acc + d; files := files acc + 1;
          functions := functions acc + funcs |}
     else acc) fs acc
  = let sel := List.filter (selected extensions ignore) fs in
    {| dfc := dfc acc
         + fold_right Z.add 0%Z (List.map (fun f => (analyze_file (lf_analysis f)).1) sel);
       files := files acc + List.length sel;
       functions := functions acc
         + list_sum (List.map (fun f => (analyze_file (lf_analysis f)).2) sel) |}.
Proof.
  induction fs as [|f fs IH]; intros [d n b].
  - simpl. f_equal; lia.
  - cbn [fold_left List.filter]. destruct (selected extensions ignore f).
    + rewrite IH. destruct (analyze_file (lf_analysis f)) as [d' n'] eqn:Ha.
      cbn zeta. cbn [List.map fold_right list_sum dfc files functions List.length].
      rewrite Ha. cbn [fst snd]. unfold list_sum. f_equal; lia.
    + by rewrite IH.
Qed.

End LizardFacts.

Import LizardFacts.

(** X21: with a parameter count that is not negative, the estimate is not
    negative, grows with the parameter count and with the cyclomatic
    complexity, and is 0 exactly for a function without a decision. *)
Theorem estimate_monotone (f g : DfcLizard.FunctionInfo) :
  (0 <= DfcLizard.parameter_count f <= DfcLizard.parameter_count g)%Z ->
  (DfcLizard.cyclomatic_complexity f <= DfcLizard.cyclomatic_complexity g)%Z ->
  (0 <= DfcLizard.estimate_dfc_from_function f
        <= DfcLizard.estimate_dfc_from_function g)%Z
  /\ (DfcLizard.estimate_dfc_from_function f = 0%Z
      <-> (DfcLizard.cyclomatic_complexity f <= 1)%Z).
Proof.
  intros Hp Hc. split_and!.
  - apply estimate_nonneg. lia.
  - rewrite !estimate_product. apply Z.mul_le_mono_nonneg; lia.
  - apply estimate_zero. lia.
Qed.

Lemma estimate_monotone_witness :
  let f := {| DfcLizard.parameter_count := 1; DfcLizard.cyclomatic_complexity := 2 |} in
  let g := {| DfcLizard.parameter_count := 3; DfcLizard.cyclomatic_complexity := 4 |} in
  (0 <= DfcLizard.estimate_dfc_from_function f
        <= DfcLizard.estimate_dfc_from_function g)%Z
  /\ (DfcLizard.estimate_dfc_from_function f = 0%Z
      <-> (DfcLizard.cyclomatic_complexity f <= 1)%Z).
Proof.
  intros f g. apply (estimate_monotone f g); simpl; lia.
Defined.

(** X22: a file's numbers are the sum of the estimates and the number of its
    functions; an analysis that raises gives what a file without functions
    gives.  With parameter counts that are not negative the sum is not
    negative, and it is 0 exactly when no function has a decision. *)
Theorem lizard_file_totals (function_list : list DfcLizard.FunctionInfo) :
  Forall (fun f => (0 <= DfcLizard.parameter_count f)%Z) function_list ->
  let r := DfcLizardFiles.analyze_file (Some function_list) in
  r.1 = fold_right Z.add 0%Z (List.map DfcLizard.estimate_dfc_from_function function_list)
  /\ r.2 = List.length function_list
  /\ (0 <= r.1)%Z
  /\ (r.1 = 0%Z <-> Forall (fun f => (DfcLizard.cyclomatic_complexity f <= 1)%Z) function_list)
  /\ DfcLizardFiles.analyze_file None = DfcLizardFiles.analyze_file (Some []).
Proof.
  intros H r. subst r. unfold DfcLizardFiles.analyze_file at 1 2 3 4.
  rewrite analyze_fold. cbn [fst snd]. rewrite Z.add_0_l.
  destruct (sum_nonneg _ H) as [H1 H2]. split_and!; done.
Qed.

Lemma lizard_file_totals_witness :
  let fl := [ {| DfcLizard.parameter_count := 2; DfcLizard.cyclomatic_complexity := 3 |};
              {| DfcLizard.parameter_count := 0; DfcLizard.cyclomatic_complexity := 1 |} ] in
  let r := DfcLizardFiles.analyze_file (Some fl) in
  r.1 = fold_right Z.add 0%Z (List.map DfcLizard.estimate_dfc_from_function fl)
  /\ r.2 = List.length fl
  /\ (0 <= r.1)%Z
  /\ (r.1 = 0%Z <-> Forall (fun f => (DfcLizard.cyclomatic_complexity f <= 1)%Z) fl)
  /\ DfcLizardFiles.analyze_file None = DfcLizardFiles.analyze_file (Some []).
Proof.
  intros fl. apply (lizard_file_totals fl).
  repeat constructor; simpl; lia.
Defined.

(** X23: the sums of a directory under Strategy B, and the project on a single
    file: the file counts once whatever its name, and alone in a directory
    it counts only if its name is selected, with the same numbers. *)
Theorem lizard_directory_sums (directory name : text) (fs : list DfcLizardFiles.dir_file)
    (analysis : option (list DfcLizard.FunctionInfo))
    (extensions : list text) (ignore : option (list regex)) :
  let sel := List.filter (DfcLizardFiles.selected extensions ignore) fs in
  let f := {| DfcLizardFiles.lf_name := name; DfcLizardFiles.lf_analysis := analysis |} in
  let one := {| DfcLizardFiles.dfc := (DfcLizardFiles.analyze_file analysis).1;
                DfcLizardFiles.files := 1;
                DfcLizardFiles.functions := (DfcLizardFiles.analyze_file analysis).2 |} in
  DfcLizardFiles.analyze_directory directory (Some fs) extensions ignore
  = Returned
      {| DfcLizardFiles.dfc :=
           fold_right Z.add 0%Z
             (List.map (fun f => (DfcLizardFiles.analyze_file
                                    (DfcLizardFiles.lf_analysis f)).1) sel);
         DfcLizardFiles.files := List.length sel;
         DfcLizardFiles.functions :=
           list_sum (List.map (fun f => (DfcLizardFiles.analyze_file
                                           (DfcLizardFiles.lf_analysis f)).2) sel) |}
  /\ DfcLizardFiles.get_dfc_metrics directory (DfcLizardFiles.SrcFile analysis)
       extensions ignore = Returned one
  /\ DfcLizardFiles.analyze_directory directory (Some [f]) extensions ignore
     = Returned (if DfcLizardFiles.selected extensions ignore f then one
                 else {| DfcLizardFiles.dfc := 0; DfcLizardFiles.files := 0;
                         DfcLizardFiles.functions := 0 |}).
Proof.
  intros sel f one. split_and!.
  - unfold DfcLizardFiles.analyze_directory. by rewrite lizard_directory_spec.
  - unfold DfcLizardFiles.get_dfc_metrics. subst one.
    by destruct (DfcLizardFiles.analyze_file analysis).
  - unfold DfcLizardFiles.analyze_directory. cbn [fold_left].
    destruct (DfcLizardFiles.selected extensions ignore f); [|done].
    subst f one. cbn [DfcLizardFiles.lf_analysis].
    by destruct (DfcLizardFiles.analyze_file analysis).
Qed.


(* ===================================================================== *)
(** * dfc_pycparser_backup.py: the loop and the sum *)
(* ===================================================================== *)

Module BackupFacts.

Import DfcBackup DfcBackupFlow.

Lemma outs_length bs : forall k prev, List.length (backup_outs k prev bs) = List.length bs.
Proof. induction bs as [|b bs IH]; intros k prev; simpl; [done | by rewrite IH]. Qed.

Lemma ins_length bs : forall k prev, List.length (backup_ins k prev bs) = List.length bs.
Proof. induction bs as [|b bs IH]; intros k prev; simpl; [done | by rewrite IH]. Qed.

(** The set entering block [i] of a chain is the one leaving block [i - 1],
    and the set leaving it is one step further. *)
Lemma chain_lookups bs : forall k prev i b,
  bs !! i = Some b ->
  let ent := match i with
             | 0 => prev
             | S pred => default ∅ (backup_outs k prev bs !! pred)
             end in
  backup_ins k prev bs !! i = Some ent
  /\ backup_outs k prev bs !! i = Some (backup_step (k + i) ent b).
Proof.
  induction bs as [|b0 bs IH]; intros k prev i b Hb; [done|].
  destruct i as [|i]; cbn [backup_ins backup_outs].
  - simpl in Hb. injection Hb as ->. cbv zeta. by rewrite Nat.add_0_r.
  - simpl in Hb. destruct (IH (S k) (backup_step k prev b0) i b Hb) as [H1 H2].
    cbv zeta in *. replace (k + S i) with (S k + i) by lia.
    change ((?x :: ?l) !! S i) with (l !! i). rewrite H1, H2.
    destruct i as [|i]; [done|]. done.
Qed.

Lemma pass_step_eq bs st i b :
  bs !! i = Some b ->
  let new_in := match i with
                | 0 => ∅
                | S pred => default ∅ (reaching_out st !! pred)
                end in
  pass_step bs st i
  = if decide (new_in <> default ∅ (reaching_in st !! i)
               \/ backup_step i new_in b <> default ∅ (reaching_out st !! i))
    then {| reaching_in := <[i := new_in]> (reaching_in st);
            reaching_out := <[i := backup_step i new_in b]> (reaching_out st);
            changed := true |}
    else st.
Proof. intros Hb. unfold pass_step, backup_step. by rewrite Hb. Qed.

(** After the first [i] blocks of a pass the two lists hold the chain's
    sets up to [i] and are untouched beyond. *)
Lemma backup_pass_prefix bs r_in r_out :
  List.length r_in = List.length bs -> List.length r_out = List.length bs ->
  forall i c, i <= List.length bs ->
    let st := fold_left (pass_step bs) (seq 0 i)
                {| reaching_in := r_in; reaching_out := r_out; changed := c |} in
    reaching_in st = take i (backup_ins 0 ∅ bs) ++ drop i r_in
    /\ reaching_out st = take i (backup_outs 0 ∅ bs) ++ drop i r_out.
Proof.
  intros Hli Hlo. induction i as [|i IH]; intros c Hi; [done|].
  cbv zeta. rewrite seq_S, fold_left_app. cbn [fold_left Nat.add].
  destruct (IH c ltac:(lia)) as [IH1 IH2]. cbv zeta in IH1, IH2.
  set (st := fold_left (pass_step bs) (seq 0 i) _) in *.
  destruct (lookup_lt_is_Some_2 bs i ltac:(lia)) as [b Hb].
  destruct (lookup_lt_is_Some_2 r_in i ltac:(lia)) as [xi Hxi].
  destruct (lookup_lt_is_Some_2 r_out i ltac:(lia)) as [xo Hxo].
  destruct (chain_lookups bs 0 ∅ i b Hb) as [Hci Hco]. cbv zeta in Hci, Hco.
  rewrite Nat.add_0_l in Hco.
  assert (Hti : List.length (take i (backup_ins 0 ∅ bs)) = i).
  { rewrite length_take_le; [done|]. rewrite ins_length. lia. }
  assert (Hto : List.length (take i (backup_outs 0 ∅ bs)) = i).
  { rewrite length_take_le; [done|]. rewrite outs_length. lia. }
  assert (Hnew : match i with
                 | 0 => ∅
                 | S pred => default ∅ (reaching_out st !! pred)
                 end
                 = match i with
                   | 0 => ∅
                   | S pred => default ∅ (backup_outs 0 ∅ bs !! pred)
                   end).
  { destruct i as [|pred]; [done|]. rewrite IH2.
    rewrite lookup_app_l by lia. by rewrite lookup_take_lt by lia. }
  assert (Hcur_i : reaching_in st !! i = Some xi).
  { rewrite IH1, lookup_app_r by lia. rewrite Hti, Nat.sub_diag, lookup_drop.
    by rewrite Nat.add_0_r. }
  assert (Hcur_o : reaching_out st !! i = Some xo).
  { rewrite IH2, lookup_app_r by lia. rewrite Hto, Nat.sub_diag, lookup_drop.
    by rewrite Nat.add_0_r. }
  rewrite (pass_step_eq _ _ _ _ Hb). cbv zeta. rewrite Hnew, Hcur_i, Hcur_o.
  set (ent := match i with 0 => ∅ | S pred => default ∅ (backup_outs 0 ∅ bs !! pred) end) in *.
  rewrite (take_S_r _ _ _ Hci), (take_S_r _ _ _ Hco), <- !app_assoc.
  cbn [default app]. case_decide as Hd.
  - cbn [reaching_in reaching_out]. rewrite IH1, IH2.
    rewrite !insert_app_r_alt by lia. rewrite Hti, Hto, Nat.sub_diag.
    by rewrite (drop_S _ _ _ Hxi), (drop_S _ _ _ Hxo).
  - assert (ent = xi) by (destruct (decide (ent = xi)); [done | exfalso; apply Hd; by left]).
    assert (backup_step i ent b = xo)
      by (destruct (decide (backup_step i ent b = xo)); [done | exfalso; apply Hd; by right]).
    subst xi xo. rewrite IH1, IH2.
    by rewrite (drop_S _ _ _ Hxi), (drop_S _ _ _ Hxo).
Qed.

(** A pass over the chain's own sets changes nothing. *)
Lemma backup_pass_fixed bs :
  forall i, i <= List.length bs ->
    fold_left (pass_step bs) (seq 0 i)
      {| reaching_in := backup_ins 0 ∅ bs; reaching_out := backup_outs 0 ∅ bs;
         changed := false |}
    = {| reaching_in := backup_ins 0 ∅ bs; reaching_out := backup_outs 0 ∅ bs;
         changed := false |}.
Proof.
  induction i as [|i IH]; intros Hi; [done|].
  rewrite seq_S, fold_left_app, IH by lia. cbn [fold_left Nat.add].
  destruct (lookup_lt_is_Some_2 bs i ltac:(lia)) as [b Hb].
  rewrite (pass_step_eq _ _ _ _ Hb). cbv zeta. cbn [reaching_in reaching_out].
  destruct (chain_lookups bs 0 ∅ i b Hb) as [Hci Hco]. cbv zeta in Hci, Hco.
  rewrite Nat.add_0_l in Hco. rewrite Hci, Hco. cbn [default].
  rewrite decide_False; [done|]. intros [H|H]; by apply H.
Qed.

(** The while loop exits within two passes, with the chain's sets. *)
Lemma backup_loop_exits bs r_in r_out k :
  List.length r_in = List.length bs -> List.length r_out = List.length bs ->
  while_changed (2 + k) bs r_in r_out = (backup_ins 0 ∅ bs, backup_outs 0 ∅ bs)
  /\ changed (one_pass bs (backup_ins 0 ∅ bs) (backup_outs 0 ∅ bs)) = false.
Proof.
  intros Hli Hlo.
  assert (Hfix : one_pass bs (backup_ins 0 ∅ bs) (backup_outs 0 ∅ bs)
                 = {| reaching_in := backup_ins 0 ∅ bs; reaching_out := backup_outs 0 ∅ bs;
                      changed := false |}).
  { unfold one_pass. by apply backup_pass_fixed. }
  split; [|by rewrite Hfix]. cbn [Nat.add while_changed].
  destruct (backup_pass_prefix bs r_in r_out Hli Hlo (List.length bs) false ltac:(lia)) as [H1 H2].
  cbv zeta in H1, H2. fold (one_pass bs r_in r_out) in H1, H2.
  rewrite take_ge in H1 by (rewrite ins_length; lia).
  rewrite take_ge in H2 by (rewrite outs_length; lia).
  rewrite drop_ge, app_nil_r in H1 by lia. rewrite drop_ge, app_nil_r in H2 by lia.
  rewrite H1, H2. destruct (changed (one_pass bs r_in r_out)); [|done].
  by rewrite Hfix.
Qed.

(** A step keeps one definition for each name, all from blocks up to the
    one stepped over, and adds the block's names to those defined. *)
Lemma step_one_def k X b :
  one_def_each k X -> one_def_each (S k) (backup_step k X b).
Proof.
  intros [H1 H2]. unfold backup_step. split.
  - intros v j Hin. apply elem_of_union in Hin as [Hin|Hin].
    + apply elem_of_filter in Hin as [_ Hin]. apply H1 in Hin. lia.
    + apply elem_of_map in Hin as (x & [= -> ->] & _). lia.
  - intros v j j' Hj Hj'.
    apply elem_of_union in Hj as [Hj|Hj]; apply elem_of_union in Hj' as [Hj'|Hj'].
    + apply elem_of_filter in Hj as [_ Hj]. apply elem_of_filter in Hj' as [_ Hj'].
      by apply (H2 v).
    + apply elem_of_filter in Hj as [Hn _]. apply elem_of_map in Hj' as (x & [= -> ->] & Hx).
      by destruct Hn.
    + apply elem_of_filter in Hj' as [Hn _]. apply elem_of_map in Hj as (x & [= -> ->] & Hx).
      by destruct Hn.
    + apply elem_of_map in Hj as (x & [= -> ->] & _).
      by apply elem_of_map in Hj' as (x' & [= -> ->] & _).
Qed.

Lemma step_names k X b :
  set_map (D:=gset string) fst (backup_step k X b)
  = set_map (D:=gset string) fst X ∪ defs b.
Proof.
  unfold backup_step. apply set_eq. intros v.
  rewrite elem_of_union, !elem_of_map. split.
  - intros ([v' j] & -> & Hin). simpl. apply elem_of_union in Hin as [Hin|Hin].
    + apply elem_of_filter in Hin as [_ Hin]. left. by exists (v', j).
    + apply elem_of_map in Hin as (x & [= -> ->] & Hx). by right.
  - intros [([v' j] & -> & Hin)|Hd].
    + simpl. destruct (decide (v' ∈ defs b)) as [Hd|Hd].
      * exists (v', k). split; [done|]. apply elem_of_union. right.
        apply elem_of_map. by exists v'.
      * exists (v', j). split; [done|]. apply elem_of_union. left.
        by apply elem_of_filter.
    + exists (v, k). split; [done|]. apply elem_of_union. right.
      apply elem_of_map. by exists v.
Qed.

Lemma defined_before_cons n b bs :
  defined_before (S n) (b :: bs) = defs b ∪ defined_before n bs.
Proof. done. Qed.

(** What enters block [i] of a chain: one definition for each name, from a
    block before [i], of exactly the names defined before [i]. *)
Lemma ins_shape bs : forall k prev i X,
  one_def_each k prev ->
  backup_ins k prev bs !! i = Some X ->
  one_def_each (k + i) X
  /\ set_map (D:=gset string) fst X
     = set_map (D:=gset string) fst prev ∪ defined_before i bs.
Proof.
  induction bs as [|b bs IH]; intros k prev i X Hp HX; [done|].
  destruct i as [|i].
  - simpl in HX. injection HX as <-. rewrite Nat.add_0_r. split; [done|].
    change (defined_before 0 (b :: bs)) with (∅ : gset string). set_solver.
  - simpl in HX. apply IH in HX as [H1 H2]; [|by apply step_one_def].
    replace (k + S i) with (S k + i) by lia. split; [done|].
    rewrite H2, step_names, defined_before_cons. set_solver.
Qed.

Lemma size_set_map_fst (X : gset (string * nat)) :
  (forall v j j', (v, j) ∈ X -> (v, j') ∈ X -> j = j') ->
  size (set_map (D:=gset string) fst X) = size X.
Proof.
  induction X as [|[v j] X Hx IH] using set_ind_L; intros H.
  - by rewrite set_map_empty, !size_empty.
  - rewrite set_map_union_L, set_map_singleton_L. simpl.
    rewrite !size_union, !size_singleton.
    + rewrite IH; [done|]. intros v' j1 j2 H1 H2. apply (H v'); set_solver.
    + set_solver.
    + intros v' Hv Hv'. apply elem_of_singleton in Hv. subst v'.
      apply elem_of_map in Hv' as ([v' j'] & Hv' & Hin). simpl in Hv'. subst v'.
      assert (j = j') by (apply (H v); set_solver). subst j'. done.
Qed.

(** So the definitions counted for block [i] are as many as the exposed
    names that are defined before it. *)
Lemma count_for_exposed (i : nat) (E : gset string) (X : gset (string * nat)) :
  one_def_each i X ->
  size (filter (fun d => d.1 ∈ E /\ d.2 <> i) X)
  = size (E ∩ set_map (D:=gset string) fst X).
Proof.
  intros [H1 H2]. rewrite <- size_set_map_fst.
  - f_equal. apply set_eq. intros v. rewrite elem_of_intersection, !elem_of_map. split.
    + intros ([v' j] & -> & Hin). apply elem_of_filter in Hin as [[He _] Hin].
      split; [done|]. by exists (v', j).
    + intros [He ([v' j] & -> & Hin)]. exists (v', j). split; [done|].
      apply elem_of_filter. split; [|done]. split; [done|].
      simpl. apply H1 in Hin. lia.
  - intros v j j' Hj Hj'. apply elem_of_filter in Hj as [_ Hj].
    apply elem_of_filter in Hj' as [_ Hj']. by apply (H2 v).
Qed.

Lemma fold_sum (g : nat -> nat) l : forall acc,
  fold_left (fun dfc i => dfc + g i) l acc = acc + list_sum (List.map g l).
Proof.
  induction l as [|x l IH]; intros acc; [simpl; lia|].
  cbn [fold_left List.map]. rewrite IH. unfold list_sum. simpl. lia.
Qed.

Lemma bgrows_refl a : bgrows a a.
Proof. exists []. by rewrite app_nil_r. Qed.

Lemma bgrows_same a a' : blocks a' = blocks a -> bgrows a a'.
Proof. intros H. exists []. by rewrite app_nil_r. Qed.

Lemma bgrows_trans a b c : bgrows a b -> bgrows b c -> bgrows a c.
Proof.
  intros (n1 & E1 & F1) (n2 & E2 & F2). exists (n1 ++ n2).
  split; [by rewrite E2, E1, app_assoc | by apply List.Forall_app].
Qed.

Lemma bgrows_add_block a : bgrows a (add_block a).
Proof.
  unfold add_block. case_decide as H.
  - by apply bgrows_same.
  - eexists [_]. split; [done|]. constructor; [|constructor].
    split; [|done]. cbn [defs uses].
    destruct (decide (defs (current_block a) = ∅)) as [Hd|Hd]; [|by left].
    destruct (decide (uses (current_block a) = ∅)) as [Hu|Hu]; [|by right].
    by destruct H.
Qed.

Lemma visit_bgrows n : forall a, bgrows a (visit n a).
Proof.
  assert (Hopt : forall o, P_opt (fun n => forall a, bgrows a (visit n a)) o ->
            forall a, bgrows a (match o with Some c => visit c a | None => a end)).
  { intros [c|] H a; [apply H | apply bgrows_refl]. }
  assert (Hblk : forall o, P_opt (fun n => forall a, bgrows a (visit n a)) o ->
            forall a, bgrows a (match o with Some c => add_block (visit c a) | None => a end)).
  { intros [c|] H a; [|apply bgrows_refl].
    eapply bgrows_trans; [apply H | apply bgrows_add_block]. }
  induction n as [name|l r _ IHr|c t f IHc IHt IHf|c s IHc IHs|i c nx s IHi IHc IHn IHs|cs IH]
    using node_induction; intros a.
  - cbn [visit]. unfold visit_ID. case_decide; [apply bgrows_refl | by apply bgrows_same].
  - cbn [visit].
    eapply bgrows_trans; [apply (Hopt r IHr)|].
    destruct l; try apply bgrows_refl. by apply bgrows_same.
  - cbn [visit].
    eapply bgrows_trans; [|apply (Hblk f IHf)].
    eapply bgrows_trans; [|apply (Hblk t IHt)].
    eapply bgrows_trans; [|apply bgrows_add_block]. apply (Hopt c IHc).
  - cbn [visit].
    eapply bgrows_trans; [|apply bgrows_add_block].
    eapply bgrows_trans; [|apply (Hopt s IHs)].
    eapply bgrows_trans; [|apply bgrows_add_block]. apply (Hopt c IHc).
  - cbn [visit].
    eapply bgrows_trans; [|apply bgrows_add_block].
    eapply bgrows_trans; [|apply (Hopt s IHs)].
    eapply bgrows_trans; [|apply bgrows_add_block].
    eapply bgrows_trans; [|apply (Hopt nx IHn)].
    eapply bgrows_trans; [|apply (Hopt c IHc)]. apply (Hopt i IHi).
  - cbn [visit]. revert a. induction IH as [|c cs Hc _ IHcs]; intros a.
    + apply bgrows_refl.
    + eapply bgrows_trans; [apply Hc | apply IHcs].
Qed.

Lemma backup_blocks ast :
  (compute_data_flow_complexity ast).2 = blocks (add_block (visit ast init)).
Proof.
  unfold compute_data_flow_complexity.
  destruct (blocks (add_block (visit ast init))) as [|b bs]; [done|].
  by destruct (while_changed 2 _ _ _).
Qed.

Lemma backup_blocks_finished ast : Forall finished (compute_data_flow_complexity ast).2.
Proof.
  rewrite backup_blocks.
  destruct (bgrows_trans _ _ _ (visit_bgrows ast init) (bgrows_add_block _))
    as (new & E & F).
  by rewrite E.
Qed.

Lemma backup_sum ast :
  let bs := (compute_data_flow_complexity ast).2 in
  (compute_data_flow_complexity ast).1
  = list_sum (List.map (fun i => size (default ∅ (exposed <$> bs !! i) ∩ defined_before i bs))
                       (seq 0 (List.length bs))).
Proof.
  cbv zeta. rewrite backup_blocks. unfold compute_data_flow_complexity.
  destruct (blocks (add_block (visit ast init))) as [|b0 bs0] eqn:E; [done|].
  set (bs := b0 :: bs0) in *.
  destruct (backup_loop_exits bs (List.map (fun _ => ∅) bs) (List.map (fun _ => ∅) bs) 0)
    as [H _]; [by rewrite List.length_map..|].
  change (2 + 0) with 2 in H. rewrite H. cbn [fst].
  rewrite fold_sum. cbn [Nat.add]. f_equal. apply List.map_ext_in. intros i Hi.
  apply in_seq in Hi. unfold reaching_for_exposed.
  destruct (lookup_lt_is_Some_2 bs i ltac:(lia)) as [b Hb].
  destruct (chain_lookups bs 0 ∅ i b Hb) as [Hci _]. cbv zeta in Hci.
  destruct (ins_shape bs 0 ∅ i _ ltac:(split; intros; set_solver) Hci) as [Hw Hn].
  rewrite Hci. cbn [default]. rewrite (count_for_exposed i _ _ Hw), Hn.
  f_equal. rewrite set_map_empty. set_solver.
Qed.

End BackupFacts.

Import BackupFacts.

(** X24: the backup's loop needs no more than the two passes it is given: with
    any further fuel it stops with the same lists, the sets of the chain. *)
Theorem backup_two_passes (bs : list DfcBackup.block) (k : nat) :
  let empty := List.map (fun _ => ∅) bs in
  DfcBackupFlow.while_changed (2 + k) bs empty empty
  = DfcBackupFlow.while_changed 2 bs empty empty
  /\ DfcBackupFlow.while_changed 2 bs empty empty
     = (backup_ins 0 ∅ bs, backup_outs 0 ∅ bs)
  /\ DfcBackupFlow.changed
       (DfcBackupFlow.one_pass bs (backup_ins 0 ∅ bs) (backup_outs 0 ∅ bs)) = false.
Proof.
  intros empty.
  destruct (backup_loop_exits bs empty empty k) as [H1 H3];
    [by unfold empty; rewrite List.length_map..|].
  destruct (backup_loop_exits bs empty empty 0) as [H2 _];
    [by unfold empty; rewrite List.length_map..|].
  change (2 + 0) with 2 in H2. by rewrite H1, H2.
Qed.

(** X25: every block the backup returns records something and exposes exactly
    the names it uses and does not define: a name the block defines is
    never exposed, even where it is used before its definition. *)
Theorem backup_blocks_are_finished (ast : node) :
  Forall finished (DfcBackupFlow.compute_data_flow_complexity ast).2.
Proof.
  rewrite backup_blocks.
  pose proof (visit_bgrows ast DfcBackup.init) as Hv.
  pose proof (bgrows_add_block (DfcBackup.visit ast DfcBackup.init)) as Ha.
  destruct (bgrows_trans _ _ _ Hv Ha) as (new & E & F).
  by rewrite E.
Qed.

(** X26: the backup's complexity in closed form: each block contributes the
    number of names it uses without defining them that an earlier block
    defines. *)
Theorem backup_dfc_closed_form (ast : node) :
  let bs := (DfcBackupFlow.compute_data_flow_complexity ast).2 in
  (DfcBackupFlow.compute_data_flow_complexity ast).1
  = list_sum
      (List.map (fun i =>
         size ((default ∅ (DfcBackup.uses <$> bs !! i)
                ∖ default ∅ (DfcBackup.defs <$> bs !! i))
               ∩ defined_before i bs))
         (seq 0 (List.length bs))).
Proof.
  intros bs. subst bs. rewrite backup_sum. cbv zeta.
  apply f_equal, List.map_ext_in. intros i Hi. apply in_seq in Hi.
  pose proof (backup_blocks_finished ast) as Hf.
  destruct (lookup_lt_is_Some_2 (DfcBackupFlow.compute_data_flow_complexity ast).2 i
              ltac:(lia)) as [b Hb].
  rewrite Hb. cbn [fmap option_fmap option_map default].
  rewrite List.Forall_forall in Hf.
  destruct (Hf b) as [_ ->]; [|done].
  apply list_elem_of_In. by eapply list_elem_of_lookup_2.
Qed.


(* ===================================================================== *)
(** * The choice of files in the directory walks *)
(* ===================================================================== *)

Lemma starts_with_app p s : starts_with p (p ++ s) = true.
Proof.
  induction p as [|a p IH]; [done|]. simpl. unfold ch_eqb. by rewrite Ascii.eqb_refl.
Qed.

Lemma endswith_iff s suffix : endswith s suffix = true <-> exists stem, s = stem ++ suffix.
Proof.
  unfold endswith. split.
  - intros H. apply starts_with_split in H.
    set (t := skipn (List.length (rev suffix)) (rev s)) in H. exists (rev t).
    apply (f_equal (@rev ascii)) in H.
    by rewrite rev_app_distr, !rev_involutive in H.
  - intros [stem ->]. rewrite rev_app_distr. apply starts_with_app.
Qed.

Lemma re_match_prefix r name : re_match r name = true -> consumes_prefix r name.
Proof.
  unfold re_match. destruct (match_at r [] name) as [[pre' s']|] eqn:E; [|done].
  intros _. apply match_at_consumes in E as (w & -> & _ & Hw). by exists w, s'.
Qed.

Lemma choice_rule (name : text) (extensions : list text) (ignore : option (list regex)) :
  let chosen :=
    existsb (endswith name) extensions
    && negb (match ignore with
             | Some (pat :: pats) => existsb (fun pat => re_match pat name) (pat :: pats)
             | Some [] | None => false
             end) in
  (chosen = true -> has_extension name extensions)
  /\ (has_extension name extensions -> chosen = false ->
      exists pats r, ignore = Some pats /\ In r pats /\ consumes_prefix r name).
Proof.
  intros chosen. subst chosen.
  assert (He : existsb (endswith name) extensions = true <-> has_extension name extensions).
  { rewrite existsb_exists. unfold has_extension. split.
    - intros (e & Hin & H). apply endswith_iff in H as [stem ->]. by exists e, stem.
    - intros (e & stem & Hin & ->). exists e. split; [done|]. apply endswith_iff. by exists stem. }
  split.
  - intros H. apply andb_true_iff in H as [H _]. by apply He.
  - intros Hx H. apply He in Hx. rewrite Hx in H. cbn [andb] in H.
    apply negb_false_iff in H. destruct ignore as [[|pat pats]|]; [done| |done].
    apply existsb_exists in H as (r & Hin & Hr).
    exists (pat :: pats), r. split_and!; [done..|]. by apply re_match_prefix.
Qed.

(** X27: the four walks choose the same files: a chosen name ends with one of
    the extensions, and a name with such an ending is left out only if an
    ignore pattern consumes a prefix of the bare name. *)
Theorem walkers_choose_alike (p : project) (f : walked_file)
    (content : option text) (env : Dfc.file_env)
    (analysis : option (list DfcLizard.FunctionInfo)) :
  let name := wf_name f in
  let extensions := src_file_extensions p in
  let chosen := CC.selected p f in
  HalsteadFiles.selected extensions (ignore p)
    {| HalsteadFiles.hf_name := name; HalsteadFiles.hf_read := content |} = chosen
  /\ Dfc.selected extensions (ignore p) {| Dfc.df_name := name; Dfc.df_env := env |} = chosen
  /\ DfcLizardFiles.selected extensions (ignore p)
       {| DfcLizardFiles.lf_name := name; DfcLizardFiles.lf_analysis := analysis |} = chosen
  /\ (chosen = true -> has_extension name extensions)
  /\ (has_extension name extensions -> chosen = false ->
      exists pats r, ignore p = Some pats /\ In r pats /\ consumes_prefix r name).
Proof.
  intros name extensions chosen. split_and!; [done..| |];
    apply (choice_rule name extensions (ignore p)).
Qed.

(** X28: a pattern whose every match holds a character the name lacks leaves
    the name in: patterns are tried on the bare file name, so one that
    asks for a slash excludes nothing. *)
Theorem pattern_needs_its_characters (r : regex) (c : ascii) (name : text) :
  (forall w, lang r w -> In c w) -> ~ In c name -> re_match r name = false.
Proof.
  intros Hr Hn. destruct (re_match r name) eqn:E; [|done].
  apply re_match_prefix in E as (w & rest & Hw & ->).
  exfalso. apply Hn, in_app_iff. left. by apply Hr.
Qed.

Lemma pattern_needs_its_characters_witness :
  re_match (Cat (lit (txt "compat/")) (Star true (Cls dot))) (txt "compat.c") = false.
Proof.
  apply (pattern_needs_its_characters _ "/"%char).
  - intros w Hw. inversion Hw as [| |r1 r2 w1 w2 H1 H2| | | | |]; subst.
    apply in_app_iff. left. clear -H1.
    repeat (match goal with
            | H : lang (lit _) _ |- _ => simpl in H
            | H : lang (Cat _ _) _ |- _ =>
                inversion H as [| |? ? ? ? ?Ha ?Hb| | | | |]; subst; clear H
            | H : lang (chr _) _ |- _ => apply lang_chr in H; subst
            end).
    simpl. tauto.
  - simpl. intros H. repeat (destruct H as [H|H]; [discriminate|]). done.
Defined.


(* ===================================================================== *)
(** * dfc.py against its backup *)
(* ===================================================================== *)

Module Simulation.

Lemma sim_add_block a b :
  same_state_upto ∅ a b -> same_state_upto ∅ (Dfc.add_block a) (DfcBackup.add_block b).
Proof.
  intros [Hbs (Hd & Hu1 & Hu2)]. unfold Dfc.add_block, DfcBackup.add_block.
  assert (Hempty : Dfc.defs (Dfc.current_block a) = ∅ /\ Dfc.uses (Dfc.current_block a) = ∅
                   <-> DfcBackup.defs (DfcBackup.current_block b) = ∅
                       /\ DfcBackup.uses (DfcBackup.current_block b) = ∅).
  { split; intros [H1 H2]; split; set_solver. }
  assert (Hcur : same_block_upto ∅ Dfc.empty_block DfcBackup.empty_block).
  { unfold same_block_upto. simpl. set_solver. }
  case_decide as Ha; case_decide as Hb; try tauto.
  - by split.
  - split; [|done]. cbn [Dfc.blocks DfcBackup.blocks].
    apply Forall2_app; [done|]. constructor; [|constructor].
    unfold same_block. cbn [DfcBackup.defs DfcBackup.uses DfcBackup.exposed].
    split_and!; set_solver.
Qed.

(** On a tree without control statements both visits leave the blocks
    alone, and the current blocks keep agreeing up to the pending
    targets. *)
Lemma sim_expr n : forall pending a b,
  control_free n = true ->
  same_state_upto pending a b ->
  same_state_upto pending (Dfc.visit n a) (DfcBackup.visit n b).
Proof.
  induction n as [name|l r _ IHr| | | |cs IH] using node_induction;
    intros pending a b Hcf Hs; try discriminate.
  - destruct Hs as [Hbs (Hd & Hu1 & Hu2)]. cbn [Dfc.visit DfcBackup.visit].
    unfold Dfc.visit_ID, Dfc.add_use, DfcBackup.visit_ID. case_decide as Hin.
    + split; [done|]. unfold same_block_upto. cbn [Dfc.current_block Dfc.defs Dfc.uses].
      split_and!; set_solver.
    + split; [done|]. unfold same_block_upto.
      cbn [Dfc.current_block Dfc.defs Dfc.uses DfcBackup.current_block DfcBackup.defs
           DfcBackup.uses].
      split_and!; set_solver.
  - cbn [Dfc.visit DfcBackup.visit control_free] in *.
    assert (Hr : forall pending a b, same_state_upto pending a b ->
              same_state_upto pending
                (match r with Some c => Dfc.visit c a | None => a end)
                (match r with Some c => DfcBackup.visit c b | None => b end)).
    { intros P a' b' H'. destruct r as [c|]; [|done]. by apply IHr. }
    destruct l as [x| | | | |]; try by apply Hr.
    set (a1 := Dfc.add_def x a).
    assert (H1 : same_state_upto (pending ∪ {[x]}) a1 b).
    { destruct Hs as [Hbs (Hd & Hu1 & Hu2)]. split; [done|].
      unfold same_block_upto, a1, Dfc.add_def. cbn [Dfc.current_block Dfc.defs Dfc.uses].
      split_and!; set_solver. }
    apply Hr in H1. destruct H1 as [Hbs (Hd & Hu1 & Hu2)].
    split; [done|]. unfold same_block_upto, DfcBackup.add_def.
    cbn [DfcBackup.current_block DfcBackup.defs DfcBackup.uses].
    split_and!; set_solver.
  - cbn [Dfc.visit DfcBackup.visit control_free] in *. revert a b Hcf Hs.
    induction IH as [|c cs Hc _ IHcs]; intros a b Hcf Hs; [done|].
    apply andb_true_iff in Hcf as [Hc1 Hc2]. apply IHcs; [done|]. by apply Hc.
Qed.

(** On a tree whose right-hand sides are expressions the two analyzers
    stay in step. *)
Lemma sim_visit n : forall a b,
  rvalues_are_expressions n = true ->
  same_state_upto ∅ a b ->
  same_state_upto ∅ (Dfc.visit n a) (DfcBackup.visit n b).
Proof.
  assert (Hopt : forall o,
            P_opt (fun n => forall a b, rvalues_are_expressions n = true ->
                     same_state_upto ∅ a b ->
                     same_state_upto ∅ (Dfc.visit n a) (DfcBackup.visit n b)) o ->
            match o with Some c => rvalues_are_expressions c | None => true end = true ->
            forall a b, same_state_upto ∅ a b ->
              same_state_upto ∅ (match o with Some c => Dfc.visit c a | None => a end)
                                (match o with Some c => DfcBackup.visit c b | None => b end)).
  { intros [c|] H Hw a b Hs; [by apply H | done]. }
  assert (Hblk : forall o,
            P_opt (fun n => forall a b, rvalues_are_expressions n = true ->
                     same_state_upto ∅ a b ->
                     same_state_upto ∅ (Dfc.visit n a) (DfcBackup.visit n b)) o ->
            match o with Some c => rvalues_are_expressions c | None => true end = true ->
            forall a b, same_state_upto ∅ a b ->
              same_state_upto ∅
                (match o with Some c => Dfc.add_block (Dfc.visit c a) | None => a end)
                (match o with Some c => DfcBackup.add_block (DfcBackup.visit c b)
                         | None => b end)).
  { intros [c|] H Hw a b Hs; [|done]. apply sim_add_block. by apply H. }
  induction n as [name|l r _ _|c t f IHc IHt IHf|c s IHc IHs|i c nx s IHi IHc IHn IHs|cs IH]
    using node_induction; intros a b Hw Hs.
  - by apply sim_expr.
  - by apply sim_expr.
  - cbn [rvalues_are_expressions] in Hw.
    apply andb_true_iff in Hw as [Hw Hf]. apply andb_true_iff in Hw as [Hc Ht].
    cbn [Dfc.visit DfcBackup.visit].
    apply (Hblk f IHf Hf). apply (Hblk t IHt Ht). apply sim_add_block.
    by apply (Hopt c IHc Hc).
  - cbn [rvalues_are_expressions] in Hw. apply andb_true_iff in Hw as [Hc Hst].
    cbn [Dfc.visit DfcBackup.visit].
    apply sim_add_block. apply (Hopt s IHs Hst). apply sim_add_block.
    by apply (Hopt c IHc Hc).
  - cbn [rvalues_are_expressions] in Hw.
    apply andb_true_iff in Hw as [Hw Hst]. apply andb_true_iff in Hw as [Hw Hnx].
    apply andb_true_iff in Hw as [Hi Hc].
    cbn [Dfc.visit DfcBackup.visit].
    apply sim_add_block. apply (Hopt s IHs Hst). apply sim_add_block.
    apply (Hopt nx IHn Hnx). apply (Hopt c IHc Hc). by apply (Hopt i IHi Hi).
  - cbn [Dfc.visit DfcBackup.visit rvalues_are_expressions] in *. revert a b Hw Hs.
    induction IH as [|c cs Hc _ IHcs]; intros a b Hw Hs; [done|].
    apply andb_true_iff in Hw as [Hw1 Hw2]. apply IHcs; [done|]. by apply Hc.
Qed.

Lemma sim_blocks ast :
  rvalues_are_expressions ast = true ->
  Forall2 same_block (Dfc.compute_data_flow_complexity ast).2
                     (DfcBackupFlow.compute_data_flow_complexity ast).2.
Proof.
  intros Hw. rewrite compute_blocks, backup_blocks.
  apply sim_add_block, sim_visit; [done|].
  split; [constructor|]. unfold same_block_upto. simpl. set_solver.
Qed.

Lemma same_defined n : forall bsa bsb,
  Forall2 same_block bsa bsb -> defined_within n bsa = defined_before n bsb.
Proof.
  induction n as [|n IH]; intros bsa bsb H; [done|].
  destruct H as [|a b bsa bsb (Hd & _) H]; [done|].
  rewrite defined_within_cons, defined_before_cons, Hd. f_equal. by apply IH.
Qed.

End Simulation.

Import Simulation.

(** X29: on a tree in which every right-hand side of an assignment is an
    expression, dfc.py and its backup cut the same blocks with the same
    definitions; the backup's uses are those of dfc.py but for names the
    block defines, its exposed names are the uses of dfc.py the block does not
    define, and it never reports a higher complexity than dfc.py. *)
Theorem backup_against_dfc (ast : node) :
  rvalues_are_expressions ast = true ->
  Forall2 same_block (Dfc.compute_data_flow_complexity ast).2
                     (DfcBackupFlow.compute_data_flow_complexity ast).2
  /\ (DfcBackupFlow.compute_data_flow_complexity ast).1
     <= (Dfc.compute_data_flow_complexity ast).1.
Proof.
  intros Hw. pose proof (sim_blocks ast Hw) as Hs. split; [done|].
  rewrite backup_sum. cbv zeta.
  destruct (compute_closed_form ast) as (-> & _). cbv zeta.
  rewrite <- (Forall2_length _ _ _ Hs).
  generalize (List.length (Dfc.compute_data_flow_complexity ast).2). intros n.
  induction (seq 0 n) as [|i l IH]; [done|].
  cbn [List.map]. unfold list_sum in *. cbn [fold_right].
  assert (size (default ∅ (DfcBackup.exposed <$>
                   (DfcBackupFlow.compute_data_flow_complexity ast).2 !! i)
                ∩ defined_before i (DfcBackupFlow.compute_data_flow_complexity ast).2)
          <= size (defined_within (S i) (Dfc.compute_data_flow_complexity ast).2)); [|lia].
  apply subseteq_size. rewrite <- (same_defined i _ _ Hs).
  intros x Hx. apply elem_of_intersection in Hx as [_ Hx].
  unfold defined_within in *. apply elem_of_union_list in Hx as (X & HX & Hx).
  apply elem_of_union_list. exists X. split; [|done].
  apply list_elem_of_fmap in HX as (b & -> & Hb). apply list_elem_of_fmap.
  exists b. split; [done|]. apply list_elem_of_In. apply list_elem_of_In in Hb.
  destruct (le_lt_dec (List.length (Dfc.compute_data_flow_complexity ast).2) i) as [Hl|Hl].
  - rewrite firstn_all2 in Hb by lia. by rewrite firstn_all2 by lia.
  - rewrite <- (firstn_skipn i (take (S i) _)). apply in_app_iff. left.
    rewrite firstn_firstn. by replace (Init.Nat.min i (S i)) with i by lia.
Qed.

(** x = 1; if (x) y = x; z = y + x: three blocks in both; dfc.py reports 6
    and the backup 3. *)
Lemma backup_against_dfc_witness :
  let ast := Other [ Assignment (ID "x") (Some (Other []));
                     If (Some (ID "x")) (Some (Assignment (ID "y") (Some (ID "x")))) None;
                     Assignment (ID "z") (Some (Other [ID "y"; ID "x"])) ]%string in
  Forall2 same_block (Dfc.compute_data_flow_complexity ast).2
                     (DfcBackupFlow.compute_data_flow_complexity ast).2
  /\ (DfcBackupFlow.compute_data_flow_complexity ast).1
     <= (Dfc.compute_data_flow_complexity ast).1.
Proof.
  intros ast. apply (backup_against_dfc ast). reflexivity.
Defined.

(** X30: the loop of dfc.py needs no more than the two passes it is given:
    with any further fuel it stops with the same list, the sets of the
    chain, and one more pass over them reports no change. *)
Theorem dfc_two_passes (bs : list Dfc.block) (k : nat) :
  let empty := List.map (fun _ => ∅) bs in
  Dfc.while_changed (2 + k) bs empty = Dfc.while_changed 2 bs empty
  /\ Dfc.while_changed 2 bs empty = chain ∅ bs
  /\ Dfc.one_pass bs (chain ∅ bs) = (chain ∅ bs, false).
Proof.
  intros empty.
  destruct (DfcFacts.while_changed_exits bs empty k) as [H1 H3];
    [by unfold empty; rewrite List.length_map|].
  destruct (DfcFacts.while_changed_exits bs empty 0) as [H2 _];
    [by unfold empty; rewrite List.length_map|].
  change (2 + 0) with 2 in H2. by rewrite H1, H2.
Qed.
